(** * genai-rag: the chat client of [src/App.tsx]

    A shallow embedding of the three pieces of logic of the client:
    the [Typewriter] component, the resource-name sanitiser with the
    sequential upload pipeline of [handleFileSelect], and the chunk
    consumer of [handleSendMessage].

    Conventions.  JavaScript strings are [string]s (sequences of 8-bit
    code units), JavaScript numbers that hold times and delays are exact
    rationals [Q], integer counters are [nat] or [Z], and the
    [Map<string, UploadedFile>] of the component state is a
    [gmap string UploadedFile].

    What the environment does is part of the input: what each request
    resolves to or rejects with, what the clocks and [Math.random]
    return, and between which chunks React runs the state updaters it
    was given.  Every awaited request settles.  The polling loop of an
    import has no bound in the source: the handler is observed for a
    number of rounds of each polling loop, written [fuel], and is either
    found to have returned or found still polling. *)

From Stdlib Require Import ZArith QArith Qround Qminmax Lia Lqa Ascii String List.
From stdpp Require Import gmap strings list.

Local Open Scope string_scope.

(** ** JavaScript string primitives *)

Module JsString.

Definition hyphen : ascii := "-"%char.

Definition isHyphen (c : ascii) : bool := Ascii.eqb c hyphen.

Definition inRange (lo hi c : ascii) : bool :=
  (nat_of_ascii lo <=? nat_of_ascii c)%nat && (nat_of_ascii c <=? nat_of_ascii hi)%nat.

Definition isLowerAZ (c : ascii) : bool := inRange "a" "z" c.
Definition isUpperAZ (c : ascii) : bool := inRange "A" "Z" c.
Definition isDigit (c : ascii) : bool := inRange "0" "9" c.

(** The character class [[a-z0-9-]]. *)
Definition inClass (c : ascii) : bool := isLowerAZ c || isDigit c || isHyphen c.

Definition lowerChar (c : ascii) : ascii :=
  if isUpperAZ c then ascii_of_nat (nat_of_ascii c + 32) else c.

Fixpoint mapChars (f : ascii -> ascii) (s : string) : string :=
  match s with
  | EmptyString => EmptyString
  | String c rest => String (f c) (mapChars f rest)
  end.

(** [s.toLowerCase()].  Code units outside [A-Z] are left alone: none
    of them is in [[a-z0-9-]] before or after lowering. *)
Definition toLowerCase (s : string) : string := mapChars lowerChar s.

(** [s.replace(/[^a-z0-9-]/g, '-')] *)
Definition replaceOutsideClass (s : string) : string :=
  mapChars (fun c => if inClass c then c else hyphen) s.

(** [s.replace(/-+/g, '-')]: a hyphen that is followed by a hyphen is
    dropped, so that every run keeps its last hyphen only. *)
Fixpoint collapseHyphens (s : string) : string :=
  match s with
  | EmptyString => EmptyString
  | String c rest =>
      match rest with
      | EmptyString => String c EmptyString
      | String d _ =>
          if isHyphen c && isHyphen d then collapseHyphens rest
          else String c (collapseHyphens rest)
      end
  end.

Fixpoint dropTrailingHyphen (s : string) : string :=
  match s with
  | EmptyString => EmptyString
  | String c rest =>
      match rest with
      | EmptyString => if isHyphen c then EmptyString else s
      | String _ _ => String c (dropTrailingHyphen rest)
      end
  end.

(** [s.replace(/^-|-$/g, '')]: the scan goes left to right, a hyphen
    at offset 0 is consumed by [^-], and a hyphen that ends what is
    left is consumed by [-$]. *)
Definition trimHyphenEnds (s : string) : string :=
  match s with
  | String c rest => if isHyphen c then dropTrailingHyphen rest else dropTrailingHyphen s
  | EmptyString => EmptyString
  end.

(** [s.startsWith(p)] *)
Definition startsWith (s p : string) : bool := String.prefix p s.

(** [s.includes(p)] *)
Fixpoint includes (s p : string) : bool :=
  String.prefix p s ||
  match s with
  | EmptyString => false
  | String _ rest => includes rest p
  end.

(** [s.substring(0, n)]; a negative [n] counts as 0. *)
Definition substringTo (s : string) (n : Z) : string := String.substring 0 (Z.to_nat n) s.

(** A string is falsy exactly when it is empty. *)
Definition truthy (s : string) : bool :=
  match s with EmptyString => false | String _ _ => true end.

Definition digitChar (d : N) : ascii := ascii_of_N (48 + d).

Fixpoint digitsOf (fuel : nat) (n : N) (acc : string) : string :=
  match fuel with
  | O => acc
  | S fuel' =>
      let acc' := String (digitChar (n mod 10)) acc in
      if (n <? 10)%N then acc' else digitsOf fuel' (n / 10) acc'
  end.

(** [n.toString()] for an integer-valued number below 1e21: the plain
    decimal numeral, with a minus sign when negative. *)
Definition toString (z : Z) : string :=
  let n := Z.to_N (Z.abs z) in
  let body := digitsOf (S (N.to_nat (N.log2 n))) n EmptyString in
  if (z <? 0)%Z then String hyphen body else body.

(** Predicates on strings used to state properties. *)

Fixpoint allChars (P : ascii -> bool) (s : string) : bool :=
  match s with
  | EmptyString => true
  | String c rest => P c && allChars P rest
  end.

(** No hyphen is followed by a hyphen. *)
Fixpoint noDoubleHyphen (s : string) : bool :=
  match s with
  | EmptyString => true
  | String c rest =>
      match rest with
      | EmptyString => true
      | String d _ => negb (isHyphen c && isHyphen d) && noDoubleHyphen rest
      end
  end.

End JsString.

Import JsString.

(** ** [sanitizeResourceName] *)

Definition sanitizeResourceName (name : string) : string :=
  trimHyphenEnds (collapseHyphens (replaceOutsideClass (toLowerCase name))).

(** ** Building the unique resource name (lines 234 to 241) *)

(** [Date.now()] is an integral time value; the language bounds time
    values by 8.64e15 in magnitude. *)
Definition maxTimeValue : Z := 8640000000000000.

(** [Math.floor(Math.random() * 100000).toString()] *)
Definition randomSuffixOf (random : Q) : string :=
  toString (Qfloor (random * 100000)).

Definition maxNameLength (timestamp randomSuffix : string) : Z :=
  40 - Z.of_nat (String.length timestamp) - Z.of_nat (String.length randomSuffix) - 2.

Definition joinResourceName (resourceName timestamp randomSuffix : string) : string :=
  let truncatedResourceName := substringTo resourceName (maxNameLength timestamp randomSuffix) in
  truncatedResourceName ++ "-" ++ timestamp ++ "-" ++ randomSuffix.

Definition uniqueResourceName (fileName : string) (now : Z) (random : Q) : string :=
  let resourceName := sanitizeResourceName fileName in
  let resourceName := if truthy resourceName then resourceName else "file" in
  joinResourceName resourceName (toString now) (randomSuffixOf random).

(** ** The [Typewriter] component (lines 13 to 71) *)

Module Typewriter.

(** The props of one render. *)
Record Props := { textToType : string; charDelay : Q }.

(** [displayedText] is the component state; the other fields are the
    refs.  [framePending] says that [frameRef] holds a callback that
    was requested and neither ran nor was cancelled.  Every change of
    a dependency cancels it before a new one is requested, so the
    pending callback always closes over the latest props. *)
Record State := {
  displayedText : string;
  textIndexRef : nat;
  framePending : bool;
  lastFrameTimeRef : Q;
  timeAccumulatorRef : Q
}.

Definition initial : State :=
  {| displayedText := ""; textIndexRef := 0; framePending := false;
     lastFrameTimeRef := 0; timeAccumulatorRef := 0 |}.

(** The function returned by the second effect. *)
Definition cleanup (st : State) : State :=
  {| displayedText := displayedText st; textIndexRef := textIndexRef st;
     framePending := false; lastFrameTimeRef := 0; timeAccumulatorRef := 0 |}.

(** First effect (lines 21 to 26).  The boolean tells whether
    [setDisplayedText('')] was queued. *)
Definition resetEffect (p : Props) (st : State) : State * bool :=
  if startsWith (textToType p) (displayedText st) then (st, false)
  else ({| displayedText := displayedText st; textIndexRef := 0;
           framePending := framePending st;
           lastFrameTimeRef := lastFrameTimeRef st;
           timeAccumulatorRef := timeAccumulatorRef st |}, true).

(** Body of the second effect (lines 29 and 57 to 59). *)
Definition pacingEffect (p : Props) (st : State) : State :=
  {| displayedText := displayedText st;
     textIndexRef := String.length (displayedText st);
     framePending :=
       (String.length (displayedText st) <? String.length (textToType p))%nat;
     lastFrameTimeRef := lastFrameTimeRef st;
     timeAccumulatorRef := timeAccumulatorRef st |}.

(** The effects of one commit whose dependencies changed: the cleanup
    of the previous run, then both effect bodies in order. *)
Definition runEffects (p : Props) (st : State) : State * bool :=
  let (st1, resetQueued) := resetEffect p (cleanup st) in
  (pacingEffect p st1, resetQueued).

Definition withDisplayed (d : string) (st : State) : State :=
  {| displayedText := d; textIndexRef := textIndexRef st;
     framePending := framePending st;
     lastFrameTimeRef := lastFrameTimeRef st;
     timeAccumulatorRef := timeAccumulatorRef st |}.

(** A commit followed by the re-render that a queued reset causes; the
    update queued by an effect is rendered before the browser runs the
    next animation frame. *)
Definition commit (p : Props) (st : State) : State :=
  let (st1, resetQueued) := runEffects p st in
  if resetQueued then fst (runEffects p (withDisplayed "" st1)) else st1.

Definition mount (p : Props) : State := commit p initial.

Definition sameProps (p q : Props) : bool :=
  String.eqb (textToType p) (textToType q) && Qeq_bool (charDelay p) (charDelay q).

(** The parent renders the component with props [q]. *)
Definition receiveProps (p q : Props) (st : State) : State :=
  if sameProps p q then st else commit q st.

(** [Math.max(0.1, charDelay)] *)
Definition effectiveDelay (p : Props) : Q := Qmax (1 # 10) (charDelay p).

(** [animate(currentTime)] (lines 31 to 55); the second component is
    the argument of [setDisplayedText] when it was called. *)
Definition animate (p : Props) (currentTime : Q) (st : State) : State * option string :=
  let last := if Qeq_bool (lastFrameTimeRef st) 0 then currentTime else lastFrameTimeRef st in
  let deltaTime := (currentTime - last)%Q in
  let accumulated := (timeAccumulatorRef st + deltaTime)%Q in
  let charsToRender := Qfloor (accumulated / effectiveDelay p)%Q in
  let newIndex :=
    Nat.min (textIndexRef st + Z.to_nat charsToRender) (String.length (textToType p)) in
  let reveal := (0 <? charsToRender)%Z && (textIndexRef st <? newIndex)%nat in
  let index := if reveal then newIndex else textIndexRef st in
  ({| displayedText := displayedText st;
      textIndexRef := index;
      framePending := (index <? String.length (textToType p))%nat;
      lastFrameTimeRef := currentTime;
      timeAccumulatorRef :=
        if reveal then (accumulated - inject_Z charsToRender * effectiveDelay p)%Q
        else accumulated |},
   if reveal then Some (String.substring 0 newIndex (textToType p)) else None).

(** One animation frame at time [currentTime]: the pending callback
    runs, and a state update that changes [displayedText] re-renders
    and commits. *)
Definition frame (p : Props) (currentTime : Q) (st : State) : State :=
  if framePending st then
    match animate p currentTime st with
    | (st1, Some d) =>
        if String.eqb d (displayedText st1) then st1 else commit p (withDisplayed d st1)
    | (st1, None) => st1
    end
  else st.

(** What can happen to a mounted component. *)
Inductive Event := Frame (currentTime : Q) | Render (q : Props).

Definition step (c : Props * State) (e : Event) : Props * State :=
  match e with
  | Frame t => (fst c, frame (fst c) t (snd c))
  | Render q => (q, receiveProps (fst c) q (snd c))
  end.

Definition run (c : Props * State) (es : list Event) : Props * State :=
  fold_left step es c.

(** [n] frames at the times [ts 0], [ts 1], ... with the props fixed. *)
Fixpoint frames (p : Props) (ts : nat -> Q) (n : nat) (st : State) : State :=
  match n with
  | O => st
  | S n' => frames p (fun i => ts (S i)) n' (frame p (ts O) st)
  end.

(** States and frame clocks, used to state properties. *)

(** The state a commit leaves: the text shown is a prefix of the
    target, the index ref agrees with it, a frame is pending exactly
    when something is left to reveal, and the clock refs are reset. *)
Definition Fresh (p : Props) (st : State) : Prop :=
  startsWith (textToType p) (displayedText st) = true /\
  textIndexRef st = String.length (displayedText st) /\
  framePending st
    = (String.length (displayedText st) <? String.length (textToType p))%nat /\
  lastFrameTimeRef st = 0%Q /\
  timeAccumulatorRef st = 0%Q.

(** Frame times are positive and at least [d] apart. *)
Definition ticks (d : Q) (ts : nat -> Q) : Prop :=
  forall n, (0 < ts n)%Q /\ (ts n + d <= ts (S n))%Q.

(** A state between two reveals: something is left to show, a frame
    is pending, and the clock refs hold a time and a remainder. *)
Definition Ticking (p : Props) (st : State) : Prop :=
  startsWith (textToType p) (displayedText st) = true /\
  textIndexRef st = String.length (displayedText st) /\
  (textIndexRef st < String.length (textToType p))%nat /\
  framePending st = true.

End Typewriter.

(** ** Messages and citation sources ([types.ts]) *)

Inductive SourceType := web | file.

Record Source := { type : SourceType; uri : string; title : string }.

Inductive Role := user | dot | system.

(** An absent [sources] is the empty list, an absent [isStreaming] is
    [false]. *)
Record Message := {
  role : Role;
  text : string;
  sources : list Source;
  isStreaming : bool;
  charDelay : option Q;
  tokenCount : option Z
}.

Definition systemMessage (t : string) : Message :=
  {| role := system; text := t; sources := []; isStreaming := false;
     charDelay := None; tokenCount := None |}.

(** ** The chunk consumer of [handleSendMessage] (lines 415 to 476) *)

Module Stream.

Record Part := { partText : option string }.

(** The [web] or [retrievedContext] member of a grounding chunk. *)
Record Reference := { refUri : string; refTitle : option string }.

Record GroundingChunk := {
  gWeb : option Reference;
  gRetrievedContext : option Reference
}.

Record UsageMetadata := { totalTokenCount : option Z }.

(** One chunk of the stream, with what the loop body finds when it
    starts on it: the value [performance.now()] returns, and whether
    React has by then run the updaters that [setMessages] was given for
    the chunks before.  React runs an updater when it is queued (if
    nothing else is pending) or when it next renders; the loop is
    suspended between two chunks only, so that is where the updaters
    run, and the scheduler decides between which chunks. *)
Record Chunk := {
  arrival : Q;
  flushed : bool;
  usageMetadata : option UsageMetadata;
  parts : option (list Part);
  groundingChunks : option (list GroundingChunk)
}.

(** The local variables of the loop ([found] is the local [sources]),
    the message list as React last computed it, and the number of
    updaters of lines 466 to 475 that it has not run yet. *)
Record State := {
  totalText : string;
  found : list Source;
  lastChunkTime : Q;
  smoothedCharDelay : Q;
  usageMetadataRef : option UsageMetadata;
  rendered : list Message;
  queued : nat
}.

Definition smoothingFactor : Q := 4 # 10.

(** The state when the loop is entered, [performance.now()] being
    [start]. *)
Definition enter (start : Q) (msgs : list Message) : State :=
  {| totalText := ""; found := []; lastChunkTime := start;
     smoothedCharDelay := 20; usageMetadataRef := None;
     rendered := msgs; queued := 0 |}.

(** [a || b] on strings, [a] possibly absent. *)
Definition orElse (a : option string) (b : string) : string :=
  match a with
  | Some s => if truthy s then s else b
  | None => b
  end.

Definition hasUri (u : string) (l : list Source) : bool :=
  existsb (fun s => String.eqb (uri s) u) l.

Definition pushUnlessPresent (t : SourceType) (r : Reference) (l : list Source) : list Source :=
  if hasUri (refUri r) l then l
  else l ++ [{| type := t; uri := refUri r; title := orElse (refTitle r) (refUri r) |}].

(** Lines 440 to 448. *)
Definition addGroundingChunk (l : list Source) (g : GroundingChunk) : list Source :=
  match gWeb g with
  | Some w => pushUnlessPresent web w l
  | None =>
      match gRetrievedContext g with
      | Some r => pushUnlessPresent file r l
      | None => l
      end
  end.

Definition addGroundingChunks (gs : option (list GroundingChunk)) (l : list Source) : list Source :=
  match gs with
  | Some gs => fold_left addGroundingChunk gs l
  | None => l
  end.

(** Lines 428 to 435. *)
Definition textOf (c : Chunk) : string :=
  match parts c with
  | Some ps =>
      fold_left
        (fun acc p =>
           match partText p with
           | Some t => if truthy t then acc ++ t else acc
           | None => acc
           end) ps ""
  | None => ""
  end.

(** Lines 454 to 461. *)
Definition smooth (deltaTime : Q) (deltaChars : nat) (previous : Q) : Q :=
  if Qlt_le_dec 1 deltaTime then
    if (0 <? deltaChars)%nat then
      let charsPerSecond := ((inject_Z (Z.of_nat deltaChars) / deltaTime) * 1000)%Q in
      let newCharDelay := (1000 / charsPerSecond)%Q in
      (smoothingFactor * newCharDelay + (1 - smoothingFactor) * previous)%Q
    else previous
  else previous.

(** Lines 470 to 472, on the last message. *)
Definition updated (t : string) (srcs : list Source) (delay : Q) (m : Message) : Message :=
  {| role := role m; text := t; sources := srcs;
     isStreaming := isStreaming m;
     charDelay := Some (Qmax (1 # 10) delay);
     tokenCount := tokenCount m |}.

(** The updater given to [setMessages] (lines 466 to 475). *)
Definition updateLast (t : string) (srcs : list Source) (delay : Q) (msgs : list Message)
  : list Message :=
  match List.rev msgs with
  | m :: before =>
      match role m with
      | dot => List.rev before ++ [updated t srcs delay m]
      | _ => msgs
      end
  | [] => msgs
  end.

(** The message list once React has run the queued updaters.  The
    updater is a closure over [totalText], [sources] and
    [smoothedCharDelay]: it reads them as they are when it runs, not as
    they were when it was queued. *)
Definition messages (st : State) : list Message :=
  Nat.iter (queued st)
    (updateLast (totalText st) (found st) (smoothedCharDelay st)) (rendered st).

(** React runs the queue. *)
Definition runQueue (st : State) : State :=
  {| totalText := totalText st; found := found st;
     lastChunkTime := lastChunkTime st;
     smoothedCharDelay := smoothedCharDelay st;
     usageMetadataRef := usageMetadataRef st;
     rendered := messages st; queued := 0 |}.

(** One iteration of the [for await] loop, after what React did while
    the loop waited for the chunk. *)
Definition consumeChunk (st0 : State) (c : Chunk) : State :=
  let st := if flushed c then runQueue st0 else st0 in
  let usage :=
    match usageMetadata c, usageMetadataRef st with
    | Some u, None => Some u
    | _, r => r
    end in
  let now := arrival c in
  let newText := textOf c in
  let found' := addGroundingChunks (groundingChunks c) (found st) in
  if truthy newText then
    let deltaTime := (now - lastChunkTime st)%Q in
    let deltaChars := String.length newText in
    let smoothed := smooth deltaTime deltaChars (smoothedCharDelay st) in
    let total := totalText st ++ newText in
    {| totalText := total; found := found'; lastChunkTime := now;
       smoothedCharDelay := smoothed; usageMetadataRef := usage;
       rendered := rendered st; queued := S (queued st) |}
  else
    {| totalText := totalText st; found := found';
       lastChunkTime := lastChunkTime st;
       smoothedCharDelay := smoothedCharDelay st; usageMetadataRef := usage;
       rendered := rendered st; queued := queued st |}.

Definition consume (st : State) (cs : list Chunk) : State := fold_left consumeChunk cs st.

(** The delay the consumer hands to the renderer, and the one the
    renderer divides by (lines 472, 552 and 40). *)
Definition renderedDelay (m : Message) : Q :=
  let prop :=
    match charDelay m with
    | Some d => if Qeq_bool d 0 then 20%Q else d
    | None => 20%Q
    end in
  Typewriter.effectiveDelay {| Typewriter.textToType := text m; Typewriter.charDelay := prop |}.

(** Vocabulary and sample chunks, used to state properties. *)

(** The uri under which a grounding chunk is filed, and the type it
    gets. *)
Definition filedAs (g : GroundingChunk) : option (SourceType * Reference) :=
  match gWeb g with
  | Some w => Some (web, w)
  | None =>
      match gRetrievedContext g with
      | Some r => Some (file, r)
      | None => None
      end
  end.

(** Five characters arriving one millisecond after the loop was
    entered. *)
Definition quickChunk : Chunk :=
  {| arrival := 1; flushed := true; usageMetadata := None;
     parts := Some [{| partText := Some "hello" |}];
     groundingChunks := None |}.

(** Five characters arriving fifty milliseconds after the loop was
    entered. *)
Definition slowChunk : Chunk :=
  {| arrival := 50; flushed := true; usageMetadata := None;
     parts := Some [{| partText := Some "hello" |}];
     groundingChunks := None |}.

(** A chunk without text that carries a citation and arrives before
    React has run the queued updaters. *)
Definition citingChunk : Chunk :=
  {| arrival := 60; flushed := false; usageMetadata := None; parts := None;
     groundingChunks :=
       Some [{| gWeb := Some {| refUri := "https://a.example"; refTitle := Some "A" |};
                gRetrievedContext := None |}] |}.

(** The same chunk, arriving after React has run them. *)
Definition lateCitingChunk : Chunk :=
  {| arrival := 60; flushed := true; usageMetadata := None; parts := None;
     groundingChunks := groundingChunks citingChunk |}.

Definition streamingDot : Message :=
  {| role := dot; text := ""; sources := []; isStreaming := true;
     charDelay := Some 20%Q; tokenCount := None |}.

End Stream.

(** ** The upload pipeline of [handleFileSelect] (lines 191 to 359) *)

Module Upload.

Inductive Status := uploading | indexing | ready | failed.

(** An absent [isImage] is [false]. *)
Record UploadedFile := {
  status : Status;
  name : string;
  uri : option string;
  mimeType : option string;
  isImage : bool
}.

(** The literal [{ name, status }]. *)
Definition entry (n : string) (s : Status) : UploadedFile :=
  {| status := s; name := n; uri := None; mimeType := None; isImage := false |}.

(** The browser [File] of the input element. *)
Record File := { fileName : string; fileType : string }.

(** What [ai.files.upload] resolves to. *)
Record RemoteFile := {
  remoteName : string;
  remoteUri : option string;
  remoteMimeType : option string
}.

Record FileSearchStore := { storeName : option string }.

(** A thrown value.  An [Error], or an instance of a subclass such as
    [TypeError], is given by its [name] and its [message], both strings,
    and the template of line 346 converts it with
    [Error.prototype.toString].  Any other value is given by what
    [JSON.stringify] and the template make of it.  A value that the
    template cannot convert (a symbol, an object without a conversion to
    a primitive) has no representation: the template is evaluated inside
    the updater, so that such a value makes React throw while it
    renders.

    [JSON.stringify] returns a string; or [undefined], when the value is
    [undefined], a function or a symbol; or it throws: a [TypeError] on
    a BigInt and on a cyclic object, and whatever a [toJSON] method or a
    getter of the value throws. *)
Inductive Thrown :=
| ErrorObject (name message : string)
| OtherValue (json : Json) (shown : string)
with Json :=
| JsonText (s : string)
| JsonUndefined
| JsonThrows (e : Thrown).

Definition typeError (message : string) : Thrown := ErrorObject "TypeError" message.

Inductive Outcome (A : Type) := Returned (a : A) | Threw (e : Thrown).
Arguments Returned {A} a.
Arguments Threw {A} e.

(** A long-running import as the polling loop sees it: the [done] flag
    of the operation that [importFile] resolves to, and what
    [ai.operations.get] does in each round of the loop, counted from 0:
    it resolves to an operation with that [done] flag, or it throws.
    Nothing bounds the number of rounds after which [done] is seen. *)
Record Operation := { done : bool; polled : nat -> Outcome bool }.

(** What the environment answers while one file is processed. *)
Record Remote := {
  now : Z;                            (* Date.now() *)
  random : Q;                         (* Math.random() *)
  upload : Outcome RemoteFile;
  createStore : Outcome FileSearchStore;
  importFile : Outcome Operation
}.

Inductive Request :=
| CreateStore
| UploadFile (displayName resourceName : string)
| ImportFile (store : option string) (fileName : string)
| GetOperation.

(** The owner of an event is the position in the batch of the file
    being processed, or [None] before the loop. *)
Inductive Event :=
| Issued (owner : option nat) (r : Request)
| Settled (owner : option nat) (r : Request)
| Slept (owner : option nat) (ms : Z).

(** The variables of the [try] block and the component state that the
    loop writes. *)
Record Loop := {
  currentStore : option FileSearchStore;
  successes : nat;
  failures : nat;
  billingErrorFound : bool;
  uploadedFiles : gmap string UploadedFile;
  fileSearchStore : option FileSearchStore;
  trace : list Event
}.

(** Computations that read and write the loop state.  Within the
    time they are observed they return, they throw, or they are still
    going round a polling loop ([None]); what was written by then stays
    written. *)
Definition M (A : Type) : Type := Loop -> option (Outcome A) * Loop.

Definition ret {A} (a : A) : M A := fun st => (Some (Returned a), st).

Definition throw {A} (e : Thrown) : M A := fun st => (Some (Threw e), st).

Definition stillPolling {A} : M A := fun st => (None, st).

Definition bind {A B} (m : M A) (k : A -> M B) : M B :=
  fun st =>
    match m st with
    | (Some (Returned a), st1) => k a st1
    | (Some (Threw e), st1) => (Some (Threw e), st1)
    | (None, st1) => (None, st1)
    end.

(** [try { m } catch (error) { handler }] *)
Definition tryCatch {A} (m : M A) (handler : Thrown -> M A) : M A :=
  fun st =>
    match m st with
    | (Some (Threw e), st1) => handler e st1
    | ended => ended
    end.

Declare Scope upload_scope.
Delimit Scope upload_scope with upload.
Notation "'let!' x := m 'in' k" := (bind m (fun x => k))
  (at level 10, x name, m at level 100, k at level 200) : upload_scope.
Notation "m ;;; k" := (bind m (fun _ => k))
  (at level 100, k at level 200, right associativity) : upload_scope.
Local Open Scope upload_scope.

Definition modify (f : Loop -> Loop) : M unit := fun st => (Some (Returned tt), f st).

Definition read {A} (f : Loop -> A) : M A := fun st => (Some (Returned (f st)), st).

(** An expression that evaluates to a value or throws. *)
Definition lift {A} (answer : Outcome A) : M A :=
  match answer with
  | Returned a => ret a
  | Threw e => throw e
  end.

Definition emit (e : Event) (st : Loop) : Loop :=
  {| currentStore := currentStore st; successes := successes st;
     failures := failures st; billingErrorFound := billingErrorFound st;
     uploadedFiles := uploadedFiles st; fileSearchStore := fileSearchStore st;
     trace := trace st ++ [e] |}.

(** [await call]: the request goes out, the loop is suspended until
    it settles, and the outcome is returned or thrown. *)
Definition await {A} (k : option nat) (r : Request) (answer : Outcome A) : M A :=
  modify (emit (Issued k r)) ;;;
  modify (emit (Settled k r)) ;;;
  lift answer.

(** [await new Promise(resolve => setTimeout(resolve, 1000))] *)
Definition sleep (k : option nat) : M unit := modify (emit (Slept k 1000)).

(** [setUploadedFiles(prev => new Map(prev).set(key, v))] *)
Definition setEntry (key : string) (v : UploadedFile) (st : Loop) : Loop :=
  {| currentStore := currentStore st; successes := successes st;
     failures := failures st; billingErrorFound := billingErrorFound st;
     uploadedFiles := <[key := v]> (uploadedFiles st);
     fileSearchStore := fileSearchStore st; trace := trace st |}.

(** [successes++] *)
Definition countSuccess (st : Loop) : Loop :=
  {| currentStore := currentStore st; successes := S (successes st);
     failures := failures st; billingErrorFound := billingErrorFound st;
     uploadedFiles := uploadedFiles st; fileSearchStore := fileSearchStore st;
     trace := trace st |}.

(** [failures++] *)
Definition countFailure (st : Loop) : Loop :=
  {| currentStore := currentStore st; successes := successes st;
     failures := S (failures st);
     billingErrorFound := billingErrorFound st;
     uploadedFiles := uploadedFiles st; fileSearchStore := fileSearchStore st;
     trace := trace st |}.

(** [billingErrorFound = true] *)
Definition noteBillingError (st : Loop) : Loop :=
  {| currentStore := currentStore st; successes := successes st;
     failures := failures st; billingErrorFound := true;
     uploadedFiles := uploadedFiles st; fileSearchStore := fileSearchStore st;
     trace := trace st |}.

(** [setFileSearchStore(newStore); currentStore = newStore] *)
Definition adoptStore (s : FileSearchStore) (st : Loop) : Loop :=
  {| currentStore := Some s; successes := successes st;
     failures := failures st; billingErrorFound := billingErrorFound st;
     uploadedFiles := uploadedFiles st; fileSearchStore := Some s;
     trace := trace st |}.

(** [currentStore?.name] as a condition. *)
Definition hasName (s : option FileSearchStore) : bool :=
  match s with
  | Some {| storeName := Some n |} => truthy n
  | _ => false
  end.

Definition nameOf (s : option FileSearchStore) : option string :=
  match s with
  | Some s => storeName s
  | None => None
  end.

(** The polling loop (lines 293 to 296), about to test [done] for the
    round [round], observed for at most [fuel] more rounds. *)
Fixpoint poll (fuel : nat) (k : option nat) (operation : Operation) (round : nat)
    (isDone : bool) : M unit :=
  if isDone then ret tt
  else
    match fuel with
    | O => stillPolling
    | S fuel' =>
        sleep k ;;;
        let! next := await k GetOperation (polled operation round) in
        poll fuel' k operation (S round) next
    end.

(** What [uploadedFile.mimeType.startsWith] throws when the mimeType
    is absent, in the wording of V8. *)
Definition missingMimeType : Thrown :=
  typeError "Cannot read properties of undefined (reading 'startsWith')".

(** Lines 272 to 279. *)
Definition ensureStore (k : nat) (r : Remote) : M unit :=
  let! current := read currentStore in
  if hasName current then ret tt
  else
    let! newStore := await (Some k) CreateStore (createStore r) in
    modify (adoptStore newStore).

(** Lines 281 to 303. *)
Definition importDocument (fuel : nat) (k : nat) (f : File) (r : Remote)
    (uploadedFile : RemoteFile) : M unit :=
  ensureStore k r ;;;
  modify (setEntry (fileName f) (entry (fileName f) indexing)) ;;;
  let! current := read currentStore in
  let! operation :=
    await (Some k) (ImportFile (nameOf current) (remoteName uploadedFile)) (importFile r) in
  poll fuel (Some k) operation 0 (done operation) ;;;
  modify (setEntry (fileName f) (entry (fileName f) ready)) ;;;
  modify countSuccess.

(** Lines 254 to 269. *)
Definition acceptImage (f : File) (uploadedFile : RemoteFile) : M unit :=
  modify (setEntry (fileName f)
               {| status := ready; name := fileName f;
                  uri := remoteUri uploadedFile;
                  mimeType := remoteMimeType uploadedFile;
                  isImage := true |}) ;;;
  modify countSuccess.

(** Lines 252 to 303: what the [try] block does with the uploaded
    file. *)
Definition afterUpload (fuel : nat) (k : nat) (f : File) (r : Remote)
    (uploadedFile : RemoteFile) : M unit :=
  match remoteMimeType uploadedFile with
  | None => throw missingMimeType
  | Some mime =>
      if startsWith mime "image/" then acceptImage f uploadedFile
      else importDocument fuel k f r uploadedFile
  end.

(** The [try] block of one iteration (lines 234 to 303). *)
Definition fileBody (fuel : nat) (k : nat) (f : File) (r : Remote) : M unit :=
  let uniqueName := uniqueResourceName (fileName f) (now r) (random r) in
  let! uploadedFile := await (Some k) (UploadFile (fileName f) uniqueName) (upload r) in
  afterUpload fuel k f r uploadedFile.

(** Line 308: [error instanceof Error ? error.message :
    JSON.stringify(error)]; [None] is [undefined]. *)
Definition errorMessage (e : Thrown) : Outcome (option string) :=
  match e with
  | ErrorObject _ message => Returned (Some message)
  | OtherValue (JsonText j) _ => Returned (Some j)
  | OtherValue JsonUndefined _ => Returned None
  | OtherValue (JsonThrows thrown) _ => Threw thrown
  end.

(** Line 309: [errorMessage.includes("Requested entity was not
    found")], which throws on [undefined] (in the wording of V8). *)
Definition mentionsBilling (errorMessage : option string) : Outcome bool :=
  match errorMessage with
  | Some s => Returned (includes s "Requested entity was not found")
  | None => Threw (typeError "Cannot read properties of undefined (reading 'includes')")
  end.

(** The [catch] block of one iteration (lines 305 to 318). *)
Definition fileCatch (f : File) (e : Thrown) : M unit :=
  modify countFailure ;;;
  let! errorMessage := lift (errorMessage e) in
  let! billing := lift (mentionsBilling errorMessage) in
  (if billing then modify noteBillingError else ret tt) ;;;
  modify (setEntry (fileName f) (entry (fileName f) failed)).

(** One iteration of the loop. *)
Definition processFile (fuel : nat) (k : nat) (f : File) (r : Remote) : M unit :=
  tryCatch (fileBody fuel k f r) (fileCatch f).

(** The loop over the batch, from position [k] on.  What an iteration
    throws, its [catch] block that is, ends the loop. *)
Fixpoint processFiles (fuel : nat) (k : nat) (fs : list (File * Remote)) : M unit :=
  match fs with
  | [] => ret tt
  | (f, r) :: rest => processFile fuel k f r ;;; processFiles fuel (S k) rest
  end.

(** The tool configuration of the chat session: the name of the
    file-search store, or [None] for web search. *)
Record Chat := { fileSearchStoreName : option string }.

(** [initializeChat(storeName)] (lines 101 to 117). *)
Definition initializeChat (storeName : option string) : Chat :=
  match storeName with
  | Some n => if truthy n then {| fileSearchStoreName := Some n |}
              else {| fileSearchStoreName := None |}
  | None => {| fileSearchStoreName := None |}
  end.

(** The component state that the handler reads and writes. *)
Record App := {
  messages : list Message;
  isApiKeySelected : bool;
  welcomeError : option string;
  appFileSearchStore : option FileSearchStore;
  appUploadedFiles : gmap string UploadedFile;
  isUploading : bool;
  chat : option Chat
}.

(** One invocation: the selected files with what the environment
    answers for each, the answer to the store creation of line 220,
    and whether [window.aistudio] is there. *)
Record Batch := {
  files : list (File * Remote);
  setupStore : Outcome FileSearchStore;
  aistudio : bool
}.

(** Lines 202 to 208. *)
Definition markUploading (fs : list File) (m : gmap string UploadedFile)
  : gmap string UploadedFile :=
  fold_left (fun acc f => <[fileName f := entry (fileName f) uploading]> acc) fs m.

(** The updater of the batch-level [catch] (lines 347 to 355). *)
Definition failStillUploading (fs : list File) (m : gmap string UploadedFile)
  : gmap string UploadedFile :=
  fold_left
    (fun acc f =>
       match acc !! fileName f with
       | Some e =>
           match status e with
           | uploading => <[fileName f := entry (fileName f) failed]> acc
           | _ => acc
           end
       | None => acc
       end) fs m.

Definition isDocument (f : File) : bool := negb (startsWith (fileType f) "image/").

(** [String(error)] in the template of line 346; for an [Error] it is
    [Error.prototype.toString]: the message if the name is empty, the
    name if the message is empty, and otherwise the name, a colon and
    the message. *)
Definition shownAs (e : Thrown) : string :=
  match e with
  | ErrorObject n m => if truthy n then if truthy m then n ++ ": " ++ m else n else m
  | OtherValue _ s => s
  end.

Definition count (n : nat) : string := toString (Z.of_nat n).

Definition say (t : string) (msgs : list Message) : list Message :=
  msgs ++ [systemMessage t].

(** The state in which the loop starts. *)
Definition enterLoop (store : option FileSearchStore) (stored : option FileSearchStore)
    (m : gmap string UploadedFile) (tr : list Event) : Loop :=
  {| currentStore := store; successes := 0; failures := 0;
     billingErrorFound := false; uploadedFiles := m;
     fileSearchStore := stored; trace := tr |}.

(** Lines 322 to 330.  [wasStored] is the [fileSearchStore] of the
    render in which the handler was created. *)
Definition reportSuccesses (wasStored : option FileSearchStore) (st : Loop)
    (msgs : list Message) (c : option Chat) : list Message * option Chat :=
  if (0 <? successes st)%nat then
    match wasStored, currentStore st with
    | None, Some cs =>
        (say (count (successes st) ++ " file(s) processed. chat context updated.") msgs,
         Some (initializeChat (storeName cs)))
    | _, _ => (say (count (successes st) ++ " file(s) ready.") msgs, c)
    end
  else (msgs, c).

(** Lines 332 to 342, on the messages, [welcomeError] and
    [isApiKeySelected]. *)
Definition reportFailures (hasAistudio : bool) (st : Loop)
    (msgs : list Message) (err : option string) (selected : bool)
  : list Message * option string * bool :=
  if (0 <? failures st)%nat then
    if billingErrorFound st then
      let msgs1 := say "upload failed. please check api key billing." msgs in
      if hasAistudio then
        (msgs1, Some "The current API key failed. Please select a valid key.", false)
      else (msgs1, err, selected)
    else (say (count (failures st) ++ " file(s) failed.") msgs, err, selected)
  else (msgs, err, selected).

(** Lines 321 to 342 and the [finally] block. *)
Definition finish (b : Batch) (app : App) (msgs : list Message) (st : Loop) : App :=
  let '(msgs1, chat1) := reportSuccesses (appFileSearchStore app) st msgs (chat app) in
  let '(msgs2, err, selected) :=
    reportFailures (aistudio b) st msgs1 (welcomeError app) (isApiKeySelected app) in
  {| messages := msgs2; isApiKeySelected := selected; welcomeError := err;
     appFileSearchStore := fileSearchStore st;
     appUploadedFiles := uploadedFiles st;
     isUploading := false; chat := chat1 |}.

(** The batch-level [catch] and the [finally] block, the messages,
    the store and the map being [msgs], [stored] and [m] when the error
    is caught. *)
Definition batchCatch (fs : list File) (app : App) (msgs : list Message)
    (stored : option FileSearchStore) (m : gmap string UploadedFile) (e : Thrown) : App :=
  {| messages := say ("process failed: " ++ shownAs e) msgs;
     isApiKeySelected := isApiKeySelected app;
     welcomeError := welcomeError app;
     appFileSearchStore := stored;
     appUploadedFiles := failStillUploading fs m;
     isUploading := false; chat := chat app |}.

(** The component while the handler is still in a polling loop. *)
Definition stillUploading (app : App) (msgs : list Message) (st : Loop) : App :=
  {| messages := msgs;
     isApiKeySelected := isApiKeySelected app;
     welcomeError := welcomeError app;
     appFileSearchStore := fileSearchStore st;
     appUploadedFiles := uploadedFiles st;
     isUploading := true; chat := chat app |}.

(** Lines 211 to 225: the messages and the events so far, and the
    store the loop starts with unless the creation threw. *)
Definition start (b : Batch) (app : App)
  : list Message * list Event * Outcome (option FileSearchStore) :=
  let fs := map fst (files b) in
  let msgs0 := say ("uploading " ++ count (length fs) ++ " file(s)...") (messages app) in
  match appFileSearchStore app, filter isDocument fs with
  | None, _ :: _ =>
      (say "creating a new file collection..." msgs0,
       [Issued None CreateStore; Settled None CreateStore],
       match setupStore b with
       | Returned newStore => Returned (Some newStore)
       | Threw e => Threw e
       end)
  | stored, _ => (msgs0, [], Returned stored)
  end.

(** The loop over the whole batch, when it starts with [store] and
    the events [tr]: how it ends, and the state it leaves. *)
Definition loop (fuel : nat) (b : Batch) (app : App) (store : option FileSearchStore)
    (tr : list Event) : option (Outcome unit) * Loop :=
  processFiles fuel 0 (files b)
    (enterLoop store store (markUploading (map fst (files b)) (appUploadedFiles app)) tr).

(** The handler, each polling loop being observed for [fuel] rounds:
    the component state and the events when the handler has returned,
    or when a polling loop has gone round [fuel] times without seeing
    [done]. *)
Definition handleFileSelect (fuel : nat) (b : Batch) (app : App) : App * list Event :=
  match files b with
  | [] => (app, [])
  | _ :: _ =>
      let fs := map fst (files b) in
      match start b app with
      | (msgs, tr, Returned store) =>
          match loop fuel b app store tr with
          | (Some (Returned _), st) => (finish b app msgs st, trace st)
          | (Some (Threw e), st) =>
              (batchCatch fs app msgs (fileSearchStore st) (uploadedFiles st) e, trace st)
          | (None, st) => (stillUploading app msgs st, trace st)
          end
      | (msgs, tr, Threw e) =>
          (batchCatch fs app msgs (appFileSearchStore app)
             (markUploading fs (appUploadedFiles app)) e, tr)
      end
  end.

(** Traces, counters and sample runs, used to state properties. *)

Local Open Scope list_scope.

Definition owner (e : Event) : option nat :=
  match e with
  | Issued k _ | Settled k _ | Slept k _ => k
  end.

(** The event belongs to the set-up or to a file before position [k]. *)
Definition before (k : nat) (e : Event) : Prop :=
  match owner e with
  | None => True
  | Some j => (j < k)%nat
  end.

(** The event belongs to the file at position [k] or to a later one. *)
Definition notBefore (k : nat) (e : Event) : Prop :=
  match owner e with
  | None => False
  | Some j => (k <= j)%nat
  end.

Definition isUploadIssue (e : Event) : Prop :=
  match e with
  | Issued _ (UploadFile _ _) => True
  | _ => False
  end.

(** Every request of the trace is settled before anything else
    happens: no request is in flight at its end, and at most one is at
    any point of it. *)
Fixpoint quiescent (tr : list Event) : Prop :=
  match tr with
  | [] => True
  | Issued k r :: rest =>
      match rest with
      | Settled k' r' :: rest' => k = k' /\ r = r' /\ quiescent rest'
      | _ => False
      end
  | Slept _ _ :: rest => quiescent rest
  | Settled _ _ :: _ => False
  end.

(** What one iteration may append after its upload has settled. *)
Definition tailOf (k : nat) (seg : list Event) : Prop :=
  Forall (fun e => owner e = Some k) seg /\
  Forall (fun e => ~ isUploadIssue e) seg /\
  quiescent seg.

(** A computation whose final state is related by [R] to the state
    it starts in, however it ends. *)
Definition preserves (R : Loop -> Loop -> Prop) {A} (m : M A) : Prop :=
  forall st, R st (snd (m st)).

(** The second trace is the first one followed by a tail of
    iteration [k]. *)
Definition appendsTail (k : nat) (st st' : Loop) : Prop :=
  exists seg, trace st' = trace st ++ seg /\ tailOf k seg.

(** The trace of the first [n] files: quiescent, and cut in two at
    every upload request, with the set-up and the earlier files on one
    side and nothing of them on the other. *)
Definition sequential (n : nat) (tr : list Event) : Prop :=
  quiescent tr /\
  Forall (before n) tr /\
  forall pre k d rn post,
    tr = pre ++ Issued (Some k) (UploadFile d rn) :: post ->
    quiescent pre /\ Forall (before k) pre /\ Forall (notBefore k) post.

(** The three counters of the loop are the same in both states. *)
Definition sameCounters (st st' : Loop) : Prop :=
  successes st' = successes st /\
  failures st' = failures st /\
  billingErrorFound st' = billingErrorFound st.

(** The failures and the billing flag of the first state are still
    there in the second. *)
Definition keepsFailures (st st' : Loop) : Prop :=
  (failures st <= failures st')%nat /\
  (billingErrorFound st = true -> billingErrorFound st' = true).

(** A computation that counts one success when it returns and none
    otherwise, and leaves the other counters alone. *)
Definition countsOnReturn {A} (m : M A) : Prop :=
  forall st,
    failures (snd (m st)) = failures st /\
    billingErrorFound (snd (m st)) = billingErrorFound st /\
    successes (snd (m st))
    = match fst (m st) with
      | Some (Returned _) => S (successes st)
      | _ => successes st
      end.

(** How the map [m] may differ from [m0] at a key: not at all, or by
    an [uploading] entry turned into a [failed] one. *)
Definition onlyUploadingFailed (m0 m : gmap string UploadedFile) : Prop :=
  forall key,
    m !! key = m0 !! key \/
    exists e, m0 !! key = Some e /\ status e = uploading /\
              m !! key = Some (entry key failed).

(** The rejection of a request for which the project has no billing. *)
Definition refused : Thrown := ErrorObject "ApiError" "404: Requested entity was not found.".

(** An import that is done at the first round of the polling loop. *)
Definition doneAtOnce : Operation := {| done := false; polled := fun _ => Returned true |}.


Definition sampleDocument : File * Remote :=
  ({| fileName := "notes.pdf"; fileType := "application/pdf" |},
   {| now := 1730599200123; random := 1 # 3;
      upload := Returned {| remoteName := "files/n1";
                            remoteUri := Some "https://files.example/n1";
                            remoteMimeType := Some "application/pdf" |};
      createStore := Returned {| storeName := Some "fileSearchStores/s2" |};
      importFile := Returned doneAtOnce |}).

Definition sampleImage : File * Remote :=
  ({| fileName := "cat.png"; fileType := "image/png" |},
   {| now := 1730599201456; random := 1 # 2;
      upload := Returned {| remoteName := "files/c1";
                            remoteUri := Some "https://files.example/c1";
                            remoteMimeType := Some "image/png" |};
      createStore := Returned {| storeName := Some "fileSearchStores/s3" |};
      importFile := Returned doneAtOnce |}).

(** A file whose upload is refused with the recognised message. *)
Definition sampleRefused : File * Remote :=
  ({| fileName := "plan.txt"; fileType := "text/plain" |},
   {| now := 1730599202789; random := 1 # 4;
      upload := Threw refused;
      createStore := Returned {| storeName := Some "fileSearchStores/s4" |};
      importFile := Returned doneAtOnce |}).

(** A document whose import is rejected with [undefined]. *)
Definition sampleUnrendered : File * Remote :=
  ({| fileName := "draft.pdf"; fileType := "application/pdf" |},
   {| now := 1730599203012; random := 1 # 5;
      upload := Returned {| remoteName := "files/d1";
                            remoteUri := Some "https://files.example/d1";
                            remoteMimeType := Some "application/pdf" |};
      createStore := Returned {| storeName := Some "fileSearchStores/s5" |};
      importFile := Threw (OtherValue JsonUndefined "undefined") |}).


Definition sampleApp : App :=
  {| messages := []; isApiKeySelected := true; welcomeError := None;
     appFileSearchStore := None; appUploadedFiles := ∅;
     isUploading := false; chat := Some {| fileSearchStoreName := None |} |}.

Definition sampleBatch (fs : list (File * Remote)) (hasAistudio : bool) : Batch :=
  {| files := fs;
     setupStore := Returned {| storeName := Some "fileSearchStores/s1" |};
     aistudio := hasAistudio |}.

End Upload.

(** ** [handleSendMessage] around the loop (lines 361 to 504) *)

Module Send.

(** The [uploadedFiles] map in the order of its insertions, which is
    the order [values()] lists it in; keys are distinct. *)
Definition values (m : list (string * Upload.UploadedFile)) : list Upload.UploadedFile :=
  map snd m.

(** [next.delete(key)] *)
Definition delete (key : string) (m : list (string * Upload.UploadedFile))
  : list (string * Upload.UploadedFile) :=
  List.filter (fun kv => negb (String.eqb (fst kv) key)) m.

Definition truthyOption (s : option string) : bool :=
  match s with
  | Some t => truthy t
  | None => false
  end.

(** The filter of lines 371 and 372. *)
Definition isPendingImage (f : Upload.UploadedFile) : bool :=
  match Upload.status f with
  | Upload.ready => Upload.isImage f && truthyOption (Upload.uri f) && truthyOption (Upload.mimeType f)
  | _ => false
  end.

(** Code units that [trim()] removes: tab, line feed, vertical tab,
    form feed, carriage return, space and no-break space. *)
Definition isWhiteSpace (c : ascii) : bool :=
  let n := nat_of_ascii c in
  ((9 <=? n)%nat && (n <=? 13)%nat) || (n =? 32)%nat || (n =? 160)%nat.

(** [!s.trim()] *)
Definition isBlank (s : string) : bool := allChars isWhiteSpace s.

Inductive PayloadPart :=
| TextPart (t : string)
| FileDataPart (fileUri mimeType : string).

(** The [message] handed to [chat.sendMessageStream]. *)
Inductive Payload :=
| Plain (t : string)
| Parts (ps : list PayloadPart).

(** What the stream yields: its chunks, and the error that ends it
    when it does not end normally. *)
Record Streamed := { chunks : list Stream.Chunk; broke : option Upload.Thrown }.

(** What the environment answers to one send. *)
Record Reply := {
  sendMessageStream : Upload.Outcome Streamed;
  performanceNow : Q                 (* at line 417 *)
}.

(** The component state and the ref that the handler reads and
    writes. *)
Record App := {
  userInput : string;
  isLoading : bool;
  chat : option Upload.Chat;
  isUploading : bool;
  uploadedFiles : list (string * Upload.UploadedFile);
  messages : list Message;
  usageMetadataRef : option Stream.UsageMetadata
}.

Definition newline : string := String (ascii_of_nat 10) EmptyString.

(** Lines 374 to 377. *)
Definition displayInput (currentUserInput : string) (pendingImages : list Upload.UploadedFile)
  : string :=
  if (0 <? length pendingImages)%nat then
    currentUserInput ++ newline ++ "[attached " ++ Upload.count (length pendingImages)
      ++ " image(s)]"
  else currentUserInput.

Definition userMessage (t : string) : Message :=
  {| role := user; text := t; sources := []; isStreaming := false;
     charDelay := None; tokenCount := None |}.

(** The placeholder of line 382. *)
Definition placeholder : Message :=
  {| role := dot; text := ""; sources := []; isStreaming := true;
     charDelay := Some 20%Q; tokenCount := None |}.

(** Lines 391 to 400. *)
Definition attachment (img : Upload.UploadedFile) : list PayloadPart :=
  match Upload.uri img, Upload.mimeType img with
  | Some u, Some m => if truthy u && truthy m then [FileDataPart u m] else []
  | _, _ => []
  end.

(** Lines 387 to 402. *)
Definition messagePayload (currentUserInput : string) (pendingImages : list Upload.UploadedFile)
  : Payload :=
  if (0 <? length pendingImages)%nat then
    Parts (TextPart currentUserInput :: flat_map attachment pendingImages)
  else Plain currentUserInput.

(** Lines 407 to 413. *)
Definition forgetSent (pendingImages : list Upload.UploadedFile)
    (m : list (string * Upload.UploadedFile)) : list (string * Upload.UploadedFile) :=
  if (0 <? length pendingImages)%nat then
    fold_left (fun next img => delete (Upload.name img) next) pendingImages m
  else m.

(** Line 479. *)
Definition caughtMessage (e : Upload.Thrown) : string :=
  match e with
  | Upload.ErrorObject _ m => m
  | Upload.OtherValue _ _ => "An unknown error occurred."
  end.

Definition errorText (errorMessage : string) : string := "error lol: " ++ errorMessage.

(** The updater of the [catch] block (lines 480 to 489). *)
Definition showError (errorMessage : string) (msgs : list Message) : list Message :=
  let pushed : list Message :=
    (msgs ++ [{| role := dot; text := errorText errorMessage; sources := [];
                 isStreaming := false; charDelay := None; tokenCount := None |}])%list in
  match List.rev msgs with
  | m :: before =>
      match role m with
      | dot =>
          if isStreaming m then
            List.rev before ++
              [{| role := role m; text := errorText errorMessage;
                  sources := sources m; isStreaming := isStreaming m;
                  charDelay := charDelay m; tokenCount := tokenCount m |}]
          else pushed
      | _ => pushed
      end
  | [] => pushed
  end.

(** [usageMetadataRef.current?.totalTokenCount] when it is truthy. *)
Definition countedTokens (u : option Stream.UsageMetadata) : option Z :=
  match u with
  | Some {| Stream.totalTokenCount := Some n |} => if (n =? 0)%Z then None else Some n
  | _ => None
  end.

(** The updater of the [finally] block (lines 492 to 502). *)
Definition stopStreaming (u : option Stream.UsageMetadata) (msgs : list Message)
  : list Message :=
  match List.rev msgs with
  | m :: before =>
      match role m with
      | dot =>
          List.rev before ++
            [{| role := role m; text := text m; sources := sources m;
                isStreaming := false; charDelay := charDelay m;
                tokenCount :=
                  match countedTokens u with
                  | Some n => Some n
                  | None => tokenCount m
                  end |}]
      | _ => msgs
      end
  | [] => msgs
  end.

(** The guard of line 363. *)
Definition refuses (app : App) : bool :=
  isBlank (userInput app) || isLoading app
  || match chat app with Some _ => false | None => true end
  || isUploading app.

(** How the [try] block ends: the map and the messages it leaves, the
    usage metadata it kept, and the error it threw if any. *)
Record Tried := {
  triedFiles : list (string * Upload.UploadedFile);
  triedMessages : list Message;
  triedUsage : option Stream.UsageMetadata;
  triedThrown : option Upload.Thrown
}.

(** Lines 404 to 476. *)
Definition tryBlock (env : Reply) (pendingImages : list Upload.UploadedFile)
    (files : list (string * Upload.UploadedFile)) (msgs0 : list Message) : Tried :=
  match sendMessageStream env with
  | Upload.Returned s =>
      let st := Stream.consume (Stream.enter (performanceNow env) msgs0) (chunks s) in
      {| triedFiles := forgetSent pendingImages files;
         triedMessages := Stream.messages st;
         triedUsage := Stream.usageMetadataRef st;
         triedThrown := broke s |}
  | Upload.Threw e =>
      {| triedFiles := files; triedMessages := msgs0; triedUsage := None;
         triedThrown := Some e |}
  end.

(** The handler; the second component is the payload that was sent,
    [None] when the guard returned. *)
Definition handleSendMessage (env : Reply) (app : App) : App * option Payload :=
  if refuses app then (app, None)
  else
    let currentUserInput := userInput app in
    let pendingImages := List.filter isPendingImage (values (uploadedFiles app)) in
    let msgs0 : list Message :=
      (messages app
         ++ [userMessage (displayInput currentUserInput pendingImages); placeholder])%list in
    let tried := tryBlock env pendingImages (uploadedFiles app) msgs0 in
    let msgs2 :=
      match triedThrown tried with
      | Some e => showError (caughtMessage e) (triedMessages tried)
      | None => triedMessages tried
      end in
    ({| userInput := ""; isLoading := false; chat := chat app;
        isUploading := isUploading app; uploadedFiles := triedFiles tried;
        messages := stopStreaming (triedUsage tried) msgs2;
        usageMetadataRef := triedUsage tried |},
     Some (messagePayload currentUserInput pendingImages)).

(** The error the [catch] block sees, if any. *)
Definition failure (env : Reply) : option Upload.Thrown :=
  match sendMessageStream env with
  | Upload.Returned s => broke s
  | Upload.Threw e => Some e
  end.

(** Every entry is stored under its own name, and no key occurs
    twice. *)
Definition wellKeyed (m : list (string * Upload.UploadedFile)) : Prop :=
  Forall (fun kv => Upload.name (snd kv) = fst kv) m /\ NoDup (map fst m).

(** Sample runs. *)

Definition readyImage : Upload.UploadedFile :=
  {| Upload.status := Upload.ready; Upload.name := "cat.png";
     Upload.uri := Some "https://files.example/c1"; Upload.mimeType := Some "image/png";
     Upload.isImage := true |}.

Definition sampleApp : App :=
  {| userInput := "what is this?"; isLoading := false;
     chat := Some {| Upload.fileSearchStoreName := None |}; isUploading := false;
     uploadedFiles := [("notes.pdf", Upload.entry "notes.pdf" Upload.ready);
                       ("cat.png", readyImage)];
     messages := []; usageMetadataRef := None |}.

Definition sampleReply : Reply :=
  {| sendMessageStream :=
       Upload.Returned {| chunks := [Stream.quickChunk; Stream.slowChunk]; broke := None |};
     performanceNow := 0 |}.

(** A stream whose second chunk carries the usage metadata. *)
Definition countedReply : Reply :=
  {| sendMessageStream :=
       Upload.Returned
         {| chunks :=
              [Stream.slowChunk;
               {| Stream.arrival := 90; Stream.flushed := true;
                  Stream.usageMetadata := Some {| Stream.totalTokenCount := Some 7%Z |};
                  Stream.parts := Some [{| Stream.partText := Some " there" |}];
                  Stream.groundingChunks := None |}];
            broke := None |};
     performanceNow := 0 |}.

(** A stream that breaks after its first chunk. *)
Definition brokenReply : Reply :=
  {| sendMessageStream :=
       Upload.Returned {| chunks := [Stream.slowChunk];
                          broke := Some (Upload.typeError "network down") |};
     performanceNow := 0 |}.

End Send.

(** ** Credentials: [verifyApiKey], the start-up effect and
    [handleSelectKey] (lines 119 to 189) *)

Module Credentials.

Record State := {
  isApiKeySelected : bool;
  isVerifyingKey : bool;
  welcomeError : option string;
  chat : option Upload.Chat;
  messages : list Message;
  fileSearchStore : option Upload.FileSearchStore;
  uploadedFiles : gmap string Upload.UploadedFile
}.

(** The state of the first render (lines 83 to 94). *)
Definition initial : State :=
  {| isApiKeySelected := false; isVerifyingKey := true; welcomeError := None;
     chat := None; messages := []; fileSearchStore := None; uploadedFiles := ∅ |}.

(** [verifyApiKey] (lines 119 to 134); [listing] is what
    [ai.fileSearchStores.list()] does. *)
Definition verifyApiKey (listing : Upload.Outcome unit) (st : State)
  : Upload.Outcome unit * State :=
  match listing with
  | Upload.Returned _ =>
      (Upload.Returned tt,
       {| isApiKeySelected := true; isVerifyingKey := false; welcomeError := None;
          chat := Some (Upload.initializeChat None); messages := messages st;
          fileSearchStore := fileSearchStore st; uploadedFiles := uploadedFiles st |})
  | Upload.Threw e =>
      (Upload.Threw e,
       {| isApiKeySelected := false; isVerifyingKey := false; welcomeError := None;
          chat := chat st; messages := messages st;
          fileSearchStore := fileSearchStore st; uploadedFiles := uploadedFiles st |})
  end.

Definition withWelcomeError (t : string) (st : State) : State :=
  {| isApiKeySelected := isApiKeySelected st; isVerifyingKey := isVerifyingKey st;
     welcomeError := Some t; chat := chat st; messages := messages st;
     fileSearchStore := fileSearchStore st; uploadedFiles := uploadedFiles st |}.

(** [window.aistudio], and what its [hasSelectedApiKey()] resolves
    to. *)
Inductive Host := NoHost | HostWithKey | HostWithoutKey.

(** The callback of the start-up effect (lines 139 to 158). *)
Definition checkAndInit (host : Host) (listing : Upload.Outcome unit) (st : State) : State :=
  match host with
  | HostWithKey =>
      match verifyApiKey listing st with
      | (Upload.Returned _, st1) => st1
      | (Upload.Threw _, st1) =>
          withWelcomeError
            "Your previously selected key is invalid. Please select a new one." st1
      end
  | HostWithoutKey =>
      {| isApiKeySelected := isApiKeySelected st; isVerifyingKey := false;
         welcomeError := welcomeError st; chat := chat st; messages := messages st;
         fileSearchStore := fileSearchStore st; uploadedFiles := uploadedFiles st |}
  | NoHost =>
      match verifyApiKey listing st with
      | (Upload.Returned _, st1) => st1
      | (Upload.Threw _, st1) =>
          withWelcomeError
            "Could not initialize the AI. Please check your API key setup." st1
      end
  end.

(** [handleSelectKey] (lines 177 to 189); [hasHost] says whether
    [window.aistudio] is there. *)
Definition handleSelectKey (hasHost : bool) (listing : Upload.Outcome unit) (st : State)
  : State :=
  if hasHost then
    match verifyApiKey listing st with
    | (Upload.Returned _, st1) =>
        {| isApiKeySelected := isApiKeySelected st1; isVerifyingKey := isVerifyingKey st1;
           welcomeError := welcomeError st1; chat := chat st1; messages := [];
           fileSearchStore := None; uploadedFiles := ∅ |}
    | (Upload.Threw _, st1) =>
        withWelcomeError
          "The selected key is not valid. Please ensure it's from a project with billing enabled."
          st1
    end
  else st.

(** What the user and the environment can do on the welcome screen. *)
Inductive Action :=
| Startup (host : Host) (listing : Upload.Outcome unit)
| SelectKey (hasHost : bool) (listing : Upload.Outcome unit).

Definition act (st : State) (a : Action) : State :=
  match a with
  | Startup host listing => checkAndInit host listing st
  | SelectKey hasHost listing => handleSelectKey hasHost listing st
  end.

(** The session is usable: the key is selected only with a chat
    session and without a welcome error. *)
Definition consistent (st : State) : Prop :=
  isApiKeySelected st = true ->
  (exists c, chat st = Some c) /\ welcomeError st = None.

End Credentials.

(** ** Vocabulary for the upload pipeline *)

Module UploadSpec.
Import Upload.
Local Open Scope list_scope.

(** Every entry is stored under its own name. *)
Definition keyed (m : gmap string UploadedFile) : Prop :=
  forall k e, m !! k = Some e -> name e = k.

(** The entry is no longer in progress. *)
Definition settled (e : UploadedFile) : Prop := status e = ready \/ status e = failed.

(** The two maps agree at [key]. *)
Definition sameAt (key : string) (st st' : Loop) : Prop :=
  uploadedFiles st' !! key = uploadedFiles st !! key.

(** The second map is keyed by name if the first one is. *)
Definition staysKeyed (st st' : Loop) : Prop :=
  keyed (uploadedFiles st) -> keyed (uploadedFiles st').

Definition isCreateStore (e : Event) : Prop :=
  match e with
  | Issued _ CreateStore => True
  | _ => False
  end.

(** Between the two states a named store, if there was one, has been
    kept and no store creation has been issued. *)
Definition reusesStore (st st' : Loop) : Prop :=
  hasName (currentStore st) = true ->
  currentStore st' = currentStore st /\
  fileSearchStore st' = fileSearchStore st /\
  exists seg, trace st' = trace st ++ seg /\
              Forall (fun e => ~ isCreateStore e) seg.

(** A computation that leaves a [ready] entry named [key] at [key]
    when it returns. *)
Definition returnsReady (key : string) {A} (m : M A) : Prop :=
  forall st a st1,
    m st = (Some (Returned a), st1) ->
    exists e, uploadedFiles st1 !! key = Some e /\ status e = ready /\ name e = key.

(** Whatever the first computation ends with, the second one ends
    with too: it was only observed for longer. *)
Definition prolongs {A} (m m' : M A) : Prop :=
  forall st o st1, m st = (Some o, st1) -> m' st = (Some o, st1).

(** The upload requests of a trace: the position and the name of the
    file of each, in the order they were issued. *)
Definition uploadsOf (tr : list Event) : list (nat * string) :=
  flat_map (fun e => match e with
                     | Issued (Some k) (UploadFile d _) => [(k, d)]
                     | _ => []
                     end) tr.

(** The [catch] block of an iteration gets through on the thrown
    value: it is an [Error], or [JSON.stringify] renders it as a
    string. *)
Definition catchable (e : Thrown) : bool :=
  match e with
  | ErrorObject _ _ => true
  | OtherValue (JsonText _) _ => true
  | OtherValue _ _ => false
  end.

Definition caught {A} (answer : Outcome A) : bool :=
  match answer with
  | Returned _ => true
  | Threw e => catchable e
  end.

(** The polling loop, about to test [done] for the round [round],
    ends within [fuel] rounds: it sees [done], or
    [ai.operations.get] throws a value the [catch] block gets through
    on. *)
Fixpoint endsWithin (fuel : nat) (operation : Operation) (round : nat) (isDone : bool)
  : bool :=
  isDone ||
  match fuel with
  | O => false
  | S fuel' =>
      match polled operation round with
      | Returned next => endsWithin fuel' operation (S round) next
      | Threw e => catchable e
      end
  end.

(** A computation that, within the observed time, returns or throws
    a value the [catch] block of an iteration gets through on. *)
Definition endsCaught {A} (m : M A) : Prop :=
  forall st,
    match fst (m st) with
    | Some (Returned _) => True
    | Some (Threw e) => catchable e = true
    | None => False
    end.

(** Whatever the backend answers for the file, its iteration ends
    within the observed time and its [catch] block, if it runs, gets
    through. *)
Definition tractable (fuel : nat) (r : Remote) : bool :=
  caught (upload r) && caught (createStore r) &&
  match importFile r with
  | Returned operation => endsWithin fuel operation 0 (done operation)
  | Threw e => catchable e
  end.

(** A component that already holds a named store. *)
Definition storedApp : App :=
  {| messages := []; isApiKeySelected := true; welcomeError := None;
     appFileSearchStore := Some {| storeName := Some "fileSearchStores/s0" |};
     appUploadedFiles := ∅; isUploading := false;
     chat := Some {| fileSearchStoreName := Some "fileSearchStores/s0" |} |}.

(** A component that holds an image from an earlier batch. *)
Definition appWithImage : App :=
  {| messages := []; isApiKeySelected := true; welcomeError := None;
     appFileSearchStore := None;
     appUploadedFiles :=
       {[ "cat.png" := {| status := ready; name := "cat.png";
                          uri := Some "https://files.example/c1";
                          mimeType := Some "image/png"; isImage := true |} ]};
     isUploading := false; chat := Some {| fileSearchStoreName := None |} |}.

(** A batch whose store creation is refused. *)
Definition refusedSetup : Batch :=
  {| files := [sampleImage; sampleDocument];
     setupStore := Threw refused;
     aistudio := true |}.

End UploadSpec.

(** ** Vocabulary for the Typewriter *)

Module TypewriterSpec.
Import Typewriter.

(** The refs agree with the state: the text shown is a prefix of the
    target, the index ref is its length, and a frame is pending exactly
    when something is left to reveal. *)
Definition Synced (p : Props) (st : State) : Prop :=
  startsWith (textToType p) (displayedText st) = true /\
  textIndexRef st = String.length (displayedText st) /\
  framePending st
  = (String.length (displayedText st) <? String.length (textToType p))%nat.

End TypewriterSpec.

(** * Properties *)

(** ** Sample evaluations *)

Example sanitize_sample :
  sanitizeResourceName "My  Report_(v2).PDF" = "my-report-v2-pdf" /\
  sanitizeResourceName "--a---b--" = "a-b" /\
  sanitizeResourceName "???" = "".
Proof. repeat split; reflexivity. Qed.

Example toString_sample :
  toString 1730599200123 = "1730599200123" /\ toString 0 = "0" /\ toString (-42) = "-42".
Proof. repeat split; reflexivity. Qed.

Example uniqueResourceName_sample :
  uniqueResourceName "Quarterly Financial Report 2024 (final).pdf" 1730599200123 (1 # 3)
  = "quarterly-financial--1730599200123-33333" /\
  uniqueResourceName "???" 1730599200123 (1 # 3) = "file-1730599200123-33333".
Proof. split; vm_compute; reflexivity. Qed.

(** Sixty frames a second and twenty milliseconds a character: every
    third frame reveals one character, the remainder being dropped by
    the cleanup that the reveal triggers. *)
Example typewriter_sample :
  let p := {| Typewriter.textToType := "hello"; Typewriter.charDelay := 20 |} in
  let ts := (fun i => 16 * inject_Z (Z.of_nat i) + 16)%Q in
  map (fun n => Typewriter.displayedText (Typewriter.frames p ts n (Typewriter.mount p)))
    [0; 2; 3; 6; 9; 12; 15; 16]%nat
  = ["" ; ""; "h"; "he"; "hel"; "hell"; "hello"; "hello"].
Proof. vm_compute. reflexivity. Qed.

(** A target that does not extend what is shown resets the display. *)
Example typewriter_reset_sample :
  let p := {| Typewriter.textToType := "hello"; Typewriter.charDelay := 20 |} in
  let q := {| Typewriter.textToType := "bye"; Typewriter.charDelay := 20 |} in
  let ts := (fun i => 16 * inject_Z (Z.of_nat i) + 16)%Q in
  let shown := Typewriter.frames p ts 6 (Typewriter.mount p) in
  Typewriter.displayedText shown = "he" /\
  Typewriter.displayedText (Typewriter.receiveProps p q shown) = "".
Proof. vm_compute. split; reflexivity. Qed.

(** Chunks of 2, 3 and 1 characters at 0, 50 and 80 milliseconds. *)
Example smoothing_sample :
  let chunk t s :=
    {| Stream.arrival := t; Stream.flushed := true; Stream.usageMetadata := None;
       Stream.parts := Some [{| Stream.partText := Some s |}];
       Stream.groundingChunks := None |} in
  let st := Stream.consume (Stream.enter 0 [Stream.streamingDot])
              [chunk 0%Q "ab"; chunk 50%Q "cde"; chunk 80%Q "f"] in
  Stream.totalText st = "abcdef" /\ (Stream.smoothedCharDelay st == 116 # 5)%Q.
Proof. vm_compute. split; reflexivity. Qed.

Example upload_sample :
  let result :=
    Upload.handleFileSelect 5
      (Upload.sampleBatch [Upload.sampleDocument; Upload.sampleImage; Upload.sampleRefused] true)
      Upload.sampleApp in
  map text (Upload.messages (fst result))
  = ["uploading 3 file(s)..."; "creating a new file collection...";
     "2 file(s) processed. chat context updated.";
     "upload failed. please check api key billing."] /\
  map Upload.status
    (omap (fun k => Upload.appUploadedFiles (fst result) !! k)
       ["notes.pdf"; "cat.png"; "plan.txt"])
  = [Upload.ready; Upload.ready; Upload.failed] /\
  length (snd result) = 13%nat.
Proof. vm_compute. repeat split; reflexivity. Qed.


(** ** Strings *)

Section StringFacts.

Lemma isHyphen_true c : isHyphen c = true <-> c = hyphen.
Proof. apply Ascii.eqb_eq. Qed.

Lemma length_append (s t : string) :
  String.length (s ++ t) = (String.length s + String.length t)%nat.
Proof. induction s as [|c s IH]; simpl; [reflexivity | now rewrite IH]. Qed.

Lemma length_substring0 (n : nat) (s : string) :
  String.length (String.substring 0 n s) = Nat.min n (String.length s).
Proof.
  revert s; induction n as [|n IH]; intros [|c s]; simpl; try reflexivity.
  now rewrite IH.
Qed.

Lemma prefix_substring0 (n : nat) (s : string) :
  String.prefix (String.substring 0 n s) s = true.
Proof.
  revert s; induction n as [|n IH]; intros [|c s]; simpl; try reflexivity.
  destruct (ascii_dec c c) as [_|Hne]; [apply IH | now destruct Hne].
Qed.

Lemma prefix_empty (s : string) : String.prefix "" s = true.
Proof. now destruct s. Qed.

Lemma prefix_length (p s : string) :
  String.prefix p s = true -> (String.length p <= String.length s)%nat.
Proof.
  revert s; induction p as [|c p IH]; intros [|d s]; simpl; try lia; try discriminate.
  destruct (ascii_dec c d); [|discriminate]. intros H. apply IH in H. lia.
Qed.

Lemma prefix_same_length (p s : string) :
  String.prefix p s = true -> String.length p = String.length s -> p = s.
Proof.
  revert s; induction p as [|c p IH]; intros [|d s]; simpl; try discriminate; try reflexivity.
  destruct (ascii_dec c d) as [->|]; [|discriminate].
  intros H L. f_equal. apply IH; [exact H | lia].
Qed.

Lemma allChars_get P s :
  allChars P s = true -> forall i c, String.get i s = Some c -> P c = true.
Proof.
  induction s as [|d s IH]; simpl; intros H i c G; [discriminate|].
  apply andb_prop in H as [Hd Hs].
  destruct i as [|i]; [now injection G as <- | eauto].
Qed.

Lemma noDoubleHyphen_tail c s : noDoubleHyphen (String c s) = true -> noDoubleHyphen s = true.
Proof. simpl. destruct s; [reflexivity|]. intros H. now apply andb_prop in H. Qed.

Lemma noDoubleHyphen_get s :
  noDoubleHyphen s = true ->
  forall i, String.get i s = Some hyphen -> String.get (S i) s <> Some hyphen.
Proof.
  induction s as [|c s IH]; intros H i G; [discriminate|].
  destruct i as [|i].
  - simpl in G. injection G as ->. destruct s as [|d s]; [discriminate|].
    simpl in *. apply andb_prop in H as [H _].
    intros E. injection E as ->. discriminate.
  - simpl in G. apply noDoubleHyphen_tail in H. simpl. apply (IH H i G).
Qed.

End StringFacts.

(** ** [sanitizeResourceName] *)

Section Sanitize.

Lemma allChars_replaceOutsideClass s : allChars inClass (replaceOutsideClass s) = true.
Proof.
  induction s as [|c s IH]; [reflexivity|].
  unfold replaceOutsideClass in *. simpl. rewrite IH, andb_true_r.
  destruct (inClass c) eqn:E; [exact E | reflexivity].
Qed.

Lemma allChars_collapseHyphens P s :
  allChars P s = true -> allChars P (collapseHyphens s) = true.
Proof.
  induction s as [|c s IH]; [reflexivity|].
  intros H. simpl in H. apply andb_prop in H as [Hc Hs].
  simpl. destruct s as [|d s]; [simpl; now rewrite Hc|].
  destruct (isHyphen c && isHyphen d); [now apply IH|].
  change (P c && allChars P (collapseHyphens (String d s)) = true).
  now rewrite Hc, IH.
Qed.

Lemma allChars_dropTrailingHyphen P s :
  allChars P s = true -> allChars P (dropTrailingHyphen s) = true.
Proof.
  induction s as [|c s IH]; [reflexivity|].
  intros H. pose proof H as H0. simpl in H. apply andb_prop in H as [Hc Hs].
  simpl. destruct s as [|d s]; [now destruct (isHyphen c)|].
  change (P c && allChars P (dropTrailingHyphen (String d s)) = true).
  now rewrite Hc, IH.
Qed.

Lemma allChars_trimHyphenEnds P s :
  allChars P s = true -> allChars P (trimHyphenEnds s) = true.
Proof.
  destruct s as [|c s]; [reflexivity|]. intros H. unfold trimHyphenEnds.
  destruct (isHyphen c).
  - simpl in H. apply andb_prop in H as [_ Hs]. now apply allChars_dropTrailingHyphen.
  - now apply allChars_dropTrailingHyphen.
Qed.

Lemma get0_collapseHyphens s : String.get 0 (collapseHyphens s) = String.get 0 s.
Proof.
  induction s as [|c s IH]; [reflexivity|].
  simpl. destruct s as [|d s]; [reflexivity|].
  destruct (isHyphen c && isHyphen d) eqn:E; [|reflexivity].
  rewrite IH. simpl. apply andb_prop in E as [Ec Ed].
  apply isHyphen_true in Ec, Ed. congruence.
Qed.

Lemma noDoubleHyphen_cons c s :
  noDoubleHyphen s = true ->
  (isHyphen c = true -> String.get 0 s <> Some hyphen) ->
  noDoubleHyphen (String c s) = true.
Proof.
  intros H F. simpl. destruct s as [|d s]; [reflexivity|].
  rewrite H, andb_true_r. destruct (isHyphen c) eqn:Ec; [|reflexivity].
  destruct (isHyphen d) eqn:Ed; [|reflexivity].
  apply isHyphen_true in Ed. subst d. now destruct (F eq_refl).
Qed.

Lemma noDoubleHyphen_collapseHyphens s : noDoubleHyphen (collapseHyphens s) = true.
Proof.
  induction s as [|c s IH]; [reflexivity|].
  simpl. destruct s as [|d s]; [reflexivity|].
  destruct (isHyphen c && isHyphen d) eqn:E; [exact IH|].
  apply noDoubleHyphen_cons; [exact IH|].
  intros Hc. rewrite get0_collapseHyphens. simpl. rewrite Hc in E. simpl in E.
  intros G. injection G as ->. discriminate.
Qed.

Lemma dropTrailingHyphen_empty s :
  dropTrailingHyphen s = "" -> s = "" \/ s = String hyphen "".
Proof.
  destruct s as [|c [|d s]]; simpl; intros H; [now left | | discriminate].
  destruct (isHyphen c) eqn:E; [|discriminate].
  apply isHyphen_true in E. subst. now right.
Qed.

Lemma get0_dropTrailingHyphen s c :
  String.get 0 (dropTrailingHyphen s) = Some c -> String.get 0 s = Some c.
Proof.
  destruct s as [|d [|e s]]; simpl; [discriminate | | trivial].
  destruct (isHyphen d); [discriminate | trivial].
Qed.

Lemma noDoubleHyphen_dropTrailingHyphen s :
  noDoubleHyphen s = true -> noDoubleHyphen (dropTrailingHyphen s) = true.
Proof.
  induction s as [|c s IH]; [reflexivity|]. intros H.
  pose proof (noDoubleHyphen_tail _ _ H) as Hs.
  simpl. destruct s as [|d s]; [now destruct (isHyphen c)|].
  apply noDoubleHyphen_cons; [now apply IH|].
  intros Hc G. apply get0_dropTrailingHyphen in G. simpl in G. injection G as ->.
  simpl in H. rewrite Hc in H. discriminate.
Qed.

Lemma last_dropTrailingHyphen s :
  noDoubleHyphen s = true ->
  forall n, String.length (dropTrailingHyphen s) = S n ->
            String.get n (dropTrailingHyphen s) <> Some hyphen.
Proof.
  induction s as [|c s IH]; [discriminate|]. intros H n L.
  pose proof (noDoubleHyphen_tail _ _ H) as Hs.
  destruct s as [|d s].
  - simpl in *. destruct (isHyphen c) eqn:E; [discriminate|].
    simpl in L. injection L as <-. simpl. intros G. injection G as ->. discriminate.
  - change (dropTrailingHyphen (String c (String d s)))
      with (String c (dropTrailingHyphen (String d s))) in *.
    specialize (IH Hs).
    destruct (dropTrailingHyphen (String d s)) as [|e t] eqn:D.
    + apply dropTrailingHyphen_empty in D as [D|D]; [discriminate|].
      injection D as -> ->. simpl in L. injection L as <-.
      simpl. intros G. injection G as ->. discriminate.
    + simpl in L. injection L as <-. apply (IH (String.length t) eq_refl).
Qed.

End Sanitize.

(** The three replacements give the shape whatever string the
    lowercasing hands them, so the result does not depend on how
    [toLowerCase] treats code units outside [A-Z]. *)
Lemma replacements_shape (lowered : string) :
  let r := trimHyphenEnds (collapseHyphens (replaceOutsideClass lowered)) in
  (forall i c, String.get i r = Some c -> inClass c = true) /\
  (forall i, String.get i r = Some hyphen -> String.get (S i) r <> Some hyphen) /\
  String.get 0 r <> Some hyphen /\
  (forall n, String.length r = S n -> String.get n r <> Some hyphen).
Proof.
  set (b := collapseHyphens (replaceOutsideClass lowered)).
  assert (Ha : allChars inClass b = true)
    by apply allChars_collapseHyphens, allChars_replaceOutsideClass.
  assert (Hb : noDoubleHyphen b = true) by apply noDoubleHyphen_collapseHyphens.
  cbv zeta. repeat split.
  - apply (allChars_get inClass). now apply allChars_trimHyphenEnds.
  - apply noDoubleHyphen_get. unfold trimHyphenEnds.
    destruct b as [|c b]; [reflexivity|].
    destruct (isHyphen c); apply noDoubleHyphen_dropTrailingHyphen; [|exact Hb].
    exact (noDoubleHyphen_tail _ _ Hb).
  - unfold trimHyphenEnds. destruct b as [|c b]; [discriminate|].
    destruct (isHyphen c) eqn:Ec; intros G; apply get0_dropTrailingHyphen in G.
    + destruct b as [|d b]; [discriminate|]. simpl in G. injection G as ->.
      simpl in Hb. rewrite Ec in Hb. discriminate.
    + simpl in G. injection G as ->. discriminate.
  - unfold trimHyphenEnds. destruct b as [|c b]; [discriminate|].
    destruct (isHyphen c); apply last_dropTrailingHyphen; [|exact Hb].
    exact (noDoubleHyphen_tail _ _ Hb).
Qed.

(** C4.  For every input, [sanitizeResourceName] returns a string whose
    characters are all in [[a-z0-9-]], in which no hyphen is followed by a
    hyphen, and which neither starts nor ends with a hyphen. *)
Theorem sanitizeResourceName_shape (name : string) :
  let r := sanitizeResourceName name in
  (forall i c, String.get i r = Some c ->
               isLowerAZ c || isDigit c || isHyphen c = true) /\
  (forall i, String.get i r = Some hyphen -> String.get (S i) r <> Some hyphen) /\
  String.get 0 r <> Some hyphen /\
  (forall n, String.length r = S n -> String.get n r <> Some hyphen).
Proof. exact (replacements_shape (toLowerCase name)). Qed.

(** ** The unique resource name *)

Section ResourceName.

Lemma digitsOf_length (k : nat) :
  forall fuel n acc,
    (1 <= k)%nat -> (n < 10 ^ N.of_nat k)%N ->
    (String.length (digitsOf fuel n acc) <= k + String.length acc)%nat.
Proof.
  induction k as [|k IH]; intros fuel n acc Hk Hn; [lia|].
  destruct fuel as [|fuel]; simpl; [lia|].
  destruct (N.ltb_spec n 10) as [Hlt|Hge]; simpl; [lia|].
  destruct k as [|k].
  - change (10 ^ N.of_nat 1)%N with 10%N in Hn. lia.
  - etransitivity; [apply IH; [lia|]|simpl; lia].
    rewrite Nat2N.inj_succ, N.pow_succ_r' in Hn.
    apply N.Div0.div_lt_upper_bound. lia.
Qed.

(** The fuel [toString] gives is enough: more fuel yields the same
    numeral. *)
Lemma digitsOf_fuel (fuel : nat) :
  forall n acc extra,
    (1 <= fuel)%nat -> (n < 2 ^ N.of_nat fuel)%N ->
    digitsOf (fuel + extra) n acc = digitsOf fuel n acc.
Proof.
  induction fuel as [|fuel IH]; intros n acc extra Hf Hn; [lia|].
  simpl. destruct (N.ltb_spec n 10) as [Hlt|Hge]; [reflexivity|].
  rewrite Nat2N.inj_succ, N.pow_succ_r' in Hn.
  destruct fuel as [|fuel]; [change (2 ^ N.of_nat 0)%N with 1%N in Hn; lia|].
  apply IH; [lia|]. apply N.Div0.div_lt_upper_bound. lia.
Qed.

Lemma toString_fuel (n : N) (extra : nat) (acc : string) :
  digitsOf (S (N.to_nat (N.log2 n)) + extra) n acc
  = digitsOf (S (N.to_nat (N.log2 n))) n acc.
Proof.
  apply digitsOf_fuel; [lia|].
  rewrite Nat2N.inj_succ, N2Nat.id.
  destruct n as [|q]; [reflexivity|]. apply N.log2_spec. lia.
Qed.

Lemma toString_length (k : nat) (z : Z) :
  (1 <= k)%nat -> (Z.abs z < 10 ^ Z.of_nat k)%Z ->
  (String.length (toString z) <= k + (if (z <? 0)%Z then 1 else 0))%nat.
Proof.
  intros Hk Hz. unfold toString.
  assert (Hn : (Z.to_N (Z.abs z) < 10 ^ N.of_nat k)%N).
  { apply N2Z.inj_lt. rewrite Z2N.id by lia.
    rewrite N2Z.inj_pow, nat_N_Z. exact Hz. }
  pose proof (digitsOf_length k (S (N.to_nat (N.log2 (Z.to_N (Z.abs z)))))
                (Z.to_N (Z.abs z)) "" Hk Hn) as H.
  destruct (z <? 0)%Z; simpl in *; lia.
Qed.

Lemma timestamp_length (now : Z) :
  (Z.abs now <= maxTimeValue)%Z -> (String.length (toString now) <= 17)%nat.
Proof.
  intros H. pose proof (toString_length 16 now) as L.
  unfold maxTimeValue in H.
  assert (Z.abs now < 10 ^ Z.of_nat 16)%Z by (change (10 ^ Z.of_nat 16)%Z with 10000000000000000%Z; lia).
  specialize (L ltac:(lia) ltac:(assumption)).
  destruct (now <? 0)%Z; lia.
Qed.

Lemma randomSuffix_length (random : Q) :
  (0 <= random)%Q -> (random < 1)%Q -> (String.length (randomSuffixOf random) <= 5)%nat.
Proof.
  intros H0 H1. unfold randomSuffixOf.
  set (z := Qfloor (random * 100000)).
  assert (Hlo : (0 <= z)%Z).
  { change 0%Z with (Qfloor 0). apply Qfloor_resp_le. lra. }
  assert (Hhi : (z < 100000)%Z).
  { assert (inject_Z z < inject_Z 100000)%Q as Hq.
    { eapply Qle_lt_trans; [apply Qfloor_le|]. change (inject_Z 100000) with (100000 # 1)%Q. lra. }
    now rewrite <- Zlt_Qlt in Hq. }
  pose proof (toString_length 5 z) as L.
  assert (Z.abs z < 10 ^ Z.of_nat 5)%Z by (change (10 ^ Z.of_nat 5)%Z with 100000%Z; lia).
  specialize (L ltac:(lia) ltac:(assumption)).
  destruct (Z.ltb_spec z 0); lia.
Qed.

(** The length of what line 241 builds, for any three strings. *)
Lemma joinResourceName_length (resourceName timestamp randomSuffix : string) :
  String.length (joinResourceName resourceName timestamp randomSuffix)
  = (Nat.min (Z.to_nat (maxNameLength timestamp randomSuffix)) (String.length resourceName)
     + String.length timestamp + String.length randomSuffix + 2)%nat.
Proof.
  unfold joinResourceName, substringTo.
  rewrite !length_append, length_substring0. simpl. lia.
Qed.

End ResourceName.

(** C5.  Whatever the file name, the time value returned by [Date.now()]
    and the number returned by [Math.random()], the unique resource name
    built for the upload is at most 40 characters long. *)
Theorem uniqueResourceName_length (fileName : string) (now : Z) (random : Q) :
  (Z.abs now <= maxTimeValue)%Z ->
  (0 <= random)%Q -> (random < 1)%Q ->
  (String.length (uniqueResourceName fileName now random) <= 40)%nat.
Proof.
  intros Hn H0 H1. unfold uniqueResourceName.
  rewrite joinResourceName_length.
  pose proof (timestamp_length now Hn).
  pose proof (randomSuffix_length random H0 H1).
  unfold maxNameLength. lia.
Qed.

Lemma uniqueResourceName_length_witness :
  (String.length
     (uniqueResourceName "Quarterly Financial Report 2024 (final).pdf" 1730599200123 (1 # 3))
   <= 40)%nat.
Proof.
  apply (uniqueResourceName_length _ 1730599200123 (1 # 3)).
  - vm_compute. discriminate.
  - vm_compute. discriminate.
  - vm_compute. reflexivity.
Defined.

(** ** The Typewriter *)

Module TypewriterFacts.
Import Typewriter.

Lemma startsWith_empty s : startsWith s "" = true.
Proof. apply prefix_empty. Qed.

Lemma runEffects_kept p st :
  startsWith (textToType p) (displayedText st) = true ->
  runEffects p st
  = ({| displayedText := displayedText st;
        textIndexRef := String.length (displayedText st);
        framePending :=
          (String.length (displayedText st) <? String.length (textToType p))%nat;
        lastFrameTimeRef := 0; timeAccumulatorRef := 0 |}, false).
Proof.
  intros H. unfold runEffects, resetEffect. simpl. rewrite H. reflexivity.
Qed.

(** The re-render after a reset queues nothing more. *)
Lemma runEffects_after_reset p st : snd (runEffects p (withDisplayed "" st)) = false.
Proof. rewrite runEffects_kept by apply startsWith_empty. reflexivity. Qed.

Lemma commit_kept p st :
  startsWith (textToType p) (displayedText st) = true ->
  commit p st
  = {| displayedText := displayedText st;
       textIndexRef := String.length (displayedText st);
       framePending :=
         (String.length (displayedText st) <? String.length (textToType p))%nat;
       lastFrameTimeRef := 0; timeAccumulatorRef := 0 |}.
Proof. intros H. unfold commit. rewrite runEffects_kept by exact H. reflexivity. Qed.

Lemma commit_fresh p st : Fresh p (commit p st).
Proof.
  destruct (startsWith (textToType p) (displayedText st)) eqn:E.
  - rewrite commit_kept by exact E. repeat split; simpl; auto.
  - unfold commit, runEffects at 1, resetEffect. simpl. rewrite E.
    rewrite runEffects_kept by apply startsWith_empty.
    repeat split; simpl; auto using startsWith_empty.
Qed.

Lemma animate_displayed p t st : displayedText (fst (animate p t st)) = displayedText st.
Proof. reflexivity. Qed.

Lemma frame_prefix p t st :
  startsWith (textToType p) (displayedText st) = true ->
  startsWith (textToType p) (displayedText (frame p t st)) = true.
Proof.
  intros H. unfold frame. destruct (framePending st); [|exact H].
  destruct (animate p t st) as [st1 [d|]] eqn:E;
    pose proof (animate_displayed p t st) as D; rewrite E in D; simpl in D.
  - destruct (String.eqb d (displayedText st1)); [now rewrite D|].
    apply commit_fresh.
  - now rewrite D.
Qed.

Lemma receiveProps_prefix p q st :
  startsWith (textToType p) (displayedText st) = true ->
  startsWith (textToType q) (displayedText (receiveProps p q st)) = true.
Proof.
  intros H. unfold receiveProps. destruct (sameProps p q) eqn:E.
  - unfold sameProps in E. apply andb_prop in E as [E _].
    apply String.eqb_eq in E. now rewrite <- E.
  - apply commit_fresh.
Qed.

Lemma run_prefix es : forall c,
  startsWith (textToType (fst c)) (displayedText (snd c)) = true ->
  startsWith (textToType (fst (run c es))) (displayedText (snd (run c es))) = true.
Proof.
  induction es as [|e es IH]; intros c H; [exact H|].
  unfold run in *. simpl. apply IH. destruct e as [t|q]; simpl.
  - now apply frame_prefix.
  - now apply receiveProps_prefix.
Qed.

Lemma effectiveDelay_pos p : (0 < effectiveDelay p)%Q.
Proof.
  unfold effectiveDelay.
  apply Qlt_le_trans with (1 # 10)%Q; [reflexivity | apply Q.le_max_l].
Qed.

Lemma Qfloor_pos_iff (x : Q) : (0 < Qfloor x)%Z <-> (1 <= x)%Q.
Proof.
  split; intros H.
  - apply Qle_trans with (inject_Z (Qfloor x)); [|apply Qfloor_le].
    change 1%Q with (inject_Z 1). rewrite <- Zle_Qle. lia.
  - apply Qfloor_resp_le in H. change (Qfloor 1) with 1%Z in H. lia.
Qed.

Lemma frames_add p ts n m st :
  frames p ts (n + m) st = frames p (fun i => ts (n + i)%nat) m (frames p ts n st).
Proof.
  revert ts st. induction n as [|n IH]; intros ts st; [reflexivity|].
  simpl. now rewrite IH.
Qed.

Lemma ticks_shift d ts n : ticks d ts -> ticks d (fun i => ts (n + i)%nat).
Proof. intros H i. cbv beta. rewrite Nat.add_succ_r. apply H. Qed.

Lemma floor_div_pos (acc eff : Q) :
  (0 < eff)%Q -> ((0 <? Qfloor (acc / eff))%Z = true <-> (eff <= acc)%Q).
Proof.
  intros He. rewrite Z.ltb_lt, Qfloor_pos_iff. split; intros H.
  - apply (Qmult_le_r _ _ eff He) in H.
    rewrite Qmult_1_l in H. rewrite Qmult_comm, Qmult_div_r in H; [exact H | lra].
  - apply Qle_shift_div_l; [exact He | lra].
Qed.

Lemma fresh_ticking p st :
  Fresh p st -> (textIndexRef st < String.length (textToType p))%nat -> Ticking p st.
Proof.
  intros (H1 & H2 & H3 & _ & _) L. repeat split; auto.
  rewrite H3. apply Nat.ltb_lt. lia.
Qed.

(** One frame either leaves the text alone and keeps the time that
    has accumulated, or reveals at least one more character and
    commits. *)
Lemma frame_cases p now st :
  Ticking p st ->
  forall acc,
    acc = (timeAccumulatorRef st
           + (now - (if Qeq_bool (lastFrameTimeRef st) 0 then now
                     else lastFrameTimeRef st)))%Q ->
    ((acc < effectiveDelay p)%Q /\
     frame p now st
     = {| displayedText := displayedText st; textIndexRef := textIndexRef st;
          framePending := true; lastFrameTimeRef := now;
          timeAccumulatorRef := acc |})
    \/ ((effectiveDelay p <= acc)%Q /\ Fresh p (frame p now st) /\
        (textIndexRef st < textIndexRef (frame p now st))%nat).
Proof.
  intros (Hpre & Hidx & Hlt & Hpend) acc ->.
  set (acc := (timeAccumulatorRef st + _)%Q).
  pose proof (floor_div_pos acc _ (effectiveDelay_pos p)) as Hfl.
  unfold frame. rewrite Hpend. unfold animate. fold acc.
  destruct (0 <? Qfloor (acc / effectiveDelay p))%Z eqn:Epos.
  - right. split; [now apply Hfl|].
    apply Z.ltb_lt in Epos.
    set (newIndex := Nat.min _ _).
    assert (Hnew : (textIndexRef st < newIndex)%nat) by (unfold newIndex; lia).
    assert (Hle : (newIndex <= String.length (textToType p))%nat) by (unfold newIndex; lia).
    apply Nat.ltb_lt in Hnew as Hb. rewrite Hb. simpl andb. cbv iota.
    destruct (String.eqb _ _) eqn:Eq.
    + apply String.eqb_eq in Eq. simpl in Eq.
      apply (f_equal String.length) in Eq. rewrite length_substring0 in Eq. lia.
    + split; [apply commit_fresh|].
      rewrite commit_kept by apply prefix_substring0.
      simpl. rewrite length_substring0. lia.
  - left. split.
    + destruct (Qlt_le_dec acc (effectiveDelay p)) as [H|H]; [exact H|].
      apply Hfl in H. congruence.
    + simpl. apply Nat.ltb_lt in Hlt. now rewrite Hlt.
Qed.

Section Completion.

Variable p : Props.
Variable d : Q.
Hypothesis d_pos : (0 < d)%Q.

Lemma ticking_reveals (k : nat) :
  forall ts st,
    ticks d ts -> Ticking p st ->
    (0 < lastFrameTimeRef st)%Q -> (lastFrameTimeRef st + d <= ts O)%Q ->
    (effectiveDelay p <= timeAccumulatorRef st + inject_Z (Z.of_nat k) * d)%Q ->
    exists n, Fresh p (frames p ts n st) /\
              (textIndexRef st < textIndexRef (frames p ts n st))%nat.
Proof.
  induction k as [|k IH]; intros ts st Hts Htick Hlast Hnext Hacc;
    destruct (frame_cases p (ts O) st Htick _ eq_refl) as [[Hlow E]|(_ & Hf & Hi)];
    try (exists 1%nat; simpl; now split);
    destruct (Qeq_bool (lastFrameTimeRef st) 0) eqn:Ez;
    try (apply Qeq_bool_iff in Ez; lra).
  - change (inject_Z (Z.of_nat 0)) with 0%Q in Hacc. lra.
  - destruct (Hts O) as [Hp0 Hs0].
    destruct (IH (fun i => ts (S i)) (frame p (ts O) st)) as (n & Hf & Hi).
    + apply (ticks_shift d ts 1 Hts).
    + rewrite E. destruct Htick as (H1 & H2 & H3 & H4). repeat split; auto.
    + rewrite E. simpl. exact Hp0.
    + rewrite E. simpl. exact Hs0.
    + rewrite E. simpl.
      rewrite Nat2Z.inj_succ in Hacc. unfold Z.succ in Hacc.
      rewrite inject_Z_plus in Hacc. change (inject_Z 1) with 1%Q in Hacc. lra.
    + exists (S n). simpl. split; [exact Hf|].
      rewrite E in Hi |- *. simpl in Hi. exact Hi.
Qed.

Lemma enough_frames (e : Q) : exists k : nat, (e <= inject_Z (Z.of_nat k) * d)%Q.
Proof.
  exists (Z.to_nat (Qceiling (e / d))).
  assert (H : (e / d <= inject_Z (Z.of_nat (Z.to_nat (Qceiling (e / d)))))%Q).
  { eapply Qle_trans; [apply Qle_ceiling|]. rewrite <- Zle_Qle. lia. }
  apply (Qmult_le_r _ _ d d_pos) in H.
  rewrite (Qmult_comm (e / d)), Qmult_div_r in H; [exact H | lra].
Qed.

Lemma fresh_reveals ts st :
  ticks d ts -> Fresh p st ->
  (textIndexRef st < String.length (textToType p))%nat ->
  exists n, Fresh p (frames p ts n st) /\
            (textIndexRef st < textIndexRef (frames p ts n st))%nat.
Proof.
  intros Hts Hf Hlt. pose proof (fresh_ticking p st Hf Hlt) as Htick.
  destruct Hf as (_ & _ & _ & Hl & Ha).
  destruct (frame_cases p (ts O) st Htick _ eq_refl) as [[Hlow E]|(_ & Hf & Hi)];
    [|exists 1%nat; simpl; now split].
  rewrite Hl, Ha in E, Hlow. change (Qeq_bool 0 0) with true in E, Hlow. cbv iota in E, Hlow.
  destruct (Hts O) as [Hp0 Hs0].
  destruct (enough_frames (effectiveDelay p)) as [k Hk].
  destruct (ticking_reveals k (fun i => ts (S i)) (frame p (ts O) st)) as (n & Hf & Hi).
  - apply (ticks_shift d ts 1 Hts).
  - rewrite E. destruct Htick as (H1 & H2 & H3 & H4). repeat split; auto.
  - rewrite E. simpl. exact Hp0.
  - rewrite E. simpl. exact Hs0.
  - rewrite E. simpl. lra.
  - exists (S n). simpl. split; [exact Hf|]. rewrite E in Hi |- *. exact Hi.
Qed.

Lemma fresh_completes (m : nat) :
  forall ts st,
    ticks d ts -> Fresh p st ->
    (String.length (textToType p) - textIndexRef st <= m)%nat ->
    exists n, displayedText (frames p ts n st) = textToType p.
Proof.
  induction m as [|m IH]; intros ts st Hts Hf Hm;
    destruct (Nat.lt_ge_cases (textIndexRef st) (String.length (textToType p))) as [Hlt|Hge];
    try lia;
    try (exists 0%nat; simpl; destruct Hf as (H1 & H2 & _);
         apply prefix_same_length; [exact H1|];
         apply prefix_length in H1; lia).
  destruct (fresh_reveals ts st Hts Hf Hlt) as (n1 & Hf1 & Hi1).
  destruct (IH (fun i => ts (n1 + i)%nat) (frames p ts n1 st)) as (n2 & Hdone).
  - now apply ticks_shift.
  - exact Hf1.
  - lia.
  - exists (n1 + n2)%nat. now rewrite frames_add.
Qed.

End Completion.

End TypewriterFacts.

(** C1.  Whatever the history of renders and animation frames of a
    mounted Typewriter, the text it shows is a prefix of the target text
    of its latest render; and once a render has fixed the target and the
    delay, frames whose times are positive and at least [d > 0] apart
    bring it to show the whole target. *)
Theorem typewriter_prefix_and_completion :
  (forall (p0 : Typewriter.Props) (es : list Typewriter.Event),
      let c := Typewriter.run (p0, Typewriter.mount p0) es in
      startsWith (Typewriter.textToType (fst c)) (Typewriter.displayedText (snd c)) = true /\
      (String.length (Typewriter.displayedText (snd c))
       <= String.length (Typewriter.textToType (fst c)))%nat) /\
  (forall (p : Typewriter.Props) (st : Typewriter.State) (d : Q) (ts : nat -> Q),
      (0 < d)%Q -> Typewriter.ticks d ts ->
      exists n,
        Typewriter.displayedText (Typewriter.frames p ts n (Typewriter.commit p st))
        = Typewriter.textToType p).
Proof.
  split.
  - intros p0 es c.
    assert (H : startsWith (Typewriter.textToType (fst c))
                  (Typewriter.displayedText (snd c)) = true).
    { apply TypewriterFacts.run_prefix. simpl. apply TypewriterFacts.commit_fresh. }
    split; [exact H | now apply prefix_length].
  - intros p st d ts Hd Hts.
    apply (TypewriterFacts.fresh_completes p d Hd
             (String.length (Typewriter.textToType p)) ts);
      [exact Hts | apply TypewriterFacts.commit_fresh | lia].
Qed.

(** ** The chunk consumer *)

Module StreamFacts.
Import Stream.

Lemma hasUri_In u l : hasUri u l = true <-> In u (map uri l).
Proof.
  unfold hasUri. rewrite existsb_exists, in_map_iff. split.
  - intros (s & Hs & E). apply String.eqb_eq in E. now exists s.
  - intros (s & E & Hs). exists s. split; [exact Hs | now apply String.eqb_eq].
Qed.

Lemma pushUnlessPresent_present t r l :
  In (refUri r) (map uri l) -> pushUnlessPresent t r l = l.
Proof. intros H. unfold pushUnlessPresent. apply hasUri_In in H. now rewrite H. Qed.

Lemma pushUnlessPresent_extends t r l : exists added, pushUnlessPresent t r l = (l ++ added)%list.
Proof.
  unfold pushUnlessPresent. destruct (hasUri (refUri r) l).
  - exists []. now rewrite app_nil_r.
  - eexists. reflexivity.
Qed.

Lemma pushUnlessPresent_NoDup t r l :
  NoDup (map uri l) -> NoDup (map uri (pushUnlessPresent t r l)).
Proof.
  intros H. unfold pushUnlessPresent. destruct (hasUri (refUri r) l) eqn:E; [exact H|].
  rewrite map_app. simpl. apply NoDup_app. split; [exact H|]. split.
  - intros u Hu Hin. apply list_elem_of_In in Hu.
    apply list_elem_of_In in Hin. destruct Hin as [<-|[]].
    apply hasUri_In in Hu. congruence.
  - apply NoDup_singleton.
Qed.

Lemma addGroundingChunk_NoDup l g :
  NoDup (map uri l) -> NoDup (map uri (addGroundingChunk l g)).
Proof.
  intros H. unfold addGroundingChunk.
  destruct (gWeb g); [now apply pushUnlessPresent_NoDup|].
  destruct (gRetrievedContext g); [now apply pushUnlessPresent_NoDup | exact H].
Qed.

Lemma addGroundingChunk_extends l g : exists added, addGroundingChunk l g = (l ++ added)%list.
Proof.
  unfold addGroundingChunk.
  destruct (gWeb g); [apply pushUnlessPresent_extends|].
  destruct (gRetrievedContext g); [apply pushUnlessPresent_extends|].
  exists []. now rewrite app_nil_r.
Qed.

Lemma addGroundingChunks_NoDup gs l :
  NoDup (map uri l) -> NoDup (map uri (addGroundingChunks gs l)).
Proof.
  destruct gs as [gs|]; [|trivial]. simpl. revert l.
  induction gs as [|g gs IH]; intros l H; [exact H|].
  simpl. apply IH. now apply addGroundingChunk_NoDup.
Qed.

Lemma addGroundingChunks_extends gs l : exists added, addGroundingChunks gs l = (l ++ added)%list.
Proof.
  destruct gs as [gs|]; [|exists []; now rewrite app_nil_r]. simpl. revert l.
  induction gs as [|g gs IH]; intros l; [exists []; now rewrite app_nil_r|].
  simpl. destruct (addGroundingChunk_extends l g) as [a1 ->].
  destruct (IH (l ++ a1)%list) as [a2 ->]. exists (a1 ++ a2)%list. now rewrite app_assoc.
Qed.

Lemma found_consumeChunk st c :
  found (consumeChunk st c) = addGroundingChunks (groundingChunks c) (found st).
Proof. unfold consumeChunk. now destruct (flushed c), (truthy (textOf c)). Qed.

Lemma consume_NoDup cs : forall st,
  NoDup (map uri (found st)) -> NoDup (map uri (found (consume st cs))).
Proof.
  induction cs as [|c cs IH]; intros st H; [exact H|].
  unfold consume in *. simpl. apply IH.
  rewrite found_consumeChunk. now apply addGroundingChunks_NoDup.
Qed.

End StreamFacts.

(** C6.  Within one streamed response the accumulated sources never hold
    two entries with the same uri; a grounding chunk whose uri is already
    listed leaves the list as it is; and every step of the loop keeps the
    entries it found before, in place and unchanged. *)
Theorem sources_deduplicated :
  (forall (start : Q) (msgs : list Message) (cs : list Stream.Chunk),
      NoDup (map uri (Stream.found (Stream.consume (Stream.enter start msgs) cs)))) /\
  (forall (l : list Source) (g : Stream.GroundingChunk) t r,
      Stream.filedAs g = Some (t, r) ->
      In (Stream.refUri r) (map uri l) ->
      Stream.addGroundingChunk l g = l) /\
  (forall (st : Stream.State) (c : Stream.Chunk),
      exists added, Stream.found (Stream.consumeChunk st c) = (Stream.found st ++ added)%list).
Proof.
  split; [|split].
  - intros start msgs cs. apply StreamFacts.consume_NoDup. simpl. apply NoDup_nil_2.
  - intros l g t r F Hin. unfold Stream.filedAs in F. unfold Stream.addGroundingChunk.
    destruct (Stream.gWeb g) as [w|].
    + injection F as <- <-. now apply StreamFacts.pushUnlessPresent_present.
    + destruct (Stream.gRetrievedContext g) as [r'|]; [|discriminate].
      injection F as <- <-. now apply StreamFacts.pushUnlessPresent_present.
  - intros st c. rewrite StreamFacts.found_consumeChunk.
    apply StreamFacts.addGroundingChunks_extends.
Qed.

Module SmoothingFacts.
Import Stream.

Lemma smooth_slow (dt : Q) (n : nat) (prev : Q) :
  (1 < dt)%Q -> (0 < n)%nat ->
  (smooth dt n prev
   == (4 # 10) * (dt / inject_Z (Z.of_nat n)) + (6 # 10) * prev)%Q.
Proof.
  intros Hdt Hn. unfold smooth.
  destruct (Qlt_le_dec 1 dt) as [_|H]; [|lra].
  apply Nat.ltb_lt in Hn as Hb. rewrite Hb. unfold smoothingFactor.
  assert (Hq : (0 < inject_Z (Z.of_nat n))%Q).
  { change 0%Q with (inject_Z 0). rewrite <- Zlt_Qlt. lia. }
  field. split; lra.
Qed.

Lemma smooth_fast (dt : Q) (n : nat) (prev : Q) :
  (dt <= 1)%Q -> smooth dt n prev = prev.
Proof.
  intros Hdt. unfold smooth. destruct (Qlt_le_dec 1 dt) as [H|_]; [lra | reflexivity].
Qed.

Lemma truthy_length s : truthy s = true <-> (0 < String.length s)%nat.
Proof. destruct s; simpl; split; intros; try discriminate; try lia; reflexivity. Qed.

Lemma updateLast_dot t srcs delay before m :
  role m = dot ->
  updateLast t srcs delay (before ++ [m])%list = (before ++ [updated t srcs delay m])%list.
Proof.
  intros R. unfold updateLast. rewrite rev_app_distr. simpl.
  rewrite R, rev_involutive. reflexivity.
Qed.

Lemma updateLast_other t srcs delay before m :
  role m <> dot -> updateLast t srcs delay (before ++ [m])%list = (before ++ [m])%list.
Proof.
  intros R. unfold updateLast. rewrite rev_app_distr. simpl.
  destruct (role m); [reflexivity | contradiction | reflexivity].
Qed.

(** Any number of runs of the updater, after the first, change
    nothing: they all read the same variables. *)
Lemma updateLast_iter n t srcs delay before m :
  role m = dot ->
  Nat.iter n (updateLast t srcs delay) (before ++ [m])%list
  = (before ++ [match n with
                | O => m
                | S _ => updated t srcs delay m
                end])%list.
Proof.
  intros R. induction n as [|n IH]; [reflexivity|].
  simpl. rewrite IH. destruct n; now rewrite updateLast_dot.
Qed.

(** The updaters keep the messages before the last one, and the role
    of the last one. *)
Lemma updateLast_iter_inv n t srcs delay msgs before m :
  Nat.iter n (updateLast t srcs delay) msgs = (before ++ [m])%list -> role m = dot ->
  exists m0, msgs = (before ++ [m0])%list /\ role m0 = dot.
Proof.
  intros E R. induction msgs as [|m0 b0 _] using rev_ind.
  - exfalso. assert (H : Nat.iter n (updateLast t srcs delay) [] = []).
    { clear. induction n as [|n IH]; [reflexivity|]. simpl. now rewrite IH. }
    rewrite H in E. now destruct before.
  - destruct (role m0) eqn:R0.
    + exfalso. assert (H : Nat.iter n (updateLast t srcs delay) (b0 ++ [m0])%list
                           = (b0 ++ [m0])%list).
      { clear - R0. induction n as [|n IH]; [reflexivity|]. simpl. rewrite IH.
        apply updateLast_other. congruence. }
      rewrite H in E. apply app_inj_tail in E as [_ ->]. congruence.
    + rewrite updateLast_iter in E by exact R0.
      apply app_inj_tail in E as [-> _]. now exists m0.
    + exfalso. assert (H : Nat.iter n (updateLast t srcs delay) (b0 ++ [m0])%list
                           = (b0 ++ [m0])%list).
      { clear - R0. induction n as [|n IH]; [reflexivity|]. simpl. rewrite IH.
        apply updateLast_other. congruence. }
      rewrite H in E. apply app_inj_tail in E as [_ ->]. congruence.
Qed.

(** What React shows once the queue has run, when the streaming
    message is the last one. *)
Lemma messages_dot st before m0 :
  rendered st = (before ++ [m0])%list -> role m0 = dot ->
  messages st
  = (before ++ [match queued st with
                | O => m0
                | S _ => updated (totalText st) (found st) (smoothedCharDelay st) m0
                end])%list.
Proof. intros E R. unfold messages. rewrite E. now apply updateLast_iter. Qed.

Lemma messages_inv st before m :
  messages st = (before ++ [m])%list -> role m = dot ->
  exists m0, rendered st = (before ++ [m0])%list /\ role m0 = dot.
Proof. apply updateLast_iter_inv. Qed.

(** The state the loop body works on keeps the loop variables, and
    shows the same messages once its queue has run. *)
Lemma awaited_variables st c :
  let st1 := if flushed c then runQueue st else st in
  totalText st1 = totalText st /\ found st1 = found st /\
  lastChunkTime st1 = lastChunkTime st /\
  smoothedCharDelay st1 = smoothedCharDelay st /\
  usageMetadataRef st1 = usageMetadataRef st /\
  messages st1 = messages st.
Proof. destruct (flushed c); simpl; repeat split. Qed.

Lemma renderedDelay_floor (m : Message) : (1 # 10 <= renderedDelay m)%Q.
Proof. unfold renderedDelay, Typewriter.effectiveDelay. apply Q.le_max_l. Qed.

End SmoothingFacts.

(** C2, as the claim states it, fails: a chunk of five characters that
    arrives one millisecond after the previous one leaves the delay at 20
    instead of moving it to 0.4 * (1 / 5) + 0.6 * 20. *)
Lemma smoothing_every_chunk_counterexample :
  let st := Stream.enter 0 [Stream.streamingDot] in
  let c := Stream.quickChunk in
  Stream.textOf c = "hello" /\
  (Stream.smoothedCharDelay (Stream.consumeChunk st c) == 20)%Q /\
  ~ (Stream.smoothedCharDelay (Stream.consumeChunk st c)
     == (4 # 10) * ((Stream.arrival c - Stream.lastChunkTime st) / 5)
        + (6 # 10) * Stream.smoothedCharDelay st)%Q.
Proof.
  cbv zeta. split; [reflexivity|]. split; [reflexivity|].
  vm_compute. discriminate.
Qed.

(** C2, amended.  A chunk that carries text and arrives more than one
    millisecond after the previous chunk that carried text (or after the
    loop was entered) moves the delay to 0.4 * (elapsed / characters) +
    0.6 * previous delay; a chunk that carries text and arrives within
    one millisecond, and a chunk without text, leave the delay as it was,
    and a chunk without text leaves the reference time as it was too.  A
    chunk that carries text stores max(0.1, delay) in the streaming
    message, and the renderer never divides by less than 0.1. *)
Theorem smoothing_step (st : Stream.State) (c : Stream.Chunk) :
  let st' := Stream.consumeChunk st c in
  let elapsed := (Stream.arrival c - Stream.lastChunkTime st)%Q in
  let chars := String.length (Stream.textOf c) in
  ((0 < chars)%nat -> (1 < elapsed)%Q ->
   (Stream.smoothedCharDelay st'
    == (4 # 10) * (elapsed / inject_Z (Z.of_nat chars))
       + (6 # 10) * Stream.smoothedCharDelay st)%Q) /\
  ((0 < chars)%nat -> (elapsed <= 1)%Q ->
   Stream.smoothedCharDelay st' = Stream.smoothedCharDelay st) /\
  (chars = 0%nat ->
   Stream.smoothedCharDelay st' = Stream.smoothedCharDelay st /\
   Stream.lastChunkTime st' = Stream.lastChunkTime st) /\
  ((0 < chars)%nat ->
   Stream.lastChunkTime st' = Stream.arrival c /\
   forall before m,
     Stream.messages st = (before ++ [m])%list -> role m = dot ->
     exists m',
       Stream.messages st' = (before ++ [m'])%list /\
       charDelay m' = Some (Qmax (1 # 10) (Stream.smoothedCharDelay st'))) /\
  (forall m : Message, (1 # 10 <= Stream.renderedDelay m)%Q).
Proof.
  cbv zeta. unfold Stream.consumeChunk.
  destruct (SmoothingFacts.awaited_variables st c) as (_ & _ & HL & HD & _ & HM).
  cbv zeta in HL, HD, HM.
  set (st1 := if Stream.flushed c then Stream.runQueue st else st) in *.
  destruct (truthy (Stream.textOf c)) eqn:T.
  - apply SmoothingFacts.truthy_length in T as L. simpl. rewrite HL, HD.
    split; [|split; [|split; [|split]]].
    + intros _ H. now apply SmoothingFacts.smooth_slow.
    + intros _ H. now apply SmoothingFacts.smooth_fast.
    + intros H. lia.
    + intros _. split; [reflexivity|]. intros before m E R. rewrite <- HM in E.
      destruct (SmoothingFacts.messages_inv st1 before m E R) as (m0 & E0 & R0).
      rewrite (SmoothingFacts.messages_dot _ before m0) by (simpl; assumption).
      simpl. eexists. split; reflexivity.
    + apply SmoothingFacts.renderedDelay_floor.
  - assert (L : String.length (Stream.textOf c) = 0%nat).
    { destruct (Stream.textOf c); [reflexivity | discriminate]. }
    simpl. rewrite L, HL, HD.
    split; [|split; [|split; [|split]]]; try (intros; lia).
    + intros _. split; reflexivity.
    + apply SmoothingFacts.renderedDelay_floor.
Qed.

Lemma smoothing_step_witness :
  let st := Stream.enter 0 [Stream.streamingDot] in
  let c := Stream.slowChunk in
  (Stream.smoothedCharDelay (Stream.consumeChunk st c)
   == (4 # 10) * ((50 - 0) / inject_Z (Z.of_nat 5)) + (6 # 10) * 20)%Q.
Proof.
  cbv zeta.
  apply (proj1 (smoothing_step (Stream.enter 0 [Stream.streamingDot])
                  Stream.slowChunk)).
  - vm_compute. lia.
  - vm_compute. reflexivity.
Defined.

(** ** The upload pipeline *)

Module UploadFacts.
Import Upload.
Local Open Scope list_scope.

(** *** Computations and the relations they preserve *)

Section Preserving.

Context (R : Loop -> Loop -> Prop).
Hypothesis R_refl : forall st, R st st.
Hypothesis R_trans : forall a b c, R a b -> R b c -> R a c.

Lemma preserves_ret {A} (a : A) : preserves R (ret a).
Proof. intros st. apply R_refl. Qed.

Lemma preserves_throw {A} e : preserves R (@throw A e).
Proof. intros st. apply R_refl. Qed.

Lemma preserves_stillPolling {A} : preserves R (@stillPolling A).
Proof. intros st. apply R_refl. Qed.

Lemma preserves_read {A} (g : Loop -> A) : preserves R (read g).
Proof. intros st. apply R_refl. Qed.

Lemma preserves_lift {A} (answer : Outcome A) : preserves R (lift answer).
Proof. destruct answer; [apply preserves_ret | apply preserves_throw]. Qed.

Lemma preserves_modify (g : Loop -> Loop) : (forall st, R st (g st)) -> preserves R (modify g).
Proof. intros H st. apply H. Qed.

Lemma preserves_bind {A B} (m : M A) (g : A -> M B) :
  preserves R m -> (forall a, preserves R (g a)) -> preserves R (bind m g).
Proof.
  intros Hm Hg st. unfold bind. pose proof (Hm st) as H1.
  destruct (m st) as [[[a|e]|] st1]; simpl in *; [|exact H1|exact H1].
  apply (R_trans _ _ _ H1). apply Hg.
Qed.

Lemma preserves_tryCatch {A} (m : M A) (h : Thrown -> M A) :
  preserves R m -> (forall e, preserves R (h e)) -> preserves R (tryCatch m h).
Proof.
  intros Hm Hh st. unfold tryCatch. pose proof (Hm st) as H1.
  destruct (m st) as [[[a|e]|] st1]; simpl in *; [exact H1| |exact H1].
  apply (R_trans _ _ _ H1). apply Hh.
Qed.

(** The steps of the iteration on the file [f] at position [k], the
    requests in [allowed] being those that [R] lets through. *)
Context (k : nat) (f : File) (allowed : Request -> Prop).
Hypothesis R_request :
  forall r st, allowed r -> R st (emit (Settled (Some k) r) (emit (Issued (Some k) r) st)).
Hypothesis R_sleep : forall st, R st (emit (Slept (Some k) 1000) st).
Hypothesis R_entry : forall v st, name v = fileName f -> R st (setEntry (fileName f) v st).
Hypothesis R_success : forall st, R st (countSuccess st).
Hypothesis R_failure : forall st, R st (countFailure st).
Hypothesis R_billing : forall st, R st (noteBillingError st).
Hypothesis R_ensure : forall r, preserves R (ensureStore k r).

Lemma preserves_await {A} r (answer : Outcome A) :
  allowed r -> preserves R (await (Some k) r answer).
Proof.
  intros Hr st. unfold await, bind, modify. simpl.
  destruct answer; simpl; now apply R_request.
Qed.

Lemma preserves_sleep : preserves R (sleep (Some k)).
Proof. apply preserves_modify, R_sleep. Qed.

Lemma preserves_poll fuel operation :
  allowed GetOperation ->
  forall round isDone, preserves R (poll fuel (Some k) operation round isDone).
Proof.
  intros Hg. induction fuel as [|fuel IH]; intros round [|]; simpl;
    try apply preserves_ret; try apply preserves_stillPolling.
  apply preserves_bind; [apply preserves_sleep|]. intros _.
  apply preserves_bind; [now apply preserves_await|]. intros next. apply IH.
Qed.

Lemma preserves_acceptImage u : preserves R (acceptImage f u).
Proof.
  apply preserves_bind; [|intros _; apply preserves_modify, R_success].
  apply preserves_modify. intros st. now apply R_entry.
Qed.

Lemma preserves_importDocument fuel r u :
  allowed GetOperation -> (forall s n, allowed (ImportFile s n)) ->
  preserves R (importDocument fuel k f r u).
Proof.
  intros Hg Hi. unfold importDocument.
  apply preserves_bind; [apply R_ensure|]. intros _.
  apply preserves_bind; [apply preserves_modify; intros st; now apply R_entry|]. intros _.
  apply preserves_bind; [apply preserves_read|]. intros current.
  apply preserves_bind; [now apply preserves_await|]. intros operation.
  apply preserves_bind; [now apply preserves_poll|]. intros _.
  apply preserves_bind; [apply preserves_modify; intros st; now apply R_entry|]. intros _.
  apply preserves_modify, R_success.
Qed.

Lemma preserves_afterUpload fuel r u :
  allowed GetOperation -> (forall s n, allowed (ImportFile s n)) ->
  preserves R (afterUpload fuel k f r u).
Proof.
  intros Hg Hi. unfold afterUpload.
  destruct (remoteMimeType u) as [mime|]; [|apply preserves_throw].
  destruct (startsWith mime "image/");
    [apply preserves_acceptImage | now apply preserves_importDocument].
Qed.

Lemma preserves_fileCatch e : preserves R (fileCatch f e).
Proof.
  unfold fileCatch.
  apply preserves_bind; [apply preserves_modify, R_failure|]. intros _.
  apply preserves_bind; [apply preserves_lift|]. intros errorMessage.
  apply preserves_bind; [apply preserves_lift|]. intros billing.
  apply preserves_bind;
    [destruct billing; [apply preserves_modify, R_billing | apply preserves_ret]|].
  intros _. apply preserves_modify. intros st. now apply R_entry.
Qed.

Lemma preserves_processFile fuel r :
  (forall d n, allowed (UploadFile d n)) ->
  allowed GetOperation -> (forall s n, allowed (ImportFile s n)) ->
  preserves R (processFile fuel k f r).
Proof.
  intros Hu Hg Hi. unfold processFile, fileBody.
  apply preserves_tryCatch; [|apply preserves_fileCatch].
  apply preserves_bind; [now apply preserves_await|]. intros u.
  now apply preserves_afterUpload.
Qed.

(** [R] lets the defensive store creation through. *)
Lemma preserves_ensureStore r :
  allowed CreateStore -> (forall s st, R st (adoptStore s st)) ->
  preserves R (ensureStore k r).
Proof.
  intros Hc Ha. unfold ensureStore.
  apply preserves_bind; [apply preserves_read|]. intros current.
  destruct (hasName current); [apply preserves_ret|].
  apply preserves_bind; [now apply preserves_await|]. intros s.
  apply preserves_modify, Ha.
Qed.

End Preserving.

(** What every iteration preserves, the loop preserves. *)
Lemma preserves_processFiles (R : Loop -> Loop -> Prop) fuel :
  (forall st, R st st) -> (forall a b c, R a b -> R b c -> R a c) ->
  forall fs,
    (forall k f r, In (f, r) fs -> preserves R (processFile fuel k f r)) ->
    forall k, preserves R (processFiles fuel k fs).
Proof.
  intros Hrefl Htrans. induction fs as [|[f r] fs IH]; intros H k; simpl.
  - now apply preserves_ret.
  - apply preserves_bind; [exact Htrans | apply H; now left |].
    intros _. apply IH. intros k' f' r' Hin. apply H. now right.
Qed.

(** *** The trace *)

Lemma quiescent_app (a b : list Event) : quiescent a -> quiescent b -> quiescent (a ++ b).
Proof.
  revert a. fix IH 1. intros [|e a] Ha Hb; [exact Hb|].
  destruct e as [k r|k r|k ms]; simpl in *.
  - destruct a as [|[k' r'|k' r'|k' ms'] a]; try contradiction.
    destruct Ha as (-> & -> & Ha). simpl. repeat split. now apply IH.
  - contradiction.
  - now apply IH.
Qed.

Lemma tailOf_nil k : tailOf k [].
Proof. repeat split; constructor. Qed.

Lemma tailOf_app k a b : tailOf k a -> tailOf k b -> tailOf k (a ++ b).
Proof.
  intros (A1 & A2 & A3) (B1 & B2 & B3).
  repeat split; try apply Forall_app; auto using quiescent_app.
Qed.

Lemma appendsTail_refl k st : appendsTail k st st.
Proof. exists []. split; [now rewrite app_nil_r | apply tailOf_nil]. Qed.

Lemma appendsTail_trans k a b c : appendsTail k a b -> appendsTail k b c -> appendsTail k a c.
Proof.
  intros (s1 & E1 & T1) (s2 & E2 & T2). exists (s1 ++ s2).
  rewrite E2, E1, app_assoc. split; [reflexivity | now apply tailOf_app].
Qed.

Lemma appendsTail_same k st st' : trace st' = trace st -> appendsTail k st st'.
Proof. intros E. exists []. rewrite E. split; [now rewrite app_nil_r | apply tailOf_nil]. Qed.

Lemma appendsTail_request k r st :
  (forall d n, r <> UploadFile d n) ->
  appendsTail k st (emit (Settled (Some k) r) (emit (Issued (Some k) r) st)).
Proof.
  intros Hr. exists [Issued (Some k) r; Settled (Some k) r]. split.
  - simpl. now rewrite <- app_assoc.
  - repeat split; repeat constructor; simpl; auto.
    destruct r; auto. intros _. now apply (Hr displayName resourceName).
Qed.

Lemma appendsTail_sleep k st : appendsTail k st (emit (Slept (Some k) 1000) st).
Proof.
  exists [Slept (Some k) 1000]. split; [reflexivity|].
  repeat split; repeat constructor; simpl; auto.
Qed.

Lemma appendsTail_ensureStore k r : preserves (appendsTail k) (ensureStore k r).
Proof.
  apply preserves_ensureStore with (allowed := fun q => forall d n, q <> UploadFile d n);
    try solve [ eauto using appendsTail_refl, appendsTail_trans, appendsTail_request
              | intros; discriminate
              | intros; now apply appendsTail_same ].
Qed.

Lemma appendsTail_afterUpload fuel k f r u :
  preserves (appendsTail k) (afterUpload fuel k f r u).
Proof.
  apply preserves_afterUpload with (allowed := fun q => forall d n, q <> UploadFile d n);
    try solve [ eauto using appendsTail_refl, appendsTail_trans, appendsTail_request,
                  appendsTail_sleep, appendsTail_ensureStore
              | intros; discriminate
              | intros; now apply appendsTail_same ].
Qed.

Lemma appendsTail_fileCatch k f e : preserves (appendsTail k) (fileCatch f e).
Proof.
  apply preserves_fileCatch;
    try solve [ eauto using appendsTail_refl, appendsTail_trans
              | intros; now apply appendsTail_same ].
Qed.

(** One iteration appends its upload request, the settling of it,
    and a tail, however it ends. *)
Lemma processFile_trace fuel k f r st :
  exists seg,
    trace (snd (processFile fuel k f r st))
    = trace st
      ++ Issued (Some k) (UploadFile (fileName f)
                            (uniqueResourceName (fileName f) (now r) (random r)))
      :: Settled (Some k) (UploadFile (fileName f)
                             (uniqueResourceName (fileName f) (now r) (random r)))
      :: seg
    /\ tailOf k seg.
Proof.
  unfold processFile, tryCatch, fileBody.
  set (rq := UploadFile _ _).
  unfold bind at 1. unfold await, bind, modify. simpl.
  set (st2 := emit (Settled (Some k) rq) (emit (Issued (Some k) rq) st)).
  assert (E2 : trace st2 = trace st ++ [Issued (Some k) rq; Settled (Some k) rq]).
  { simpl. now rewrite <- app_assoc. }
  assert (H : forall st3, appendsTail k st2 st3 ->
                exists seg, trace st3
                            = trace st ++ Issued (Some k) rq :: Settled (Some k) rq :: seg
                            /\ tailOf k seg).
  { intros st3 (seg & E & T). exists seg. split; [|exact T].
    rewrite E, E2, <- app_assoc. reflexivity. }
  destruct (upload r) as [u|e]; simpl.
  - pose proof (appendsTail_afterUpload fuel k f r u st2) as H1.
    destruct (afterUpload fuel k f r u st2) as [[[a|e]|] st3]; simpl in *; try now apply H.
    apply H. apply (appendsTail_trans k _ _ _ H1). apply appendsTail_fileCatch.
  - apply H. apply appendsTail_fileCatch.
Qed.

Lemma before_mono k n e : (k <= n)%nat -> before k e -> before n e.
Proof. unfold before. destruct (owner e); [lia | trivial]. Qed.

Lemma owned_notBefore k n e : (k <= n)%nat -> owner e = Some n -> notBefore k e.
Proof. unfold notBefore. now intros H ->. Qed.

Lemma sequential_mono k n tr : (k <= n)%nat -> sequential k tr -> sequential n tr.
Proof.
  intros H (Q & B & C). split; [exact Q|]. split; [|exact C].
  eapply Forall_impl; [exact B|]. intros e. now apply before_mono.
Qed.

Lemma sequential_step n tr d rn seg :
  sequential n tr -> tailOf n seg ->
  sequential (S n)
    (tr ++ Issued (Some n) (UploadFile d rn) :: Settled (Some n) (UploadFile d rn) :: seg).
Proof.
  intros (Q & B & C) (T1 & T2 & T3).
  assert (Hnew : Forall (fun e => owner e = Some n)
                   (Issued (Some n) (UploadFile d rn)
                      :: Settled (Some n) (UploadFile d rn) :: seg))
    by (repeat constructor; exact T1).
  split; [|split].
  - apply quiescent_app; [exact Q|]. simpl. auto.
  - apply Forall_app. split.
    + eapply Forall_impl; [exact B|]. intros e. apply before_mono. lia.
    + eapply Forall_impl; [exact Hnew|]. intros e He. unfold before. rewrite He. lia.
  - intros pre k d' rn' post E.
    apply app_eq_app in E as [l [[E1 E2]|[E1 E2]]].
    + destruct l as [|x l].
      * rewrite app_nil_r in E1. subst pre. simpl in E2. injection E2 as -> -> -> ->.
        split; [exact Q|]. split; [exact B|].
        constructor; [unfold notBefore; simpl; lia|].
        eapply Forall_impl; [exact T1|]. intros e. now apply owned_notBefore.
      * simpl in E2. injection E2 as <- ->.
        destruct (C _ _ _ _ _ E1) as (Q1 & B1 & N1).
        split; [exact Q1|]. split; [exact B1|].
        assert (Hk : (k < n)%nat).
        { rewrite E1 in B. apply Forall_app in B as [_ B].
          apply Forall_cons in B as [B _]. exact B. }
        apply Forall_app. split; [exact N1|].
        eapply Forall_impl; [exact Hnew|]. intros e. apply owned_notBefore. lia.
    + destruct l as [|x [|y l]]; simpl in E2.
      * rewrite app_nil_r in E1. subst pre. injection E2 as <- <- <- <-.
        split; [exact Q|]. split; [exact B|].
        constructor; [unfold notBefore; simpl; lia|].
        eapply Forall_impl; [exact T1|]. intros e. now apply owned_notBefore.
      * injection E2 as _ E2 _. discriminate E2.
      * injection E2 as _ _ E2. exfalso. rewrite E2 in T2.
        apply Forall_app in T2 as [_ T2]. apply Forall_cons in T2 as [T2 _].
        now apply T2.
Qed.

Lemma processFile_sequential fuel k f r st :
  sequential k (trace st) -> sequential (S k) (trace (snd (processFile fuel k f r st))).
Proof.
  intros H. destruct (processFile_trace fuel k f r st) as (seg & -> & T).
  now apply sequential_step.
Qed.

(** The loop keeps the trace sequential, whether it runs to its end,
    is ended by a throw, or is still polling. *)
Lemma processFiles_sequential fuel fs : forall k st,
  sequential k (trace st) ->
  sequential (k + length fs) (trace (snd (processFiles fuel k fs st))).
Proof.
  induction fs as [|[f r] fs IH]; intros k st H; simpl.
  - now rewrite Nat.add_0_r.
  - rewrite <- plus_n_Sm. unfold bind.
    pose proof (processFile_sequential fuel k f r st H) as H1.
    destruct (processFile fuel k f r st) as [[[[]|e]|] st1]; simpl in *.
    + now apply (IH (S k)).
    + eapply sequential_mono; [|exact H1]. lia.
    + eapply sequential_mono; [|exact H1]. lia.
Qed.

Lemma sequential_start (b : Batch) (app : App) : sequential 0 (snd (fst (start b app))).
Proof.
  assert (Hnil : sequential 0 []).
  { repeat split; try constructor. all: destruct pre; discriminate. }
  unfold start. destruct (appFileSearchStore app); [exact Hnil|].
  destruct (filter isDocument (map fst (files b))); [exact Hnil|].
  simpl. repeat split; auto; try (repeat constructor; fail).
  all: destruct pre as [|? [|? [|? pre]]]; discriminate.
Qed.

(** The trace of an invocation is sequential. *)
Lemma handled_sequential fuel b app :
  sequential (length (files b)) (snd (handleFileSelect fuel b app)).
Proof.
  unfold handleFileSelect.
  pose proof (sequential_start b app) as S0.
  destruct (files b) as [|x fs] eqn:F.
  - repeat split; try constructor. all: destruct pre; discriminate.
  - rewrite <- F. destruct (start b app) as [[msgs tr] [store|e]]; simpl in S0.
    + unfold loop.
      pose proof (processFiles_sequential fuel (files b) 0
                    (enterLoop store store
                       (markUploading (map fst (files b)) (appUploadedFiles app)) tr) S0) as S1.
      simpl in S1. destruct (processFiles _ _ _ _) as [[[[]|e]|] st]; exact S1.
    + simpl. eapply sequential_mono; [|exact S0]. lia.
Qed.

(** *** The counters *)

Lemma sameCounters_refl st : sameCounters st st.
Proof. now repeat split. Qed.

Lemma sameCounters_trans a b c : sameCounters a b -> sameCounters b c -> sameCounters a c.
Proof. intros (A1 & A2 & A3) (B1 & B2 & B3). repeat split; congruence. Qed.

Lemma sameCounters_await {A} k r (answer : Outcome A) :
  preserves sameCounters (await (Some k) r answer).
Proof.
  apply preserves_await with (allowed := fun _ => True); [|exact I].
  intros q st _. now repeat split.
Qed.

Lemma sameCounters_poll fuel k operation round isDone :
  preserves sameCounters (poll fuel (Some k) operation round isDone).
Proof.
  apply preserves_poll with (allowed := fun _ => True);
    try solve [ eauto using sameCounters_refl, sameCounters_trans
              | intros; now repeat split ].
Qed.

Lemma sameCounters_ensureStore k r : preserves sameCounters (ensureStore k r).
Proof.
  apply preserves_ensureStore with (allowed := fun _ => True);
    try solve [ eauto using sameCounters_refl, sameCounters_trans
              | intros; now repeat split ].
Qed.

Lemma sameCounters_setEntry key v : preserves sameCounters (modify (setEntry key v)).
Proof. intros st. now repeat split. Qed.

Lemma countsOnReturn_countSuccess : countsOnReturn (modify countSuccess).
Proof. now intros st. Qed.

Lemma countsOnReturn_throw {A} e : countsOnReturn (@throw A e).
Proof. now intros st. Qed.

Lemma countsOnReturn_bind {A B} (m : M A) (g : A -> M B) :
  preserves sameCounters m -> (forall a, countsOnReturn (g a)) -> countsOnReturn (bind m g).
Proof.
  intros Hm Hg st. unfold bind. destruct (Hm st) as (S1 & F1 & B1).
  destruct (m st) as [[[a|e]|] st1]; simpl in *; [|auto|auto].
  destruct (Hg a st1) as (F2 & B2 & S2). rewrite S2, F2, B2, S1, F1, B1. auto.
Qed.

Lemma countsOnReturn_fileBody fuel k f r : countsOnReturn (fileBody fuel k f r).
Proof.
  unfold fileBody, afterUpload. apply countsOnReturn_bind; [apply sameCounters_await|].
  intros u. destruct (remoteMimeType u) as [mime|]; [|apply countsOnReturn_throw].
  destruct (startsWith mime "image/"); unfold acceptImage, importDocument.
  - apply countsOnReturn_bind; [apply sameCounters_setEntry|]. intros _.
    apply countsOnReturn_countSuccess.
  - apply countsOnReturn_bind; [apply sameCounters_ensureStore|]. intros _.
    apply countsOnReturn_bind; [apply sameCounters_setEntry|]. intros _.
    apply countsOnReturn_bind; [now apply preserves_read, sameCounters_refl|].
    intros current.
    apply countsOnReturn_bind; [apply sameCounters_await|]. intros operation.
    apply countsOnReturn_bind; [apply sameCounters_poll|]. intros _.
    apply countsOnReturn_bind; [apply sameCounters_setEntry|]. intros _.
    apply countsOnReturn_countSuccess.
Qed.

(** The [catch] block of an iteration always counts the failure;
    when it gets through, it marks the file and notes a billing
    error. *)
Lemma fileCatch_counts f e st :
  successes (snd (fileCatch f e st)) = successes st /\
  failures (snd (fileCatch f e st)) = S (failures st).
Proof.
  unfold fileCatch, bind, modify, lift. simpl.
  destruct (errorMessage e) as [[m|]|t]; simpl; auto.
  destruct (includes m "Requested entity was not found"); simpl; auto.
Qed.

Lemma fileCatch_gets_through f e st message :
  errorMessage e = Returned (Some message) ->
  fst (fileCatch f e st) = Some (Returned tt) /\
  uploadedFiles (snd (fileCatch f e st)) !! fileName f = Some (entry (fileName f) failed) /\
  billingErrorFound (snd (fileCatch f e st))
  = includes message "Requested entity was not found" || billingErrorFound st.
Proof.
  intros E. unfold fileCatch, bind, modify, lift. simpl. rewrite E. simpl.
  destruct (includes message "Requested entity was not found"); simpl;
    now rewrite lookup_insert_eq.
Qed.

(** What an iteration leaves when its [try] block throws a value its
    [catch] block gets through on. *)
Lemma processFile_threw fuel k f r st e st1 message :
  fileBody fuel k f r st = (Some (Threw e), st1) ->
  errorMessage e = Returned (Some message) ->
  fst (processFile fuel k f r st) = Some (Returned tt) /\
  uploadedFiles (snd (processFile fuel k f r st)) !! fileName f
  = Some (entry (fileName f) failed) /\
  failures (snd (processFile fuel k f r st)) = S (failures st) /\
  successes (snd (processFile fuel k f r st)) = successes st /\
  billingErrorFound (snd (processFile fuel k f r st))
  = includes message "Requested entity was not found" || billingErrorFound st.
Proof.
  intros E Em. destruct (countsOnReturn_fileBody fuel k f r st) as (F & B & S1).
  unfold processFile, tryCatch. rewrite E in *. simpl in *.
  destruct (fileCatch_gets_through f e st1 message Em) as (G1 & G2 & G3).
  destruct (fileCatch_counts f e st1) as (C1 & C2).
  rewrite G1, G2, G3, C1, C2, F, B, S1. auto.
Qed.

(** An iteration that ends normally has counted its file once. *)
Lemma processFile_counts fuel k f r st :
  fst (processFile fuel k f r st) = Some (Returned tt) ->
  (successes (snd (processFile fuel k f r st)) + failures (snd (processFile fuel k f r st))
   = S (successes st + failures st))%nat.
Proof.
  destruct (countsOnReturn_fileBody fuel k f r st) as (F & B & S1).
  unfold processFile, tryCatch.
  destruct (fileBody fuel k f r st) as [[[[]|e]|] st1]; simpl in *.
  - intros _. lia.
  - intros _. destruct (fileCatch_counts f e st1) as (C1 & C2). lia.
  - discriminate.
Qed.

Lemma processFiles_counts fuel fs : forall k st,
  fst (processFiles fuel k fs st) = Some (Returned tt) ->
  (successes (snd (processFiles fuel k fs st)) + failures (snd (processFiles fuel k fs st))
   = successes st + failures st + length fs)%nat.
Proof.
  induction fs as [|[f r] fs IH]; intros k st; simpl; [intros _; lia|].
  unfold bind. pose proof (processFile_counts fuel k f r st) as H1.
  destruct (processFile fuel k f r st) as [[[[]|e]|] st1]; simpl in *; try discriminate.
  intros H. specialize (H1 eq_refl). pose proof (IH (S k) st1 H). lia.
Qed.

Lemma keepsFailures_refl st : keepsFailures st st.
Proof. now split. Qed.

Lemma keepsFailures_trans a b c : keepsFailures a b -> keepsFailures b c -> keepsFailures a c.
Proof. intros (A1 & A2) (B1 & B2). split; [lia | auto]. Qed.

Lemma keepsFailures_processFile fuel k f r : preserves keepsFailures (processFile fuel k f r).
Proof.
  apply preserves_processFile with (allowed := fun _ => True);
    try solve [ eauto using keepsFailures_refl, keepsFailures_trans
              | intros; split; simpl; auto
              | intros; exact I ].
  intros r0.
  apply preserves_ensureStore with (allowed := fun _ => True);
    try solve [ eauto using keepsFailures_refl, keepsFailures_trans
              | intros; split; simpl; auto ].
Qed.

Lemma keepsFailures_processFiles fuel fs k : preserves keepsFailures (processFiles fuel k fs).
Proof.
  apply preserves_processFiles;
    eauto using keepsFailures_refl, keepsFailures_trans, keepsFailures_processFile.
Qed.

(** The loop over two lists, one after the other. *)
Lemma processFiles_app fuel a b : forall k st,
  processFiles fuel k (a ++ b) st
  = bind (processFiles fuel k a) (fun _ => processFiles fuel (k + length a) b) st.
Proof.
  induction a as [|[f r] a IH]; intros k st; simpl.
  - unfold bind, ret. now rewrite Nat.add_0_r.
  - unfold bind.
    destruct (processFile fuel k f r st) as [[[[]|e]|] st1]; [|reflexivity|reflexivity].
    rewrite IH. unfold bind. now rewrite <- plus_n_Sm.
Qed.

Lemma reportFailures_one hasAistudio st msgs err selected :
  (0 < failures st)%nat ->
  exists t, fst (fst (reportFailures hasAistudio st msgs err selected))
            = msgs ++ [systemMessage t].
Proof.
  intros H. unfold reportFailures. apply Nat.ltb_lt in H. rewrite H.
  destruct (billingErrorFound st); [destruct hasAistudio|]; eexists; reflexivity.
Qed.

(** *** The batch-level handler *)

Lemma failStillUploading_only fs : forall m0 m,
  onlyUploadingFailed m0 m -> onlyUploadingFailed m0 (failStillUploading fs m).
Proof.
  induction fs as [|f fs IH]; intros m0 m H; [exact H|].
  unfold failStillUploading in *. simpl. apply IH. clear IH.
  destruct (m !! fileName f) as [e|] eqn:E; [|exact H].
  destruct (status e) eqn:S; try exact H.
  intros key. destruct (decide (key = fileName f)) as [->|Hne].
  - rewrite lookup_insert_eq. right.
    destruct (H (fileName f)) as [Heq|(e0 & H0 & Hs & Hm)].
    + exists e. rewrite <- Heq. auto.
    + rewrite Hm in E. injection E as <-. discriminate S.
  - rewrite lookup_insert_ne by auto. apply H.
Qed.

End UploadFacts.

(** C7.  In the trace of one invocation, at the moment the upload
    request for the file at position [k] goes out every request issued
    earlier has settled, everything that happened earlier belongs to the
    set-up or to files at positions below [k], and nothing that happens
    later does: the files are processed one at a time, in order.  This
    holds of the trace at whatever point the invocation is observed,
    also when its loop is ended by a throw or is still polling. *)
Theorem uploads_one_at_a_time (fuel : nat) (b : Upload.Batch) (app : Upload.App) :
  forall pre k d rn post,
    snd (Upload.handleFileSelect fuel b app)
    = (pre ++ Upload.Issued (Some k) (Upload.UploadFile d rn) :: post)%list ->
    Upload.quiescent pre /\
    Forall (Upload.before k) pre /\
    Forall (Upload.notBefore k) post.
Proof.
  intros pre k d rn post E.
  destruct (UploadFacts.handled_sequential fuel b app) as (_ & _ & H).
  exact (H _ _ _ _ _ E).
Qed.

Lemma uploads_one_at_a_time_witness :
  let tr := snd (Upload.handleFileSelect 5
                   (Upload.sampleBatch
                      [Upload.sampleDocument; Upload.sampleImage] true)
                   Upload.sampleApp) in
  Upload.quiescent (firstn 9 tr) /\
  Forall (Upload.before 1) (firstn 9 tr) /\
  Forall (Upload.notBefore 1) (skipn 10 tr).
Proof.
  intros tr.
  apply (uploads_one_at_a_time 5
           (Upload.sampleBatch [Upload.sampleDocument; Upload.sampleImage] true)
           Upload.sampleApp (firstn 9 tr) 1 "cat.png"
           (uniqueResourceName "cat.png" 1730599201456 (1 # 2)) (skipn 10 tr)).
  vm_compute. reflexivity.
Defined.

(** C8.  An iteration whose upload resolves to a file with a mimeType
    that starts with [image/] issues the upload request and nothing else
    (no store creation, no import, no polling), writes the [ready] entry
    with the remote uri, the mimeType and the image flag under the name of
    the file, and counts one success. *)
Theorem image_ready_without_import
    (fuel k : nat) (f : Upload.File) (r : Upload.Remote) (st : Upload.Loop)
    (u : Upload.RemoteFile) (mime : string) :
  Upload.upload r = Upload.Returned u ->
  Upload.remoteMimeType u = Some mime ->
  startsWith mime "image/" = true ->
  let st' := snd (Upload.processFile fuel k f r st) in
  let request :=
    Upload.UploadFile (Upload.fileName f)
      (uniqueResourceName (Upload.fileName f) (Upload.now r) (Upload.random r)) in
  let ready :=
    {| Upload.status := Upload.ready; Upload.name := Upload.fileName f;
       Upload.uri := Upload.remoteUri u; Upload.mimeType := Some mime;
       Upload.isImage := true |} in
  Upload.trace st'
  = (Upload.trace st ++ [Upload.Issued (Some k) request; Upload.Settled (Some k) request])%list /\
  Upload.uploadedFiles st' = <[Upload.fileName f := ready]> (Upload.uploadedFiles st) /\
  Upload.uploadedFiles st' !! Upload.fileName f = Some ready /\
  Upload.successes st' = S (Upload.successes st) /\
  Upload.failures st' = Upload.failures st /\
  Upload.currentStore st' = Upload.currentStore st.
Proof.
  intros Hu Hm Hi. cbv zeta.
  unfold Upload.processFile, Upload.tryCatch, Upload.fileBody, Upload.afterUpload,
    Upload.await, Upload.bind, Upload.modify.
  rewrite Hu. simpl. rewrite Hm, Hi. simpl.
  rewrite <- app_assoc, lookup_insert_eq. simpl. rewrite Hm. repeat split.
Qed.

Lemma image_ready_without_import_witness :
  Upload.trace
    (snd (Upload.processFile 0 0 (fst Upload.sampleImage) (snd Upload.sampleImage)
            (Upload.enterLoop None None ∅ [])))
  = [Upload.Issued (Some 0%nat)
       (Upload.UploadFile "cat.png" (uniqueResourceName "cat.png" 1730599201456 (1 # 2)));
     Upload.Settled (Some 0%nat)
       (Upload.UploadFile "cat.png" (uniqueResourceName "cat.png" 1730599201456 (1 # 2)))].
Proof.
  apply (image_ready_without_import 0 0 (fst Upload.sampleImage)
           (snd Upload.sampleImage) (Upload.enterLoop None None ∅ [])
           {| Upload.remoteName := "files/c1";
              Upload.remoteUri := Some "https://files.example/c1";
              Upload.remoteMimeType := Some "image/png" |} "image/png");
    reflexivity.
Defined.

(** C9, as the claim states it, fails.  A batch of a document and an
    image, the import of the document being rejected with [undefined]:
    [JSON.stringify] makes [undefined] of it, [includes] throws inside
    the [catch] block of the iteration, and the batch-level [catch] takes
    over.  The entry of the document stays [indexing] although the
    handler has returned, the image gets no upload request and is marked
    [failed], and what is reported is the [TypeError], not the
    failures. *)
Theorem unrendered_rejection_ends_the_batch :
  let b := Upload.sampleBatch [Upload.sampleUnrendered; Upload.sampleImage] true in
  let result := Upload.handleFileSelect 0 b Upload.sampleApp in
  map text (Upload.messages (fst result))
  = ["uploading 2 file(s)..."; "creating a new file collection...";
     "process failed: TypeError: Cannot read properties of undefined (reading 'includes')"] /\
  Upload.appUploadedFiles (fst result) !! "draft.pdf"
  = Some (Upload.entry "draft.pdf" Upload.indexing) /\
  Upload.appUploadedFiles (fst result) !! "cat.png"
  = Some (Upload.entry "cat.png" Upload.failed) /\
  UploadSpec.uploadsOf (snd result) = [(0%nat, "draft.pdf")] /\
  Upload.isUploading (fst result) = false /\
  Upload.isApiKeySelected (fst result) = true.
Proof. vm_compute. repeat split; reflexivity. Qed.

(** C10.  The updater of the batch-level [catch] leaves every entry
    whose status is not [uploading] exactly as it was, and an entry it
    changes was [uploading] and becomes [failed]; it is what the handler
    applies to the map when the store creation of the set-up throws. *)
Theorem batch_catch_touches_only_uploading :
  (forall (fs : list Upload.File) (m : gmap string Upload.UploadedFile) key e,
      m !! key = Some e -> Upload.status e <> Upload.uploading ->
      Upload.failStillUploading fs m !! key = Some e) /\
  (forall (fs : list Upload.File) (m : gmap string Upload.UploadedFile) key,
      Upload.failStillUploading fs m !! key <> m !! key ->
      exists e, m !! key = Some e /\ Upload.status e = Upload.uploading /\
                Upload.failStillUploading fs m !! key
                = Some (Upload.entry key Upload.failed)) /\
  (forall fuel b app msgs tr e,
      Upload.files b <> [] ->
      Upload.start b app = (msgs, tr, Upload.Threw e) ->
      Upload.appUploadedFiles (fst (Upload.handleFileSelect fuel b app))
      = Upload.failStillUploading (map fst (Upload.files b))
          (Upload.markUploading (map fst (Upload.files b)) (Upload.appUploadedFiles app))).
Proof.
  assert (H : forall fs m, Upload.onlyUploadingFailed m (Upload.failStillUploading fs m)).
  { intros fs m. apply UploadFacts.failStillUploading_only. intros key. now left. }
  split; [|split].
  - intros fs m key e Hm Hs. destruct (H fs m key) as [->|(e0 & H0 & Hs0 & _)]; [exact Hm|].
    rewrite Hm in H0. injection H0 as <-. contradiction.
  - intros fs m key Hne. destruct (H fs m key) as [Heq|(e0 & H0 & Hs0 & Hf)];
      [contradiction | eauto].
  - intros fuel b app msgs tr e Hfs Hstart. unfold Upload.handleFileSelect.
    destruct (Upload.files b) as [|x fs]; [contradiction|]. now rewrite Hstart.
Qed.

Lemma batch_catch_touches_only_uploading_witness :
  let m : gmap string Upload.UploadedFile :=
    <["a.pdf" := Upload.entry "a.pdf" Upload.ready]>
      (<["b.pdf" := Upload.entry "b.pdf" Upload.uploading]> ∅) in
  let fs := [{| Upload.fileName := "a.pdf"; Upload.fileType := "application/pdf" |};
             {| Upload.fileName := "b.pdf"; Upload.fileType := "application/pdf" |}] in
  Upload.failStillUploading fs m !! "a.pdf" = Some (Upload.entry "a.pdf" Upload.ready).
Proof.
  intros m fs.
  apply (proj1 batch_catch_touches_only_uploading fs m "a.pdf"
           (Upload.entry "a.pdf" Upload.ready)).
  - vm_compute. reflexivity.
  - simpl. discriminate.
Defined.

(** C3, as the claim states it, fails: where the host offers no key
    selection ([window.aistudio] is absent) a batch whose only file is
    refused with the recognised message completes and leaves
    [isApiKeySelected] as it was. *)
Lemma billing_error_without_host_counterexample :
  let b := Upload.sampleBatch [Upload.sampleRefused] false in
  let app := Upload.sampleApp in
  let store := Some {| Upload.storeName := Some "fileSearchStores/s1" |} in
  let tr := [Upload.Issued None Upload.CreateStore; Upload.Settled None Upload.CreateStore] in
  Upload.start b app
  = ([systemMessage "uploading 1 file(s)...";
      systemMessage "creating a new file collection..."], tr, Upload.Returned store) /\
  fst (Upload.fileBody 0 0 (fst Upload.sampleRefused) (snd Upload.sampleRefused)
         (Upload.enterLoop store store
            (Upload.markUploading (map fst (Upload.files b)) (Upload.appUploadedFiles app))
            tr))
  = Some (Upload.Threw Upload.refused) /\
  Upload.errorMessage Upload.refused
  = Upload.Returned (Some "404: Requested entity was not found.") /\
  includes "404: Requested entity was not found." "Requested entity was not found" = true /\
  fst (Upload.loop 0 b app store tr) = Some (Upload.Returned tt) /\
  Upload.isApiKeySelected app = true /\
  Upload.isApiKeySelected (fst (Upload.handleFileSelect 0 b app)) = true /\
  Upload.isUploading (fst (Upload.handleFileSelect 0 b app)) = false.
Proof. cbv zeta. repeat split; vm_compute; reflexivity. Qed.

(** C3, amended.  If the loop of the batch runs to its end, and the
    [try] block of some file of the batch throws an error whose message
    contains "Requested entity was not found", then the report ends with
    the billing message and: where the host offers key selection
    ([window.aistudio] is present) the handler leaves [isApiKeySelected]
    false and sets the welcome error; where it does not, both keep their
    values. *)
Theorem billing_error_deselects
    (fuel : nat) (b : Upload.Batch) (app : Upload.App)
    (msgs : list Message) (tr : list Upload.Event) (store : option Upload.FileSearchStore)
    (pre post : list (Upload.File * Upload.Remote))
    (f : Upload.File) (r : Upload.Remote) (e : Upload.Thrown) (st1 : Upload.Loop)
    (message : string) :
  Upload.start b app = (msgs, tr, Upload.Returned store) ->
  Upload.files b = (pre ++ (f, r) :: post)%list ->
  fst (Upload.loop fuel b app store tr) = Some (Upload.Returned tt) ->
  Upload.fileBody fuel (length pre) f r
    (snd (Upload.processFiles fuel 0 pre
            (Upload.enterLoop store store
               (Upload.markUploading (map fst (Upload.files b)) (Upload.appUploadedFiles app))
               tr)))
  = (Some (Upload.Threw e), st1) ->
  Upload.errorMessage e = Upload.Returned (Some message) ->
  includes message "Requested entity was not found" = true ->
  let app' := fst (Upload.handleFileSelect fuel b app) in
  Upload.isApiKeySelected app'
  = (if Upload.aistudio b then false else Upload.isApiKeySelected app) /\
  Upload.welcomeError app'
  = (if Upload.aistudio b
     then Some "The current API key failed. Please select a valid key."
     else Upload.welcomeError app) /\
  exists earlier,
    Upload.messages app'
    = (earlier ++ [systemMessage "upload failed. please check api key billing."])%list.
Proof.
  intros Hstart Hfiles Hloop Hbody Hmsg Hinc. cbv zeta.
  unfold Upload.handleFileSelect. rewrite Hstart.
  destruct (Upload.files b) as [|x fs] eqn:F; [now destruct pre|].
  rewrite <- F in *. clear x fs F.
  destruct (Upload.loop fuel b app store tr) as [o st] eqn:L. simpl in Hloop. subst o.
  assert (Hst : Upload.billingErrorFound st = true /\ (0 < Upload.failures st)%nat).
  { unfold Upload.loop in L. set (init := Upload.enterLoop _ _ _ _) in *.
    rewrite Hfiles, UploadFacts.processFiles_app in L. unfold Upload.bind in L.
    destruct (Upload.processFiles fuel 0 pre init) as [[[[]|e0]|] s1]; try discriminate L.
    simpl in L, Hbody. unfold Upload.bind in L.
    destruct (UploadFacts.processFile_threw _ _ _ _ _ _ _ _ Hbody Hmsg)
      as (_ & _ & Hf & _ & Hb).
    rewrite Hinc in Hb. simpl in Hb.
    destruct (Upload.processFile fuel (length pre) f r s1) as [[[[]|e0]|] s2];
      try discriminate L.
    simpl in Hf, Hb.
    destruct (UploadFacts.keepsFailures_processFiles fuel post (S (length pre)) s2)
      as (Hle & Hmono).
    rewrite L in Hle, Hmono. simpl in Hle, Hmono. split; [now apply Hmono | lia]. }
  destruct Hst as [Hb Hf]. apply Nat.ltb_lt in Hf.
  simpl. unfold Upload.finish.
  destruct (Upload.reportSuccesses _ st msgs _) as [msgs1 chat1].
  unfold Upload.reportFailures. rewrite Hf, Hb.
  destruct (Upload.aistudio b); simpl; repeat split; now exists msgs1.
Qed.

Lemma billing_error_deselects_witness :
  Upload.isApiKeySelected
    (fst (Upload.handleFileSelect 0
            (Upload.sampleBatch [Upload.sampleImage; Upload.sampleRefused] true)
            Upload.sampleApp))
  = false.
Proof.
  refine (proj1 (billing_error_deselects 0
                   (Upload.sampleBatch
                      [Upload.sampleImage; Upload.sampleRefused] true)
                   Upload.sampleApp _ _ _ [Upload.sampleImage] []
                   (fst Upload.sampleRefused) (snd Upload.sampleRefused)
                   Upload.refused _ "404: Requested entity was not found."
                   _ _ _ _ _ _));
    vm_compute; reflexivity.
Defined.

Lemma typewriter_prefix_and_completion_witness :
  exists n,
    Typewriter.displayedText
      (Typewriter.frames {| Typewriter.textToType := "hi"; Typewriter.charDelay := 20 |}
         (fun i => 16 * inject_Z (Z.of_nat i) + 16)%Q n
         (Typewriter.mount {| Typewriter.textToType := "hi"; Typewriter.charDelay := 20 |}))
    = "hi".
Proof.
  apply (proj2 typewriter_prefix_and_completion
           {| Typewriter.textToType := "hi"; Typewriter.charDelay := 20 |}
           Typewriter.initial 16%Q (fun i => 16 * inject_Z (Z.of_nat i) + 16)%Q).
  - reflexivity.
  - intros n. rewrite Nat2Z.inj_succ. unfold Z.succ. rewrite inject_Z_plus.
    assert (0 <= inject_Z (Z.of_nat n))%Q
      by (change 0%Q with (inject_Z 0); rewrite <- Zle_Qle; lia).
    change (inject_Z 1) with 1%Q. split; lra.
Defined.

Lemma sanitizeResourceName_shape_witness :
  isLowerAZ "m" || isDigit "m" || isHyphen "m" = true.
Proof.
  apply (proj1 (sanitizeResourceName_shape "My  Report_(v2).PDF") 0%nat "m"%char).
  reflexivity.
Defined.

Lemma sources_deduplicated_witness :
  let known := [{| type := web; uri := "https://a.example"; title := "A" |}] in
  let again :=
    {| Stream.gWeb := Some {| Stream.refUri := "https://a.example";
                              Stream.refTitle := Some "A, later" |};
       Stream.gRetrievedContext := None |} in
  Stream.addGroundingChunk known again = known.
Proof.
  intros known again.
  apply (proj1 (proj2 sources_deduplicated) known again web
           {| Stream.refUri := "https://a.example"; Stream.refTitle := Some "A, later" |}).
  - reflexivity.
  - simpl. now left.
Defined.

(** * Further properties *)

(** ** The sanitiser and the resource name *)

Section SanitizeMore.

Lemma class_not_upper c : inClass c = true -> lowerChar c = c.
Proof.
  destruct c as [[] [] [] [] [] [] [] []]; vm_compute; intros H;
    first [reflexivity | discriminate H].
Qed.

(** What the first two replacements make of one code unit. *)
Lemma lowered_char_hyphen c :
  isHyphen (if inClass (lowerChar c) then lowerChar c else hyphen)
  = negb (isLowerAZ c || isUpperAZ c || isDigit c) || isHyphen c.
Proof. destruct c as [[] [] [] [] [] [] [] []]; reflexivity. Qed.

Lemma alnum_not_hyphen c :
  isLowerAZ c || isUpperAZ c || isDigit c = true -> isHyphen c = false.
Proof.
  destruct c as [[] [] [] [] [] [] [] []]; vm_compute; intros H;
    first [reflexivity | discriminate H].
Qed.

Lemma mapChars_id f s :
  (forall i c, String.get i s = Some c -> f c = c) -> mapChars f s = s.
Proof.
  induction s as [|c s IH]; intros H; [reflexivity|]. simpl. f_equal.
  - apply (H 0%nat). reflexivity.
  - apply IH. intros i d G. apply (H (S i)). exact G.
Qed.

Lemma get_allChars P s :
  (forall i c, String.get i s = Some c -> P c = true) -> allChars P s = true.
Proof.
  induction s as [|c s IH]; intros H; [reflexivity|]. simpl.
  rewrite (H 0%nat c eq_refl). apply IH. intros i d G. apply (H (S i)). exact G.
Qed.

Lemma collapseHyphens_id s : noDoubleHyphen s = true -> collapseHyphens s = s.
Proof.
  induction s as [|c s IH]; intros H; [reflexivity|].
  pose proof (noDoubleHyphen_tail _ _ H) as Hs.
  simpl in *. destruct s as [|d s]; [reflexivity|].
  apply andb_prop in H as [H _]. apply negb_true_iff in H. rewrite H.
  f_equal. now apply IH.
Qed.

Lemma dropTrailingHyphen_id s :
  (forall n, String.length s = S n -> String.get n s <> Some hyphen) ->
  dropTrailingHyphen s = s.
Proof.
  induction s as [|c s IH]; intros H; [reflexivity|].
  destruct s as [|d s].
  - simpl. destruct (isHyphen c) eqn:E; [|reflexivity].
    apply isHyphen_true in E. subst c. now destruct (H 0%nat eq_refl).
  - change (dropTrailingHyphen (String c (String d s)))
      with (String c (dropTrailingHyphen (String d s))).
    f_equal. apply IH. intros n L. apply (H (S n)). simpl in *. now rewrite L.
Qed.

Lemma trimHyphenEnds_id s :
  String.get 0 s <> Some hyphen ->
  (forall n, String.length s = S n -> String.get n s <> Some hyphen) ->
  trimHyphenEnds s = s.
Proof.
  intros H0 Hl. destruct s as [|c s]; [reflexivity|]. unfold trimHyphenEnds.
  destruct (isHyphen c) eqn:E.
  - apply isHyphen_true in E. subst c. now destruct H0.
  - now apply dropTrailingHyphen_id.
Qed.

Lemma shape_bools (lowered : string) :
  let r := trimHyphenEnds (collapseHyphens (replaceOutsideClass lowered)) in
  allChars inClass r = true /\ noDoubleHyphen r = true.
Proof.
  cbv zeta. set (b := collapseHyphens (replaceOutsideClass lowered)).
  assert (Ha : allChars inClass b = true)
    by apply allChars_collapseHyphens, allChars_replaceOutsideClass.
  assert (Hb : noDoubleHyphen b = true) by apply noDoubleHyphen_collapseHyphens.
  split; [now apply allChars_trimHyphenEnds|].
  unfold trimHyphenEnds. destruct b as [|c b]; [reflexivity|].
  destruct (isHyphen c); apply noDoubleHyphen_dropTrailingHyphen; [|exact Hb].
  exact (noDoubleHyphen_tail _ _ Hb).
Qed.

Lemma collapseHyphens_cons2 c d s :
  collapseHyphens (String c (String d s))
  = if isHyphen c && isHyphen d then collapseHyphens (String d s)
    else String c (collapseHyphens (String d s)).
Proof. reflexivity. Qed.

Lemma allHyphens_collapse s :
  allChars isHyphen (collapseHyphens s) = allChars isHyphen s.
Proof.
  induction s as [|c s IH]; [reflexivity|].
  destruct s as [|d s]; [reflexivity|].
  rewrite collapseHyphens_cons2.
  destruct (isHyphen c) eqn:Ec, (isHyphen d) eqn:Ed; cbn [andb].
  - rewrite IH. cbn [allChars]. now rewrite Ec.
  - cbn [allChars]. rewrite IH. reflexivity.
  - cbn [allChars]. rewrite IH. reflexivity.
  - cbn [allChars]. rewrite IH. reflexivity.
Qed.

Lemma collapse_allHyphens s :
  noDoubleHyphen s = true -> allChars isHyphen s = true ->
  s = "" \/ s = String hyphen "".
Proof.
  destruct s as [|c [|d s]]; simpl; intros N A; [now left | |].
  - right. rewrite andb_true_r in A. apply isHyphen_true in A. now subst.
  - apply andb_prop in A as [Ac A]. apply andb_prop in A as [Ad _].
    rewrite Ac, Ad in N. discriminate.
Qed.

Lemma trimHyphenEnds_empty s :
  noDoubleHyphen s = true ->
  (trimHyphenEnds s = "" <-> allChars isHyphen s = true).
Proof.
  intros N. split.
  - destruct s as [|c s]; [reflexivity|]. unfold trimHyphenEnds.
    destruct (isHyphen c) eqn:Ec; intros H; apply dropTrailingHyphen_empty in H.
    + simpl. rewrite Ec. destruct H as [->| ->]; reflexivity.
    + destruct H as [H|H]; [discriminate|]. injection H as -> _. discriminate.
  - intros A. destruct (collapse_allHyphens s N A) as [->| ->]; reflexivity.
Qed.

Lemma allHyphens_replaced s :
  allChars isHyphen (replaceOutsideClass (toLowerCase s))
  = allChars (fun c => negb (isLowerAZ c || isUpperAZ c || isDigit c)) s.
Proof.
  induction s as [|c s IH]; [reflexivity|].
  unfold replaceOutsideClass, toLowerCase in *. simpl. rewrite IH. f_equal.
  rewrite lowered_char_hyphen.
  destruct (isLowerAZ c || isUpperAZ c || isDigit c) eqn:E; [|reflexivity].
  simpl. now apply alnum_not_hyphen.
Qed.

Lemma allChars_false_get P s :
  allChars (fun c => negb (P c)) s = true <->
  (forall i c, String.get i s = Some c -> P c = false).
Proof.
  split.
  - intros H i c G. apply (allChars_get _ s H) in G. now apply negb_true_iff in G.
  - intros H. apply get_allChars. intros i c G. apply negb_true_iff. eauto.
Qed.

End SanitizeMore.

(** X1.  Sanitising is idempotent: a sanitised name is left as it is by
    a second pass. *)
Theorem sanitizeResourceName_idempotent (name : string) :
  sanitizeResourceName (sanitizeResourceName name) = sanitizeResourceName name.
Proof.
  unfold sanitizeResourceName at 1.
  set (r := sanitizeResourceName name).
  destruct (replacements_shape (toLowerCase name)) as (Hc & Hd & H0 & Hl).
  destruct (shape_bools (toLowerCase name)) as (Ba & Bn).
  fold (sanitizeResourceName name) in Hc, Hd, H0, Hl, Ba, Bn. fold r in Hc, Hd, H0, Hl, Ba, Bn.
  assert (E1 : toLowerCase r = r).
  { apply mapChars_id. intros i c G. apply class_not_upper. eauto. }
  assert (E2 : replaceOutsideClass r = r).
  { apply mapChars_id. intros i c G. now rewrite (Hc i c G). }
  rewrite E1, E2, (collapseHyphens_id r Bn). now apply trimHyphenEnds_id.
Qed.

(** X2.  The sanitised name is empty, so that the fallback [file] is
    used, exactly when the file name holds no ASCII letter and no
    digit. *)
Theorem sanitizeResourceName_empty_iff (name : string) :
  sanitizeResourceName name = "" <->
  (forall i c, String.get i name = Some c ->
               isLowerAZ c || isUpperAZ c || isDigit c = false).
Proof.
  unfold sanitizeResourceName.
  rewrite trimHyphenEnds_empty by apply noDoubleHyphen_collapseHyphens.
  rewrite allHyphens_collapse, allHyphens_replaced.
  apply (allChars_false_get (fun c => isLowerAZ c || isUpperAZ c || isDigit c)).
Qed.

Lemma sanitizeResourceName_empty_iff_witness :
  sanitizeResourceName "(?!) -- _" = "".
Proof.
  apply (proj2 (sanitizeResourceName_empty_iff "(?!) -- _")).
  intros i c G.
  do 9 (destruct i as [|i]; [simpl in G; injection G as <-; reflexivity|]).
  simpl in G. discriminate G.
Defined.

Section ResourceNameMore.

Lemma allChars_append P s t : allChars P (s ++ t) = allChars P s && allChars P t.
Proof. induction s as [|c s IH]; simpl; [reflexivity | now rewrite IH, andb_assoc]. Qed.

Lemma allChars_substring0 P n s :
  allChars P s = true -> allChars P (String.substring 0 n s) = true.
Proof.
  revert s; induction n as [|n IH]; intros [|c s] H; simpl; try reflexivity.
  simpl in H. apply andb_prop in H as [Hc Hs]. now rewrite Hc, IH.
Qed.

Lemma inClass_digitChar (d : N) : (d < 10)%N -> inClass (digitChar d) = true.
Proof.
  intros H.
  assert (E : (d = 0 \/ d = 1 \/ d = 2 \/ d = 3 \/ d = 4 \/ d = 5 \/ d = 6 \/ d = 7
               \/ d = 8 \/ d = 9)%N) by lia.
  repeat destruct E as [->|E]; try subst d; reflexivity.
Qed.

Lemma allChars_digitsOf fuel : forall n acc,
  allChars inClass acc = true -> allChars inClass (digitsOf fuel n acc) = true.
Proof.
  induction fuel as [|fuel IH]; intros n acc H; [exact H|].
  assert (Hd : allChars inClass (String (digitChar (n mod 10)) acc) = true).
  { simpl. rewrite H, andb_true_r. apply inClass_digitChar.
    apply N.mod_upper_bound. discriminate. }
  simpl. destruct (n <? 10)%N; [exact Hd | now apply IH].
Qed.

Lemma allChars_toString z : allChars inClass (toString z) = true.
Proof.
  unfold toString. destruct (z <? 0)%Z.
  - change (inClass hyphen && allChars inClass
              (digitsOf (S (N.to_nat (N.log2 (Z.to_N (Z.abs z))))) (Z.to_N (Z.abs z)) "")
            = true).
    now rewrite allChars_digitsOf.
  - now apply allChars_digitsOf.
Qed.

Lemma get0_append s t c :
  String.get 0 s = Some c -> String.get 0 (s ++ t) = Some c.
Proof. destruct s; [discriminate | trivial]. Qed.

Lemma get0_substring0 n s : String.get 0 (String.substring 0 (S n) s) = String.get 0 s.
Proof. now destruct s. Qed.

End ResourceNameMore.

(** X3.  The unique resource name is made of lowercase letters,
    digits and hyphens only, whatever the inputs; and for a time value
    and a random number in their ranges it starts with a letter or a
    digit. *)
Theorem uniqueResourceName_charset (fileName : string) (now : Z) (random : Q) :
  (forall i c, String.get i (uniqueResourceName fileName now random) = Some c ->
               inClass c = true) /\
  ((Z.abs now <= maxTimeValue)%Z -> (0 <= random)%Q -> (random < 1)%Q ->
   exists c, String.get 0 (uniqueResourceName fileName now random) = Some c /\
             isHyphen c = false).
Proof.
  unfold uniqueResourceName.
  set (base := if truthy (sanitizeResourceName fileName)
               then sanitizeResourceName fileName else "file").
  assert (Hbase : allChars inClass base = true /\
                  exists c, String.get 0 base = Some c /\ isHyphen c = false).
  { unfold base. destruct (sanitizeResourceName fileName) as [|c r] eqn:E; simpl truthy; cbv iota.
    - split; [reflexivity|]. exists "f"%char. split; reflexivity.
    - destruct (shape_bools (toLowerCase fileName)) as (Ba & _).
      destruct (replacements_shape (toLowerCase fileName)) as (_ & _ & H0 & _).
      fold (sanitizeResourceName fileName) in Ba, H0. rewrite E in Ba, H0.
      split; [exact Ba|]. exists c. split; [reflexivity|].
      destruct (isHyphen c) eqn:Ec; [|reflexivity].
      apply isHyphen_true in Ec. subst c. now destruct H0. }
  destruct Hbase as (Hall & c0 & Hc0 & Hh0).
  split.
  - apply allChars_get. unfold joinResourceName, substringTo.
    rewrite !allChars_append, !allChars_toString.
    unfold randomSuffixOf. rewrite allChars_toString.
    rewrite allChars_substring0 by exact Hall. reflexivity.
  - intros Hn H0 H1. exists c0. split; [|exact Hh0].
    pose proof (timestamp_length now Hn).
    pose proof (randomSuffix_length random H0 H1).
    unfold joinResourceName, substringTo. apply get0_append.
    assert (exists n, Z.to_nat (maxNameLength (toString now) (randomSuffixOf random)) = S n)
      as [n ->] by (unfold maxNameLength; exists (Z.to_nat
          (40 - Z.of_nat (String.length (toString now))
           - Z.of_nat (String.length (randomSuffixOf random)) - 2) - 1)%nat; lia).
    now rewrite get0_substring0.
Qed.

Lemma uniqueResourceName_charset_witness :
  exists c, String.get 0 (uniqueResourceName "???" 1730599200123 (1 # 3)) = Some c /\
            isHyphen c = false.
Proof.
  apply (proj2 (uniqueResourceName_charset "???" 1730599200123 (1 # 3))).
  - vm_compute. discriminate.
  - vm_compute. discriminate.
  - vm_compute. reflexivity.
Defined.

(** ** The Typewriter *)

Module TypewriterMore.
Import Typewriter TypewriterSpec.

Lemma fresh_synced p st : Fresh p st -> Synced p st.
Proof. intros (H1 & H2 & H3 & _). now repeat split. Qed.

Lemma prefix_of_substring0 (a t : string) (n : nat) :
  String.prefix a t = true -> (String.length a <= n)%nat ->
  String.prefix a (String.substring 0 n t) = true.
Proof.
  revert t n. induction a as [|c a IH]; intros t n H L; [apply prefix_empty|].
  destruct t as [|d t]; [discriminate|]. destruct n as [|n]; [simpl in L; lia|].
  simpl in *. destruct (ascii_dec c d); [|discriminate]. apply IH; [exact H | lia].
Qed.

Lemma prefix_refl (s : string) : String.prefix s s = true.
Proof.
  induction s as [|c s IH]; [reflexivity|]. simpl.
  destruct (ascii_dec c c) as [_|N]; [exact IH | now destruct N].
Qed.

(** What one frame does to a synced state: nothing to the text, or a
    reveal of a longer prefix followed by a commit. *)
Lemma frame_synced_cases p t st :
  Synced p st ->
  (displayedText (frame p t st) = displayedText st /\ Synced p (frame p t st)) \/
  (exists n,
      (String.length (displayedText st) < n <= String.length (textToType p))%nat /\
      displayedText (frame p t st) = String.substring 0 n (textToType p) /\
      Fresh p (frame p t st)).
Proof.
  intros (Hpre & Hidx & Hpend). unfold frame.
  destruct (framePending st) eqn:P; [|left; split; [reflexivity | unfold Synced; repeat split; congruence]].
  unfold animate.
  set (chars := Qfloor _). set (newIndex := Nat.min _ _).
  destruct ((0 <? chars)%Z && (textIndexRef st <? newIndex)%nat) eqn:R.
  - right. apply andb_prop in R as [_ R]. apply Nat.ltb_lt in R.
    assert (Hle : (newIndex <= String.length (textToType p))%nat) by (unfold newIndex; lia).
    destruct (String.eqb _ _) eqn:Eq.
    + apply String.eqb_eq in Eq. simpl in Eq.
      apply (f_equal String.length) in Eq. rewrite length_substring0 in Eq. lia.
    + exists newIndex. split; [lia|]. split; [|apply TypewriterFacts.commit_fresh].
      now rewrite TypewriterFacts.commit_kept by apply prefix_substring0.
  - left. split; [reflexivity|]. repeat split; simpl; auto.
Qed.

Lemma frame_synced p t st : Synced p st -> Synced p (frame p t st).
Proof.
  intros H. destruct (frame_synced_cases p t st H) as [[_ S]|(n & _ & _ & F)];
    [exact S | now apply fresh_synced].
Qed.

Lemma receiveProps_synced p q st : Synced p st -> Synced q (receiveProps p q st).
Proof.
  intros (H1 & H2 & H3). unfold receiveProps. destruct (sameProps p q) eqn:E.
  - unfold sameProps in E. apply andb_prop in E as [E _].
    apply String.eqb_eq in E. unfold Synced. rewrite <- E. auto.
  - apply fresh_synced, TypewriterFacts.commit_fresh.
Qed.

Lemma run_synced es : forall c, Synced (fst c) (snd c) -> Synced (fst (run c es)) (snd (run c es)).
Proof.
  induction es as [|e es IH]; intros c H; [exact H|].
  unfold run in *. simpl. apply IH. destruct e as [t|q]; simpl.
  - now apply frame_synced.
  - now apply receiveProps_synced.
Qed.

Lemma mounted_synced p0 es :
  Synced (fst (run (p0, mount p0) es)) (snd (run (p0, mount p0) es)).
Proof. apply run_synced. simpl. apply fresh_synced, TypewriterFacts.commit_fresh. Qed.

End TypewriterMore.

(** X4.  An animation frame never takes back or changes what is
    shown: after any history, the text shown before a frame is a prefix
    of the text shown after it. *)
Theorem frame_only_extends (p0 : Typewriter.Props) (es : list Typewriter.Event) (t : Q) :
  let c := Typewriter.run (p0, Typewriter.mount p0) es in
  startsWith (Typewriter.displayedText (Typewriter.frame (fst c) t (snd c)))
    (Typewriter.displayedText (snd c)) = true.
Proof.
  intros c. pose proof (TypewriterMore.mounted_synced p0 es) as S. fold c in S.
  destruct (TypewriterMore.frame_synced_cases (fst c) t (snd c) S)
    as [[E _]|(n & Hn & E & _)]; unfold startsWith; rewrite E.
  - apply TypewriterMore.prefix_refl.
  - destruct S as (Hpre & _). apply TypewriterMore.prefix_of_substring0; [exact Hpre | lia].
Qed.

(** X5.  Once the whole target is shown, frames change nothing at all:
    no frame is pending and the state stays as it is. *)
Theorem complete_text_is_stable (p0 : Typewriter.Props) (es : list Typewriter.Event) (t : Q) :
  let c := Typewriter.run (p0, Typewriter.mount p0) es in
  Typewriter.displayedText (snd c) = Typewriter.textToType (fst c) ->
  Typewriter.framePending (snd c) = false /\
  Typewriter.frame (fst c) t (snd c) = snd c.
Proof.
  intros c E. destruct (TypewriterMore.mounted_synced p0 es) as (_ & _ & P). fold c in P.
  rewrite E, Nat.ltb_irrefl in P. split; [exact P|]. unfold Typewriter.frame. now rewrite P.
Qed.

Lemma complete_text_is_stable_witness :
  let p := {| Typewriter.textToType := "hi"; Typewriter.charDelay := 20 |} in
  let typed :=
    Typewriter.run (p, Typewriter.mount p)
      [Typewriter.Frame 16; Typewriter.Frame 32; Typewriter.Frame 48;
       Typewriter.Frame 64; Typewriter.Frame 80; Typewriter.Frame 96] in
  Typewriter.framePending (snd typed) = false /\
  Typewriter.frame (fst typed) 112 (snd typed) = snd typed.
Proof.
  intros p typed.
  apply (complete_text_is_stable p
           [Typewriter.Frame 16; Typewriter.Frame 32; Typewriter.Frame 48;
            Typewriter.Frame 64; Typewriter.Frame 80; Typewriter.Frame 96] 112%Q).
  vm_compute. reflexivity.
Defined.

(** X6.  The frame that follows a commit reveals nothing, whatever its
    time: the cleanup has reset the clock refs, so that frame only
    restarts the clock. *)
Theorem first_frame_reveals_nothing (p : Typewriter.Props) (st : Typewriter.State) (t : Q) :
  let st0 := Typewriter.commit p st in
  Typewriter.displayedText (Typewriter.frame p t st0) = Typewriter.displayedText st0 /\
  (Typewriter.framePending st0 = true ->
   Typewriter.lastFrameTimeRef (Typewriter.frame p t st0) = t /\
   (Typewriter.timeAccumulatorRef (Typewriter.frame p t st0) == 0)%Q).
Proof.
  intros st0. destruct (TypewriterFacts.commit_fresh p st) as (H1 & H2 & H3 & H4 & H5).
  fold st0 in H1, H2, H3, H4, H5.
  unfold Typewriter.frame. destruct (Typewriter.framePending st0) eqn:P;
    [|split; [reflexivity | discriminate]].
  unfold Typewriter.animate. rewrite H4, H5.
  change (Qeq_bool 0 0) with true. cbv iota.
  assert (Z0 : (0 <? Qfloor ((0 + (t - t)) / Typewriter.effectiveDelay p))%Z = false).
  { destruct (0 <? _)%Z eqn:E; [|reflexivity].
    apply TypewriterFacts.floor_div_pos in E; [|apply TypewriterFacts.effectiveDelay_pos].
    pose proof (TypewriterFacts.effectiveDelay_pos p). lra. }
  rewrite Z0. simpl. split; [reflexivity|]. intros _. split; [reflexivity | lra].
Qed.

Lemma first_frame_reveals_nothing_witness :
  let p := {| Typewriter.textToType := "hello"; Typewriter.charDelay := 20 |} in
  Typewriter.lastFrameTimeRef (Typewriter.frame p 1000 (Typewriter.mount p)) = 1000%Q /\
  (Typewriter.timeAccumulatorRef (Typewriter.frame p 1000 (Typewriter.mount p)) == 0)%Q.
Proof.
  intros p.
  apply (proj2 (first_frame_reveals_nothing p Typewriter.initial 1000%Q)). reflexivity.
Defined.

(** X7.  A frame that changes the text leaves the clock refs reset: the
    time left over after the revealed characters is not carried to the
    next reveal. *)
Theorem reveal_resets_clock (p0 : Typewriter.Props) (es : list Typewriter.Event) (t : Q) :
  let c := Typewriter.run (p0, Typewriter.mount p0) es in
  Typewriter.displayedText (Typewriter.frame (fst c) t (snd c))
  <> Typewriter.displayedText (snd c) ->
  Typewriter.lastFrameTimeRef (Typewriter.frame (fst c) t (snd c)) = 0%Q /\
  Typewriter.timeAccumulatorRef (Typewriter.frame (fst c) t (snd c)) = 0%Q.
Proof.
  intros c Hne. pose proof (TypewriterMore.mounted_synced p0 es) as S. fold c in S.
  destruct (TypewriterMore.frame_synced_cases (fst c) t (snd c) S)
    as [[E _]|(n & _ & _ & F)]; [contradiction|].
  destruct F as (_ & _ & _ & F4 & F5). now split.
Qed.

(** X8.  A render whose target extends the text shown keeps that text;
    any other target empties the display. *)
Theorem render_keeps_or_resets
    (p0 : Typewriter.Props) (es : list Typewriter.Event) (q : Typewriter.Props) :
  let c := Typewriter.run (p0, Typewriter.mount p0) es in
  Typewriter.displayedText (Typewriter.receiveProps (fst c) q (snd c))
  = if startsWith (Typewriter.textToType q) (Typewriter.displayedText (snd c))
    then Typewriter.displayedText (snd c) else "".
Proof.
  intros c. destruct (TypewriterMore.mounted_synced p0 es) as (Hpre & _). fold c in Hpre.
  unfold Typewriter.receiveProps. destruct (Typewriter.sameProps (fst c) q) eqn:E.
  - unfold Typewriter.sameProps in E. apply andb_prop in E as [E _].
    apply String.eqb_eq in E. now rewrite <- E, Hpre.
  - destruct (startsWith (Typewriter.textToType q) (Typewriter.displayedText (snd c))) eqn:S.
    + now rewrite TypewriterFacts.commit_kept by exact S.
    + unfold Typewriter.commit, Typewriter.runEffects at 1, Typewriter.resetEffect.
      simpl. rewrite S.
      now rewrite TypewriterFacts.runEffects_kept by apply TypewriterFacts.startsWith_empty.
Qed.

Lemma reveal_resets_clock_witness :
  let p := {| Typewriter.textToType := "hello"; Typewriter.charDelay := 20 |} in
  let c := Typewriter.run (p, Typewriter.mount p) [Typewriter.Frame 16; Typewriter.Frame 32] in
  Typewriter.lastFrameTimeRef (Typewriter.frame (fst c) 48 (snd c)) = 0%Q /\
  Typewriter.timeAccumulatorRef (Typewriter.frame (fst c) 48 (snd c)) = 0%Q.
Proof.
  intros p c.
  apply (reveal_resets_clock p [Typewriter.Frame 16; Typewriter.Frame 32] 48%Q).
  vm_compute. discriminate.
Defined.

(** ** The chunk consumer *)

Module StreamMore.
Import Stream.

Lemma append_empty_r (s : string) : s ++ "" = s.
Proof.
  induction s as [|c s IH]; [reflexivity|].
  change (String c (s ++ "") = String c s). now rewrite IH.
Qed.

Lemma append_assoc (a b c : string) : (a ++ b) ++ c = a ++ (b ++ c).
Proof.
  induction a as [|x a IH]; [reflexivity|].
  change (String x ((a ++ b) ++ c) = String x (a ++ (b ++ c))). now rewrite IH.
Qed.

Lemma totalText_consumeChunk st c :
  totalText (consumeChunk st c) = totalText st ++ textOf c.
Proof.
  unfold consumeChunk. destruct (SmoothingFacts.awaited_variables st c) as (HT & _).
  cbv zeta in HT. destruct (textOf c) as [|x t]; simpl; rewrite HT; [|reflexivity].
  now rewrite append_empty_r.
Qed.

Lemma totalText_consume cs : forall st,
  totalText (consume st cs) = totalText st ++ fold_right append "" (map textOf cs).
Proof.
  induction cs as [|c cs IH]; intros st; unfold consume in *; simpl.
  - now rewrite append_empty_r.
  - now rewrite IH, totalText_consumeChunk, append_assoc.
Qed.

(** *** The streaming message *)

(** When React runs the queue, the last message it had computed stays
    the last one, with its role, its streaming flag and its token
    count; and if nothing is queued afterwards it has the text received
    so far and the first sources found. *)
Lemma answer_runQueue st before m0 :
  rendered st = (before ++ [m0])%list -> role m0 = dot ->
  exists m1,
    rendered (runQueue st) = (before ++ [m1])%list /\ role m1 = dot /\
    isStreaming m1 = isStreaming m0 /\ tokenCount m1 = tokenCount m0 /\
    ((queued st = 0%nat -> text m0 = totalText st) -> text m1 = totalText st) /\
    ((queued st = 0%nat -> exists rest, found st = (sources m0 ++ rest)%list) ->
     exists rest, found st = (sources m1 ++ rest)%list).
Proof.
  intros E R. simpl. rewrite (SmoothingFacts.messages_dot st before m0 E R).
  eexists. split; [reflexivity|]. destruct (queued st); simpl; repeat split; auto.
  intros _. exists []. now rewrite app_nil_r.
Qed.

Lemma answer_consumeChunk st c before m0 :
  rendered st = (before ++ [m0])%list -> role m0 = dot ->
  exists m1,
    rendered (consumeChunk st c) = (before ++ [m1])%list /\ role m1 = dot /\
    isStreaming m1 = isStreaming m0 /\ tokenCount m1 = tokenCount m0 /\
    ((queued st = 0%nat -> text m0 = totalText st) ->
     queued (consumeChunk st c) = 0%nat -> text m1 = totalText (consumeChunk st c)) /\
    ((queued st = 0%nat -> exists rest, found st = (sources m0 ++ rest)%list) ->
     queued (consumeChunk st c) = 0%nat ->
     exists rest, found (consumeChunk st c) = (sources m1 ++ rest)%list).
Proof.
  intros E R.
  destruct (StreamFacts.addGroundingChunks_extends (groundingChunks c) (found st))
    as (added & A).
  unfold consumeChunk. destruct (flushed c).
  - destruct (answer_runQueue st before m0 E R) as (m1 & E1 & R1 & S1 & K1 & T1 & F1).
    exists m1. destruct (truthy (textOf c)); simpl in *;
      (split; [exact E1|]); repeat split; auto; try discriminate.
    intros H _. destruct (F1 H) as (rest & F). exists (rest ++ added)%list.
    now rewrite A, F, app_assoc.
  - exists m0. destruct (truthy (textOf c)); simpl;
      (split; [exact E|]); repeat split; auto; try discriminate.
    intros H Q. destruct (H Q) as (rest & F). exists (rest ++ added)%list.
    now rewrite A, F, app_assoc.
Qed.

Lemma answer_consume cs : forall st before m0,
  rendered st = (before ++ [m0])%list -> role m0 = dot ->
  exists m1,
    rendered (consume st cs) = (before ++ [m1])%list /\ role m1 = dot /\
    isStreaming m1 = isStreaming m0 /\ tokenCount m1 = tokenCount m0 /\
    ((queued st = 0%nat -> text m0 = totalText st) ->
     queued (consume st cs) = 0%nat -> text m1 = totalText (consume st cs)) /\
    ((queued st = 0%nat -> exists rest, found st = (sources m0 ++ rest)%list) ->
     queued (consume st cs) = 0%nat ->
     exists rest, found (consume st cs) = (sources m1 ++ rest)%list).
Proof.
  induction cs as [|c cs IH]; intros st before m0 E R.
  - exists m0. now repeat split.
  - destruct (answer_consumeChunk st c before m0 E R) as (m1 & E1 & R1 & S1 & K1 & T1 & F1).
    destruct (IH (consumeChunk st c) before m1 E1 R1) as (m2 & E2 & R2 & S2 & K2 & T2 & F2).
    exists m2. unfold consume in *. simpl. repeat split; auto; congruence.
Qed.

(** The answer React shows after the chunks [cs], the loop having
    been entered with the streaming message last. *)
Lemma shown_consume cs start before m :
  role m = dot ->
  let st := consume (enter start (before ++ [m])%list) cs in
  exists m',
    messages st = (before ++ [m'])%list /\ role m' = dot /\
    isStreaming m' = isStreaming m /\ tokenCount m' = tokenCount m /\
    (text m = "" -> text m' = totalText st) /\
    (sources m = [] -> exists rest, found st = (sources m' ++ rest)%list).
Proof.
  intros R st.
  destruct (answer_consume cs (enter start (before ++ [m])%list) before m eq_refl R)
    as (m1 & E1 & R1 & S1 & K1 & T1 & F1). fold st in E1, T1, F1.
  rewrite (SmoothingFacts.messages_dot st before m1 E1 R1).
  eexists. split; [reflexivity|]. destruct (queued st); simpl.
  - repeat split; auto. intros H. apply F1; [|reflexivity]. intros _. exists []. now rewrite H.
  - repeat split; auto. intros _. exists []. now rewrite app_nil_r.
Qed.

(** Chunks without text, with nothing queued: React has nothing to
    run, whenever it looks. *)
Lemma idle_consume cs : forall st,
  queued st = 0%nat -> Forall (fun c => truthy (textOf c) = false) cs ->
  rendered (consume st cs) = rendered st /\ queued (consume st cs) = 0%nat.
Proof.
  induction cs as [|c cs IH]; intros st Q H; [now split|].
  apply Forall_cons in H as [Hc H]. unfold consume in *. simpl.
  assert (S1 : rendered (consumeChunk st c) = rendered st /\
               queued (consumeChunk st c) = 0%nat).
  { unfold consumeChunk. rewrite Hc. destruct (flushed c); simpl; [|now split].
    unfold messages. rewrite Q. now split. }
  destruct S1 as [S1 Q1]. destruct (IH (consumeChunk st c) Q1 H) as [S2 Q2].
  split; congruence.
Qed.

(** Chunks without text while React does not run the queue: the
    queue and the text stay, and the sources go on growing. *)
Lemma waiting_consume cs : forall st,
  Forall (fun c => truthy (textOf c) = false) cs ->
  Forall (fun c => flushed c = false) cs ->
  rendered (consume st cs) = rendered st /\ queued (consume st cs) = queued st /\
  totalText (consume st cs) = totalText st /\
  smoothedCharDelay (consume st cs) = smoothedCharDelay st.
Proof.
  induction cs as [|c cs IH]; intros st H U; [now repeat split|].
  apply Forall_cons in H as [Hc H]. apply Forall_cons in U as [Uc U].
  unfold consume in *. simpl.
  destruct (IH (consumeChunk st c) H U) as (-> & -> & -> & ->).
  unfold consumeChunk. rewrite Hc, Uc. now repeat split.
Qed.

Lemma queued_text st c : truthy (textOf c) = true -> queued (consumeChunk st c) <> 0%nat.
Proof. intros H. unfold consumeChunk. rewrite H. simpl. discriminate. Qed.

Lemma consume_app a b st : consume st (a ++ b)%list = consume (consume st a) b.
Proof. unfold consume. apply fold_left_app. Qed.

Lemma smooth_positive dt n prev : (0 < prev)%Q -> (0 < smooth dt n prev)%Q.
Proof.
  intros H. destruct (Qlt_le_dec 1 dt) as [Hdt|Hdt];
    [|now rewrite SmoothingFacts.smooth_fast].
  destruct (Nat.eq_0_gt_0_cases n) as [->|Hn].
  - unfold smooth. now destruct (Qlt_le_dec 1 dt).
  - rewrite (SmoothingFacts.smooth_slow dt n prev Hdt Hn).
    assert (Hq : (0 < inject_Z (Z.of_nat n))%Q).
    { change 0%Q with (inject_Z 0). rewrite <- Zlt_Qlt. lia. }
    assert (Ho : (0 < dt / inject_Z (Z.of_nat n))%Q).
    { apply Qlt_shift_div_l; [exact Hq | lra]. }
    lra.
Qed.

Lemma smoothed_consumeChunk st c :
  smoothedCharDelay (consumeChunk st c) = smoothedCharDelay st \/
  smoothedCharDelay (consumeChunk st c)
  = smooth (arrival c - lastChunkTime st) (String.length (textOf c)) (smoothedCharDelay st).
Proof.
  unfold consumeChunk. destruct (SmoothingFacts.awaited_variables st c) as (_ & _ & L & D & _).
  cbv zeta in L, D. destruct (truthy (textOf c)); simpl; rewrite ?L, D; [now right | now left].
Qed.

Lemma positive_consume cs : forall st,
  (0 < smoothedCharDelay st)%Q -> (0 < smoothedCharDelay (consume st cs))%Q.
Proof.
  induction cs as [|c cs IH]; intros st H; [exact H|].
  unfold consume in *. simpl. apply IH.
  destruct (smoothed_consumeChunk st c) as [-> | ->]; [exact H | now apply smooth_positive].
Qed.

Lemma usage_consumeChunk st c :
  usageMetadataRef (consumeChunk st c)
  = match usageMetadataRef st with
    | Some u => Some u
    | None => usageMetadata c
    end.
Proof.
  unfold consumeChunk.
  destruct (flushed c), (truthy (textOf c)); simpl;
    destruct (usageMetadata c), (usageMetadataRef st); reflexivity.
Qed.

Lemma usage_consume cs : forall st,
  usageMetadataRef (consume st cs)
  = match usageMetadataRef st with
    | Some u => Some u
    | None => head (omap usageMetadata cs)
    end.
Proof.
  induction cs as [|c cs IH]; intros st; unfold consume in *; simpl.
  - now destruct (usageMetadataRef st).
  - rewrite IH, usage_consumeChunk.
    destruct (usageMetadataRef st); [reflexivity|].
    destruct (usageMetadata c); reflexivity.
Qed.

End StreamMore.

(** X9.  The text accumulated over a response is the concatenation of
    the texts of its chunks, in order, and the streaming message shows
    exactly that text. *)
Theorem streamed_text_is_concatenation
    (start : Q) (before : list Message) (m : Message) (cs : list Stream.Chunk) :
  role m = dot -> text m = "" ->
  let st := Stream.consume (Stream.enter start (before ++ [m])%list) cs in
  Stream.totalText st = fold_right append "" (map Stream.textOf cs) /\
  exists m', Stream.messages st = (before ++ [m'])%list /\ role m' = dot /\
             text m' = Stream.totalText st.
Proof.
  intros R T st. split.
  - unfold st. now rewrite StreamMore.totalText_consume.
  - destruct (StreamMore.shown_consume cs start before m R) as (m' & E & R' & _ & _ & T' & _).
    exists m'. auto.
Qed.

Lemma streamed_text_is_concatenation_witness :
  Stream.totalText
    (Stream.consume (Stream.enter 0 ([] ++ [Stream.streamingDot])%list)
       [Stream.quickChunk; Stream.slowChunk])
  = "hellohello".
Proof.
  apply (proj1 (streamed_text_is_concatenation 0 [] Stream.streamingDot
                  [Stream.quickChunk; Stream.slowChunk] eq_refl eq_refl)).
Defined.

(** X10.  The smoothed delay stays strictly positive over any response;
    each recomputation puts it between the previous delay and the
    observed time per character. *)
Theorem smoothed_delay_positive_and_between :
  (forall (start : Q) (msgs : list Message) (cs : list Stream.Chunk),
      (0 < Stream.smoothedCharDelay (Stream.consume (Stream.enter start msgs) cs))%Q) /\
  (forall (elapsed : Q) (chars : nat) (previous : Q),
      (1 < elapsed)%Q -> (0 < chars)%nat ->
      let observed := (elapsed / inject_Z (Z.of_nat chars))%Q in
      (Qmin previous observed <= Stream.smooth elapsed chars previous)%Q /\
      (Stream.smooth elapsed chars previous <= Qmax previous observed)%Q).
Proof.
  split.
  - intros start msgs cs. apply StreamMore.positive_consume. reflexivity.
  - intros elapsed chars previous He Hc observed.
    rewrite (SmoothingFacts.smooth_slow elapsed chars previous He Hc). fold observed.
    pose proof (Q.le_min_l previous observed). pose proof (Q.le_min_r previous observed).
    pose proof (Q.le_max_l previous observed). pose proof (Q.le_max_r previous observed).
    split; lra.
Qed.

Lemma smoothed_delay_positive_and_between_witness :
  (Qmin 20 (50 / inject_Z (Z.of_nat 5)) <= Stream.smooth 50 5 20)%Q /\
  (Stream.smooth 50 5 20 <= Qmax 20 (50 / inject_Z (Z.of_nat 5)))%Q.
Proof.
  apply (proj2 smoothed_delay_positive_and_between 50%Q 5%nat 20%Q).
  - reflexivity.
  - lia.
Defined.

(** X11.  The usage metadata kept for the token count is that of the
    first chunk that carries any; later ones are ignored. *)
Theorem first_usage_metadata_wins (start : Q) (msgs : list Message) (cs : list Stream.Chunk) :
  Stream.usageMetadataRef (Stream.consume (Stream.enter start msgs) cs)
  = head (omap Stream.usageMetadata cs).
Proof. now rewrite StreamMore.usage_consume. Qed.

(** X12.  The sources of the streaming message are the ones found
    when React last ran the updater: a prefix of the accumulated list,
    with no uri twice.  Sources that arrive in chunks without text after
    the last chunk with text reach the message if React had not run the
    updater when they arrived, and only those that arrived before it ran
    otherwise. *)
Theorem message_sources_as_of_last_run
    (start : Q) (before : list Message) (m : Message) (cs : list Stream.Chunk) :
  role m = dot -> sources m = [] ->
  let init := Stream.enter start (before ++ [m])%list in
  let st := Stream.consume init cs in
  exists m',
    Stream.messages st = (before ++ [m'])%list /\
    (exists rest, Stream.found st = (sources m' ++ rest)%list) /\
    NoDup (map uri (sources m')) /\
    (forall pre c post,
        cs = (pre ++ c :: post)%list -> truthy (Stream.textOf c) = true ->
        Forall (fun d => truthy (Stream.textOf d) = false) post ->
        Forall (fun d => Stream.flushed d = false) post ->
        sources m' = Stream.found st) /\
    (forall pre c mid d post,
        cs = (pre ++ c :: mid ++ d :: post)%list -> truthy (Stream.textOf c) = true ->
        Forall (fun d => truthy (Stream.textOf d) = false) (mid ++ d :: post)%list ->
        Forall (fun d => Stream.flushed d = false) mid ->
        Stream.flushed d = true ->
        sources m' = Stream.found (Stream.consume init (pre ++ c :: mid)%list)).
Proof.
  intros R S init st.
  destruct (StreamMore.shown_consume cs start before m R) as (m' & E & _ & _ & _ & _ & F).
  fold init in E, F. fold st in E, F. destruct (F S) as (rest & Fr).
  exists m'. split; [exact E|]. split; [now exists rest|]. split; [|split].
  - assert (N : NoDup (map uri (Stream.found st))).
    { apply StreamFacts.consume_NoDup. simpl. apply NoDup_nil_2. }
    rewrite Fr, map_app in N. now apply NoDup_app in N as (N & _).
  - intros pre c post Ecs Hc Ht Hu.
    assert (Est : st = Stream.consume (Stream.consume init (pre ++ [c])%list) post).
    { unfold st. rewrite Ecs, <- StreamMore.consume_app, <- app_assoc. reflexivity. }
    set (s1 := Stream.consume init (pre ++ [c])%list) in *.
    destruct (StreamMore.answer_consume (pre ++ [c])%list init before m eq_refl R)
      as (m1 & E1 & R1 & _). fold s1 in E1.
    destruct (StreamMore.waiting_consume post s1 Ht Hu) as (Hr & Hq & _).
    rewrite <- Est in Hr, Hq.
    assert (Q1 : Stream.queued s1 <> 0%nat).
    { unfold s1. rewrite StreamMore.consume_app. now apply StreamMore.queued_text. }
    rewrite (SmoothingFacts.messages_dot st before m1) in E by congruence.
    rewrite Hq in E. destruct (Stream.queued s1); [contradiction|].
    apply app_inj_tail in E as [_ <-]. reflexivity.
  - intros pre c mid d post Ecs Hc Ht Hu Hd.
    apply Forall_app in Ht as [Hmid Ht]. apply Forall_cons in Ht as [Htd Hpost].
    set (s0 := Stream.consume init (pre ++ [c])%list).
    set (s1 := Stream.consume init (pre ++ c :: mid)%list).
    assert (E10 : s1 = Stream.consume s0 mid).
    { unfold s1, s0. rewrite <- StreamMore.consume_app, <- app_assoc. reflexivity. }
    assert (Est : st = Stream.consume (Stream.consumeChunk s1 d) post).
    { unfold st, s1. rewrite Ecs.
      change (c :: mid ++ d :: post)%list with ((c :: mid) ++ d :: post)%list.
      rewrite app_assoc, StreamMore.consume_app. reflexivity. }
    destruct (StreamMore.answer_consume (pre ++ c :: mid)%list init before m eq_refl R)
      as (m1 & E1 & R1 & _). fold s1 in E1.
    destruct (StreamMore.waiting_consume mid s0 Hmid Hu) as (_ & Hq & _).
    rewrite <- E10 in Hq.
    assert (Q1 : Stream.queued s1 <> 0%nat).
    { rewrite Hq. unfold s0. rewrite StreamMore.consume_app.
      now apply StreamMore.queued_text. }
    assert (E2 : Stream.rendered (Stream.consumeChunk s1 d) = Stream.messages s1 /\
                 Stream.queued (Stream.consumeChunk s1 d) = 0%nat).
    { unfold Stream.consumeChunk. rewrite Hd, Htd. now split. }
    destruct E2 as [E2 Q2].
    destruct (StreamMore.idle_consume post _ Q2 Hpost) as (Hr & Hq').
    rewrite <- Est in Hr, Hq'.
    unfold Stream.messages in E at 1. rewrite Hq', Hr, E2 in E. simpl in E.
    rewrite (SmoothingFacts.messages_dot s1 before m1 E1 R1) in E.
    destruct (Stream.queued s1); [contradiction|].
    apply app_inj_tail in E as [_ <-]. reflexivity.
Qed.

Lemma message_sources_as_of_last_run_witness :
  (exists m',
      Stream.messages
        (Stream.consume (Stream.enter 0 ([] ++ [Stream.streamingDot])%list)
           [Stream.slowChunk; Stream.citingChunk])
      = ([] ++ [m'])%list /\
      sources m' = [{| type := web; uri := "https://a.example"; title := "A" |}]) /\
  (exists m',
      Stream.messages
        (Stream.consume (Stream.enter 0 ([] ++ [Stream.streamingDot])%list)
           [Stream.slowChunk; Stream.lateCitingChunk])
      = ([] ++ [m'])%list /\
      sources m' = []).
Proof.
  split.
  - destruct (message_sources_as_of_last_run 0 [] Stream.streamingDot
                [Stream.slowChunk; Stream.citingChunk] eq_refl eq_refl)
      as (m' & E & _ & _ & H & _).
    exists m'. split; [exact E|].
    rewrite (H [] Stream.slowChunk [Stream.citingChunk] eq_refl eq_refl);
      [reflexivity | repeat constructor | repeat constructor].
  - destruct (message_sources_as_of_last_run 0 [] Stream.streamingDot
                [Stream.slowChunk; Stream.lateCitingChunk] eq_refl eq_refl)
      as (m' & E & _ & _ & _ & H).
    exists m'. split; [exact E|].
    rewrite (H [] Stream.slowChunk [] Stream.lateCitingChunk [] eq_refl eq_refl);
      [reflexivity | repeat constructor | constructor | reflexivity].
Defined.

(** ** Sending a message *)

Module SendMore.
Import Send.

Lemma showError_streaming e before m :
  role m = dot -> isStreaming m = true ->
  showError e (before ++ [m])%list
  = (before ++ [{| role := dot; text := errorText e; sources := sources m;
                   isStreaming := true; charDelay := charDelay m;
                   tokenCount := tokenCount m |}])%list.
Proof.
  intros R S. unfold showError. rewrite rev_app_distr. simpl.
  rewrite R, S, rev_involutive. reflexivity.
Qed.

Lemma stopStreaming_dot u before m :
  role m = dot ->
  stopStreaming u (before ++ [m])%list
  = (before ++ [{| role := dot; text := text m; sources := sources m;
                   isStreaming := false; charDelay := charDelay m;
                   tokenCount := match countedTokens u with
                                 | Some n => Some n
                                 | None => tokenCount m
                                 end |}])%list.
Proof.
  intros R. unfold stopStreaming. rewrite rev_app_distr. simpl.
  rewrite R, rev_involutive. reflexivity.
Qed.

(** The [try] block leaves the answer last, still streaming, with the
    text received so far. *)
Lemma try_messages env pending files before :
  exists m,
    triedMessages (tryBlock env pending files (before ++ [placeholder])%list)
    = (before ++ [m])%list /\
    role m = dot /\ isStreaming m = true /\
    text m = match sendMessageStream env with
             | Upload.Returned s => fold_right append "" (map Stream.textOf (chunks s))
             | Upload.Threw _ => ""
             end.
Proof.
  unfold tryBlock. destruct (sendMessageStream env) as [s|e]; simpl.
  - destruct (StreamMore.shown_consume (chunks s) (performanceNow env) before placeholder
                eq_refl) as (m & Em & R & S & _ & T & _).
    exists m. repeat split; auto.
    rewrite (T eq_refl), StreamMore.totalText_consume. reflexivity.
  - exists placeholder. now repeat split.
Qed.

Lemma filter_filter {A} (f g : A -> bool) (l : list A) :
  List.filter g (List.filter f l) = List.filter (fun x => f x && g x) l.
Proof.
  induction l as [|x l IH]; [reflexivity|]. simpl.
  destruct (f x) eqn:F; simpl; [destruct (g x); now rewrite IH | exact IH].
Qed.

Lemma fold_delete imgs : forall m : list (string * Upload.UploadedFile),
  fold_left (fun next img => delete (Upload.name img) next) imgs m
  = List.filter (fun kv => negb (existsb (fun img => String.eqb (fst kv) (Upload.name img)) imgs)) m.
Proof.
  induction imgs as [|img imgs IH]; intros m; simpl.
  - symmetry. apply forallb_filter_id. now apply forallb_forall.
  - rewrite IH. unfold delete. rewrite filter_filter.
    apply filter_ext. intros kv. now rewrite negb_orb.
Qed.

Lemma pending_by_key (m : list (string * Upload.UploadedFile)) :
  wellKeyed m ->
  forall kv, In kv m ->
    existsb (fun img => String.eqb (fst kv) (Upload.name img))
      (List.filter isPendingImage (values m))
    = isPendingImage (snd kv).
Proof.
  intros [K N] kv Hkv.
  rewrite Forall_forall in K.
  destruct (isPendingImage (snd kv)) eqn:P.
  - apply existsb_exists. exists (snd kv). split.
    + apply filter_In. split; [|exact P]. unfold values. now apply in_map.
    + apply String.eqb_eq. symmetry. apply K. now apply list_elem_of_In.
  - apply not_true_is_false. intros H. apply existsb_exists in H as (img & Hin & E).
    apply String.eqb_eq in E. apply filter_In in Hin as [Hin Pi].
    unfold values in Hin. apply in_map_iff in Hin as (kv' & <- & Hkv').
    assert (kv' = kv).
    { assert (Ek : fst kv' = fst kv).
      { rewrite E. symmetry. apply K. now apply list_elem_of_In. }
      clear - N Hkv Hkv' Ek. induction m as [|x m IH]; [destruct Hkv|].
      simpl in N. apply NoDup_cons in N as [Nx Nm].
      destruct Hkv as [->|Hkv], Hkv' as [->|Hkv']; auto.
      - exfalso. apply Nx. apply list_elem_of_In. rewrite <- Ek. now apply in_map.
      - exfalso. apply Nx. apply list_elem_of_In. rewrite Ek. now apply in_map. }
    subst kv'. congruence.
Qed.

Lemma forgetSent_filter (m : list (string * Upload.UploadedFile)) :
  wellKeyed m ->
  forgetSent (List.filter isPendingImage (values m)) m
  = List.filter (fun kv => negb (isPendingImage (snd kv))) m.
Proof.
  intros W. unfold forgetSent.
  destruct (0 <? length (List.filter isPendingImage (values m)))%nat eqn:L.
  - rewrite fold_delete. apply filter_ext_in. intros kv Hkv.
    now rewrite (pending_by_key m W kv Hkv).
  - apply Nat.ltb_ge in L. symmetry. apply forallb_filter_id. apply forallb_forall.
    intros kv Hkv. destruct (isPendingImage (snd kv)) eqn:P; [|reflexivity].
    exfalso. assert (Hin : In (snd kv) (List.filter isPendingImage (values m))).
    { apply filter_In. split; [|exact P]. unfold values. now apply in_map. }
    destruct (List.filter isPendingImage (values m)); [destruct Hin | simpl in L; lia].
Qed.

Lemma attachment_pending img :
  isPendingImage img = true ->
  exists u mime, Upload.uri img = Some u /\ Upload.mimeType img = Some mime /\
                 attachment img = [FileDataPart u mime].
Proof.
  unfold isPendingImage, attachment, truthyOption.
  destruct (Upload.status img); try discriminate.
  destruct (Upload.isImage img); [|discriminate].
  destruct (Upload.uri img) as [u|]; [|discriminate].
  destruct (Upload.mimeType img) as [mime|]; [|simpl; rewrite andb_false_r; discriminate].
  simpl. intros H. rewrite H. eauto.
Qed.

End SendMore.

(** X13.  A send that passes the guard adds exactly two messages, the
    user's and the answer, and always ends with the input cleared, the
    loading flag down and the answer no longer streaming, whether the
    request, or the stream after some chunks, failed or not. *)
Theorem send_always_settles (env : Send.Reply) (app : Send.App) :
  Send.refuses app = false ->
  let app' := fst (Send.handleSendMessage env app) in
  Send.isLoading app' = false /\ Send.userInput app' = "" /\
  exists shown answer,
    Send.messages app'
    = (Send.messages app ++ [Send.userMessage shown; answer])%list /\
    role answer = dot /\ isStreaming answer = false.
Proof.
  intros G. unfold Send.handleSendMessage. rewrite G.
  set (pending := List.filter Send.isPendingImage (Send.values (Send.uploadedFiles app))).
  set (shown := Send.displayInput (Send.userInput app) pending).
  simpl. split; [reflexivity|]. split; [reflexivity|]. exists shown.
  change (Send.messages app ++ [Send.userMessage shown; Send.placeholder])%list
    with (Send.messages app ++ [Send.userMessage shown] ++ [Send.placeholder])%list.
  rewrite app_assoc.
  destruct (SendMore.try_messages env pending (Send.uploadedFiles app)
              (Send.messages app ++ [Send.userMessage shown])%list)
    as (m & -> & R & S & _).
  destruct (Send.triedThrown _) as [e|].
  - rewrite SendMore.showError_streaming by assumption.
    rewrite SendMore.stopStreaming_dot by reflexivity.
    eexists. rewrite <- app_assoc. simpl. repeat split.
  - rewrite SendMore.stopStreaming_dot by assumption.
    eexists. rewrite <- app_assoc. simpl. repeat split.
Qed.

Module SendAnswers.
Import Send.

(** The answer as the [try] block leaves it. *)
Lemma tryBlock_answer env pending files before :
  exists m,
    triedMessages (tryBlock env pending files (before ++ [placeholder])%list)
    = (before ++ [m])%list /\
    role m = dot /\ isStreaming m = true /\ tokenCount m = None /\
    text m = match sendMessageStream env with
             | Upload.Returned s => fold_right append "" (map Stream.textOf (chunks s))
             | Upload.Threw _ => ""
             end.
Proof.
  destruct (SendMore.try_messages env pending files before) as (m & E & R & S & T).
  exists m. repeat split; auto.
  unfold tryBlock in E. destruct (sendMessageStream env) as [s|e]; simpl in E.
  - destruct (StreamMore.shown_consume (chunks s) (performanceNow env) before placeholder
                eq_refl) as (m' & E' & _ & _ & T' & _).
    rewrite E in E'. apply app_inj_tail in E' as [_ ->]. exact T'.
  - apply app_inj_tail in E as [_ <-]. reflexivity.
Qed.

Lemma triedThrown_failure env pending files msgs0 :
  triedThrown (tryBlock env pending files msgs0) = failure env.
Proof. unfold tryBlock, failure. now destruct (sendMessageStream env). Qed.

Lemma triedUsage_first env pending files msgs0 :
  triedUsage (tryBlock env pending files msgs0)
  = match sendMessageStream env with
    | Upload.Returned s => head (omap Stream.usageMetadata (chunks s))
    | Upload.Threw _ => None
    end.
Proof.
  unfold tryBlock. destruct (sendMessageStream env) as [s|e]; [|reflexivity].
  simpl. now rewrite StreamMore.usage_consume.
Qed.

(** The answer with which the handler ends. *)
Lemma final_answer env app :
  refuses app = false ->
  exists answer,
    messages (fst (handleSendMessage env app))
    = (messages app
         ++ [userMessage (displayInput (userInput app)
                            (List.filter isPendingImage (values (uploadedFiles app))));
             answer])%list /\
    text answer
    = match failure env with
      | Some e => errorText (caughtMessage e)
      | None =>
          match sendMessageStream env with
          | Upload.Returned s => fold_right append "" (map Stream.textOf (chunks s))
          | Upload.Threw _ => ""
          end
      end /\
    tokenCount answer
    = match sendMessageStream env with
      | Upload.Returned s => countedTokens (head (omap Stream.usageMetadata (chunks s)))
      | Upload.Threw _ => None
      end.
Proof.
  intros G. unfold handleSendMessage. rewrite G.
  set (pending := List.filter isPendingImage (values (uploadedFiles app))).
  set (shown := displayInput (userInput app) pending).
  simpl.
  change (messages app ++ [userMessage shown; placeholder])%list
    with (messages app ++ [userMessage shown] ++ [placeholder])%list.
  rewrite app_assoc, triedThrown_failure, triedUsage_first.
  destruct (tryBlock_answer env pending (uploadedFiles app)
              (messages app ++ [userMessage shown])%list)
    as (m & -> & R & S & K & T).
  assert (C : match countedTokens
                      match sendMessageStream env with
                      | Upload.Returned s => head (omap Stream.usageMetadata (chunks s))
                      | Upload.Threw _ => None
                      end
              with
              | Some n => Some n
              | None => None
              end
              = match sendMessageStream env with
                | Upload.Returned s =>
                    countedTokens (head (omap Stream.usageMetadata (chunks s)))
                | Upload.Threw _ => None
                end).
  { destruct (sendMessageStream env) as [s|e]; [|reflexivity].
    now destruct (countedTokens _). }
  destruct (failure env) as [e|].
  - rewrite SendMore.showError_streaming by assumption.
    rewrite SendMore.stopStreaming_dot by reflexivity.
    eexists. rewrite <- app_assoc. simpl. rewrite K. split; [reflexivity|].
    split; [reflexivity | exact C].
  - rewrite SendMore.stopStreaming_dot by assumption.
    eexists. rewrite <- app_assoc. simpl. rewrite K. split; [reflexivity|].
    split; [exact T | exact C].
Qed.

End SendAnswers.

(** X14.  When the request or the stream fails, the answer shows
    "error lol: " and the message of the error (a fixed text for a thrown
    value that is not an [Error]) in place of whatever text had been
    received; otherwise it shows the concatenation of the chunk texts. *)
Theorem answer_text_or_error (env : Send.Reply) (app : Send.App) :
  Send.refuses app = false ->
  exists before answer,
    Send.messages (fst (Send.handleSendMessage env app)) = (before ++ [answer])%list /\
    text answer
    = match Send.failure env with
      | Some (Upload.ErrorObject _ message) => "error lol: " ++ message
      | Some (Upload.OtherValue _ _) => "error lol: An unknown error occurred."
      | None =>
          match Send.sendMessageStream env with
          | Upload.Returned s => fold_right append "" (map Stream.textOf (Send.chunks s))
          | Upload.Threw _ => ""
          end
      end.
Proof.
  intros G. destruct (SendAnswers.final_answer env app G) as (answer & E & T & _).
  eexists _, answer. split.
  - rewrite E.
    change [?a; answer] with ([a] ++ [answer])%list. now rewrite app_assoc.
  - rewrite T. destruct (Send.failure env) as [[n m|j s]|]; reflexivity.
Qed.

(** X15.  The token count of the answer is the [totalTokenCount] of
    the first chunk that carried usage metadata, when that count is
    there and not zero; otherwise the answer has none. *)
Theorem answer_token_count (env : Send.Reply) (app : Send.App) :
  Send.refuses app = false ->
  exists before answer,
    Send.messages (fst (Send.handleSendMessage env app)) = (before ++ [answer])%list /\
    tokenCount answer
    = match Send.sendMessageStream env with
      | Upload.Returned s =>
          match head (omap Stream.usageMetadata (Send.chunks s)) with
          | Some {| Stream.totalTokenCount := Some n |} =>
              if (n =? 0)%Z then None else Some n
          | _ => None
          end
      | Upload.Threw _ => None
      end.
Proof.
  intros G. destruct (SendAnswers.final_answer env app G) as (answer & E & _ & T).
  eexists _, answer. split.
  - rewrite E.
    change [?a; answer] with ([a] ++ [answer])%list. now rewrite app_assoc.
  - exact T.
Qed.

(** X16.  When the request goes through, exactly the ready images are
    removed from the map and the other entries keep their order; when it
    throws, the map is left as it was. *)
Theorem sent_images_are_forgotten (env : Send.Reply) (app : Send.App) :
  Send.refuses app = false -> Send.wellKeyed (Send.uploadedFiles app) ->
  Send.uploadedFiles (fst (Send.handleSendMessage env app))
  = match Send.sendMessageStream env with
    | Upload.Returned _ =>
        List.filter (fun kv => negb (Send.isPendingImage (snd kv))) (Send.uploadedFiles app)
    | Upload.Threw _ => Send.uploadedFiles app
    end.
Proof.
  intros G W. unfold Send.handleSendMessage. rewrite G. simpl.
  unfold Send.tryBlock. destruct (Send.sendMessageStream env); [|reflexivity].
  simpl. now apply SendMore.forgetSent_filter.
Qed.

(** X17.  The payload is the plain input when no image is ready;
    otherwise it is the input followed by one file part for each ready
    image, in the order of the map, with the uri and the mimeType of
    that image. *)
Theorem payload_attaches_ready_images (env : Send.Reply) (app : Send.App) :
  Send.refuses app = false ->
  let pending := List.filter Send.isPendingImage (Send.values (Send.uploadedFiles app)) in
  match pending with
  | [] => snd (Send.handleSendMessage env app) = Some (Send.Plain (Send.userInput app))
  | _ :: _ =>
      exists files,
        snd (Send.handleSendMessage env app)
        = Some (Send.Parts (Send.TextPart (Send.userInput app) :: files)) /\
        Forall2 (fun img part =>
                   exists u mime, Upload.uri img = Some u /\ Upload.mimeType img = Some mime /\
                                  part = Send.FileDataPart u mime)
          pending files
  end.
Proof.
  intros G pending. unfold Send.handleSendMessage. rewrite G. fold pending. simpl.
  assert (P : Forall (fun img => Send.isPendingImage img = true) pending).
  { apply Forall_forall. intros img Hin. apply list_elem_of_In in Hin.
    now apply filter_In in Hin as [_ Hin]. }
  unfold Send.messagePayload. destruct pending as [|img imgs]; [reflexivity|].
  eexists. split; [reflexivity|].
  induction P as [|x l Px _ IH]; [constructor|].
  destruct (SendMore.attachment_pending x Px) as (u & mime & U & M & E).
  simpl. rewrite E. simpl. constructor; [eauto | exact IH].
Qed.

(** ** The upload pipeline, continued *)

Module UploadMore.
Import Upload UploadSpec.
Local Open Scope list_scope.

(** *** What an iteration writes to the map *)

Lemma sameAt_refl key st : sameAt key st st.
Proof. reflexivity. Qed.

Lemma sameAt_trans key a b c : sameAt key a b -> sameAt key b c -> sameAt key a c.
Proof. unfold sameAt. congruence. Qed.

Lemma sameAt_ensureStore key k r : preserves (sameAt key) (ensureStore k r).
Proof.
  apply UploadFacts.preserves_ensureStore with (allowed := fun _ => True);
    try solve [ eauto using sameAt_refl, sameAt_trans | intros; reflexivity | exact I ].
Qed.

(** An iteration leaves the entries under other names alone,
    however it ends. *)
Lemma sameAt_processFile fuel key k f r :
  key <> fileName f -> preserves (sameAt key) (processFile fuel k f r).
Proof.
  intros Hk. apply UploadFacts.preserves_processFile with (allowed := fun _ => True);
    try solve [ eauto using sameAt_refl, sameAt_trans, sameAt_ensureStore
              | intros; reflexivity
              | intros; exact I
              | intros; unfold sameAt; simpl; now rewrite lookup_insert_ne by auto ].
Qed.

Lemma sameAt_processFiles fuel key fs k :
  ~ In key (map (fun fr => fileName (fst fr)) fs) ->
  preserves (sameAt key) (processFiles fuel k fs).
Proof.
  intros Hk. revert k.
  apply UploadFacts.preserves_processFiles; eauto using sameAt_refl, sameAt_trans.
  intros k f r Hin. apply sameAt_processFile. intros ->. apply Hk.
  apply in_map_iff. now exists (f, r).
Qed.

Lemma staysKeyed_refl st : staysKeyed st st.
Proof. now intros K. Qed.

Lemma staysKeyed_trans a b c : staysKeyed a b -> staysKeyed b c -> staysKeyed a c.
Proof. unfold staysKeyed. auto. Qed.

Lemma staysKeyed_setEntry key v st : name v = key -> staysKeyed st (setEntry key v st).
Proof.
  intros Hn K k e He. simpl in He. destruct (decide (k = key)) as [->|Hne].
  - rewrite lookup_insert_eq in He. now injection He as <-.
  - rewrite lookup_insert_ne in He by auto. now apply K.
Qed.

Lemma staysKeyed_ensureStore k r : preserves staysKeyed (ensureStore k r).
Proof.
  apply UploadFacts.preserves_ensureStore with (allowed := fun _ => True);
    try solve [ eauto using staysKeyed_refl, staysKeyed_trans
              | intros; now intros K
              | exact I ].
Qed.

(** An iteration keeps the map keyed by name, however it ends. *)
Lemma staysKeyed_processFile fuel k f r : preserves staysKeyed (processFile fuel k f r).
Proof.
  apply UploadFacts.preserves_processFile with (allowed := fun _ => True);
    try solve [ eauto using staysKeyed_refl, staysKeyed_trans, staysKeyed_ensureStore
              | intros; now apply staysKeyed_setEntry
              | intros; now intros K
              | intros; exact I ].
Qed.

Lemma staysKeyed_processFiles fuel fs k : preserves staysKeyed (processFiles fuel k fs).
Proof.
  revert k. apply UploadFacts.preserves_processFiles;
    eauto using staysKeyed_refl, staysKeyed_trans, staysKeyed_processFile.
Qed.

Lemma returnsReady_bind key {A B} (m : M A) (g : A -> M B) :
  (forall a, returnsReady key (g a)) -> returnsReady key (bind m g).
Proof.
  intros Hg st b st2 E. unfold bind in E.
  destruct (m st) as [[[a|e]|] st1]; [|discriminate|discriminate]. exact (Hg a st1 b st2 E).
Qed.

Lemma returnsReady_throw key {A} e : returnsReady key (@throw A e).
Proof. intros st a st1 E. discriminate. Qed.

Lemma returnsReady_finish key v :
  status v = ready -> name v = key ->
  returnsReady key (bind (modify (setEntry key v)) (fun _ => modify countSuccess)).
Proof.
  intros H N st a st1 E. injection E as _ <-. exists v. simpl.
  now rewrite lookup_insert_eq.
Qed.

Lemma returnsReady_fileBody fuel k f r : returnsReady (fileName f) (fileBody fuel k f r).
Proof.
  unfold fileBody, afterUpload. apply returnsReady_bind. intros u.
  destruct (remoteMimeType u) as [mime|]; [|apply returnsReady_throw].
  destruct (startsWith mime "image/"); unfold acceptImage, importDocument.
  - now apply returnsReady_finish.
  - do 5 (apply returnsReady_bind; intros ?). now apply returnsReady_finish.
Qed.

Lemma fileCatch_returned f e st :
  fst (fileCatch f e st) = Some (Returned tt) ->
  uploadedFiles (snd (fileCatch f e st)) !! fileName f = Some (entry (fileName f) failed).
Proof.
  unfold fileCatch, bind, modify, lift. simpl.
  destruct (errorMessage e) as [[m|]|t]; simpl; try discriminate.
  destruct (includes m "Requested entity was not found"); simpl; intros _;
    now rewrite lookup_insert_eq.
Qed.

(** An iteration that ends normally has settled the entry of its
    file. *)
Lemma processFile_settles fuel k f r st :
  fst (processFile fuel k f r st) = Some (Returned tt) ->
  exists e, uploadedFiles (snd (processFile fuel k f r st)) !! fileName f = Some e /\
            settled e.
Proof.
  pose proof (returnsReady_fileBody fuel k f r st) as R.
  unfold processFile, tryCatch.
  destruct (fileBody fuel k f r st) as [[[a|e]|] st1]; simpl.
  - intros _. destruct (R a st1 eq_refl) as (e & He & Hs & _). exists e. split; [exact He|].
    now left.
  - intros H. exists (entry (fileName f) failed). split; [now apply fileCatch_returned|].
    now right.
  - discriminate.
Qed.

(** A loop that runs to its end has settled the entry of every file
    of the batch. *)
Lemma processFiles_settles fuel fs : forall k st,
  fst (processFiles fuel k fs st) = Some (Returned tt) ->
  forall f r, In (f, r) fs ->
    exists e, uploadedFiles (snd (processFiles fuel k fs st)) !! fileName f = Some e /\
              settled e.
Proof.
  induction fs as [|[f0 r0] fs IH]; intros k st H f r Hin; [destruct Hin|].
  simpl in *. unfold bind in *.
  pose proof (processFile_settles fuel k f0 r0 st) as S0.
  destruct (processFile fuel k f0 r0 st) as [[[[]|e]|] st1]; try discriminate H.
  simpl in S0.
  destruct (in_dec string_dec (fileName f) (map (fun fr => fileName (fst fr)) fs))
    as [Hd|Hd].
  - apply in_map_iff in Hd as ([f' r'] & Ef & Hin'). simpl in Ef.
    rewrite <- Ef. now apply (IH (S k) st1 H f' r').
  - destruct Hin as [[= -> ->]|Hin].
    + rewrite (sameAt_processFiles fuel (fileName f) fs (S k) Hd st1). now apply S0.
    + exfalso. apply Hd. apply in_map_iff. now exists (f, r).
Qed.

(** *** The two updaters of the handler *)

Lemma markUploading_out fs : forall (m : gmap string UploadedFile) key,
  ~ In key (map fileName fs) -> markUploading fs m !! key = m !! key.
Proof.
  induction fs as [|f fs IH]; intros m key H; [reflexivity|].
  unfold markUploading in *. simpl in *. rewrite IH by tauto.
  apply lookup_insert_ne. tauto.
Qed.

Lemma markUploading_in fs : forall (m : gmap string UploadedFile) key,
  In key (map fileName fs) -> markUploading fs m !! key = Some (entry key uploading).
Proof.
  induction fs as [|f fs IH]; intros m key H; [destruct H|].
  destruct (in_dec string_dec key (map fileName fs)) as [Hin|Hout].
  - unfold markUploading in *. simpl. now apply IH.
  - destruct H as [<-|H]; [|contradiction].
    change (markUploading (f :: fs) m)
      with (markUploading fs (<[fileName f := entry (fileName f) uploading]> m)).
    rewrite markUploading_out by exact Hout. apply lookup_insert_eq.
Qed.

(** What the batch-level [catch] makes of one entry. *)
Lemma failStillUploading_step f (m : gmap string UploadedFile) key :
  (match m !! fileName f with
   | Some e => match status e with
               | uploading => <[fileName f := entry (fileName f) failed]> m
               | _ => m
               end
   | None => m
   end) !! key
  = if String.eqb key (fileName f) then
      match m !! key with
      | Some e => match status e with
                  | uploading => Some (entry key failed)
                  | _ => Some e
                  end
      | None => None
      end
    else m !! key.
Proof.
  destruct (String.eqb_spec key (fileName f)) as [->|Hne].
  - destruct (m !! fileName f) as [e|] eqn:E; [|now rewrite E].
    destruct (status e); rewrite ?lookup_insert_eq, ?E; reflexivity.
  - destruct (m !! fileName f) as [e|] eqn:E; [|reflexivity].
    destruct (status e); rewrite ?lookup_insert_ne by auto; reflexivity.
Qed.

Lemma failStillUploading_out fs : forall (m : gmap string UploadedFile) key,
  ~ In key (map fileName fs) -> failStillUploading fs m !! key = m !! key.
Proof.
  induction fs as [|f fs IH]; intros m key H; [reflexivity|].
  unfold failStillUploading in *. simpl in *. rewrite IH by tauto.
  rewrite failStillUploading_step.
  destruct (String.eqb_spec key (fileName f)) as [->|_]; [tauto | reflexivity].
Qed.

Lemma failStillUploading_in fs : forall (m : gmap string UploadedFile) key,
  In key (map fileName fs) ->
  failStillUploading fs m !! key
  = match m !! key with
    | Some e => match status e with
                | uploading => Some (entry key failed)
                | _ => Some e
                end
    | None => None
    end.
Proof.
  induction fs as [|f fs IH]; intros m key H; [destruct H|].
  change (failStillUploading (f :: fs) m)
    with (failStillUploading fs
            (match m !! fileName f with
             | Some e => match status e with
                         | uploading => <[fileName f := entry (fileName f) failed]> m
                         | _ => m
                         end
             | None => m
             end)).
  destruct (in_dec string_dec key (map fileName fs)) as [Hin|Hout].
  - rewrite IH by exact Hin. rewrite failStillUploading_step.
    destruct (String.eqb key (fileName f)); [|reflexivity].
    destruct (m !! key) as [e|]; [|reflexivity].
    destruct (status e) eqn:S; simpl; rewrite ?S; reflexivity.
  - rewrite failStillUploading_out by exact Hout. rewrite failStillUploading_step.
    destruct H as [<-|H]; [|contradiction]. now rewrite String.eqb_refl.
Qed.

Lemma keyed_markUploading fs (m : gmap string UploadedFile) :
  keyed m -> keyed (markUploading fs m).
Proof.
  intros K key e He.
  destruct (in_dec string_dec key (map fileName fs)) as [Hin|Hout].
  - rewrite markUploading_in in He by exact Hin. now injection He as <-.
  - rewrite markUploading_out in He by exact Hout. now apply K.
Qed.

Lemma keyed_failStillUploading fs (m : gmap string UploadedFile) :
  keyed m -> keyed (failStillUploading fs m).
Proof.
  intros K key e He.
  destruct (in_dec string_dec key (map fileName fs)) as [Hin|Hout].
  - rewrite failStillUploading_in in He by exact Hin.
    destruct (m !! key) as [e0|] eqn:E0; [|discriminate].
    destruct (status e0); injection He as <-; auto; now apply K.
  - rewrite failStillUploading_out in He by exact Hout. now apply K.
Qed.

(** *** The map the handler leaves *)

Lemma names_of_batch (fs : list (File * Remote)) key :
  In key (map fileName (map fst fs)) <-> In key (map (fun fr => fileName (fst fr)) fs).
Proof. now rewrite map_map. Qed.

Lemma finish_map b app msgs st :
  appUploadedFiles (finish b app msgs st) = uploadedFiles st /\
  appFileSearchStore (finish b app msgs st) = fileSearchStore st /\
  isUploading (finish b app msgs st) = false.
Proof.
  unfold finish. destruct (reportSuccesses _ _ _ _) as [msgs1 chat1].
  destruct (reportFailures _ _ _ _ _) as [[msgs2 err] selected]. now repeat split.
Qed.

(** The map after a batch that is not empty, whatever way the
    handler took: the map in which the files were marked, as the loop
    left it where it ran, and as the batch-level [catch] left it where
    that ran. *)
Lemma handled_map fuel b app :
  files b <> [] ->
  let marked := markUploading (map fst (files b)) (appUploadedFiles app) in
  exists m,
    (forall key, ~ In key (map fileName (map fst (files b))) -> m !! key = marked !! key) /\
    (keyed marked -> keyed m) /\
    (appUploadedFiles (fst (handleFileSelect fuel b app)) = m \/
     appUploadedFiles (fst (handleFileSelect fuel b app))
     = failStillUploading (map fst (files b)) m).
Proof.
  intros H. cbv zeta. unfold handleFileSelect.
  destruct (files b) as [|x fs] eqn:F; [contradiction|]. rewrite <- F.
  cbv zeta. set (marked := markUploading (map fst (files b)) (appUploadedFiles app)).
  destruct (start b app) as [[msgs tr] [store|e]].
  - unfold loop. fold marked. set (init := enterLoop store store marked tr).
    pose proof (staysKeyed_processFiles fuel (files b) 0 init) as K.
    assert (O : forall key, ~ In key (map fileName (map fst (files b))) ->
                uploadedFiles (snd (processFiles fuel 0 (files b) init)) !! key
                = marked !! key).
    { intros key Hk. rewrite names_of_batch in Hk.
      apply (sameAt_processFiles fuel key (files b) 0 Hk init). }
    exists (uploadedFiles (snd (processFiles fuel 0 (files b) init))).
    split; [exact O|]. split; [exact K|].
    destruct (processFiles fuel 0 (files b) init) as [[[[]|e]|] st]; simpl.
    + left. apply finish_map.
    + now right.
    + now left.
  - exists marked. split; [reflexivity|]. split; [auto|]. now right.
Qed.

(** *** A named store is reused *)

Lemma reusesStore_refl st : reusesStore st st.
Proof. intros _. repeat split. exists []. now rewrite app_nil_r. Qed.

Lemma reusesStore_trans a b c : reusesStore a b -> reusesStore b c -> reusesStore a c.
Proof.
  intros Hab Hbc H. destruct (Hab H) as (C1 & F1 & s1 & T1 & N1).
  rewrite <- C1 in H. destruct (Hbc H) as (C2 & F2 & s2 & T2 & N2).
  split; [congruence|]. split; [congruence|].
  exists (s1 ++ s2). rewrite T2, T1, app_assoc. split; [reflexivity|].
  apply Forall_app. now split.
Qed.

Lemma reusesStore_same st st' :
  currentStore st' = currentStore st -> fileSearchStore st' = fileSearchStore st ->
  trace st' = trace st -> reusesStore st st'.
Proof.
  intros C F T _. split; [exact C|]. split; [exact F|].
  exists []. rewrite T. now rewrite app_nil_r.
Qed.

Lemma reusesStore_request k r st :
  r <> CreateStore -> reusesStore st (emit (Settled k r) (emit (Issued k r) st)).
Proof.
  intros Hr _. repeat split. exists [Issued k r; Settled k r]. split.
  - simpl. now rewrite <- app_assoc.
  - repeat constructor; simpl; auto. now destruct r.
Qed.

Lemma reusesStore_sleep k st : reusesStore st (emit (Slept k 1000) st).
Proof. intros _. repeat split. exists [Slept k 1000]. split; [reflexivity | now repeat constructor]. Qed.

(** With a named store the defensive check of line 272 creates
    nothing. *)
Lemma reusesStore_ensureStore k r : preserves reusesStore (ensureStore k r).
Proof.
  intros st H. unfold ensureStore, bind, read. simpl. rewrite H. simpl.
  repeat split. exists []. now rewrite app_nil_r.
Qed.

Lemma reusesStore_processFile fuel k f r : preserves reusesStore (processFile fuel k f r).
Proof.
  apply UploadFacts.preserves_processFile with (allowed := fun q => q <> CreateStore);
    try solve [ eauto using reusesStore_refl, reusesStore_trans, reusesStore_request,
                  reusesStore_sleep, reusesStore_ensureStore
              | intros; now apply reusesStore_same
              | intros; discriminate ].
Qed.

Lemma reusesStore_processFiles fuel fs k : preserves reusesStore (processFiles fuel k fs).
Proof.
  revert k. apply UploadFacts.preserves_processFiles;
    eauto using reusesStore_refl, reusesStore_trans, reusesStore_processFile.
Qed.

Lemma start_stored b app s :
  appFileSearchStore app = Some s ->
  start b app
  = (say ("uploading " ++ count (length (map fst (files b))) ++ " file(s)...")%string
       (messages app), [], Returned (Some s)).
Proof.
  intros H. unfold start. rewrite H.
  now destruct (filter isDocument (map fst (files b))).
Qed.

(** *** Batches that complete *)

Lemma catchable_message e :
  catchable e = true -> exists message, errorMessage e = Returned (Some message).
Proof. destruct e as [n m|[j| |t] s]; simpl; intros H; try discriminate; eauto. Qed.

Lemma endsCaught_ret {A} (a : A) : endsCaught (ret a).
Proof. now intros st. Qed.

Lemma endsCaught_read {A} (g : Loop -> A) : endsCaught (read g).
Proof. now intros st. Qed.

Lemma endsCaught_modify g : endsCaught (modify g).
Proof. now intros st. Qed.

Lemma endsCaught_throw {A} e : catchable e = true -> endsCaught (@throw A e).
Proof. now intros H st. Qed.

Lemma endsCaught_bind {A B} (m : M A) (g : A -> M B) :
  endsCaught m -> (forall a, endsCaught (g a)) -> endsCaught (bind m g).
Proof.
  intros Hm Hg st. unfold bind. pose proof (Hm st) as H1.
  destruct (m st) as [[[a|e]|] st1]; simpl in *; [apply Hg | exact H1 | exact H1].
Qed.

Lemma endsCaught_await {A} k r (answer : Outcome A) :
  caught answer = true -> endsCaught (await k r answer).
Proof. intros H st. unfold await, bind, modify, lift. simpl. now destruct answer. Qed.

Lemma endsCaught_poll fuel k operation : forall round isDone,
  endsWithin fuel operation round isDone = true ->
  endsCaught (poll fuel k operation round isDone).
Proof.
  induction fuel as [|fuel IH]; intros round [|] H; simpl in *;
    try apply endsCaught_ret; try discriminate H.
  apply endsCaught_bind; [apply endsCaught_modify|]. intros _ st.
  unfold bind, await, modify, lift.
  destruct (polled operation round) as [next|e]; simpl; [|exact H].
  now apply IH.
Qed.

Lemma endsCaught_await_then {A B} k r (answer : Outcome A) (g : A -> M B) :
  match answer with
  | Returned a => endsCaught (g a)
  | Threw e => catchable e = true
  end ->
  endsCaught (bind (await k r answer) g).
Proof.
  intros H st. unfold bind, await, modify, lift.
  destruct answer; simpl; [apply H | exact H].
Qed.

Lemma endsCaught_ensureStore k r :
  caught (createStore r) = true -> endsCaught (ensureStore k r).
Proof.
  intros H. unfold ensureStore. apply endsCaught_bind; [apply endsCaught_read|].
  intros current. destruct (hasName current); [apply endsCaught_ret|].
  apply endsCaught_bind; [now apply endsCaught_await | intros s; apply endsCaught_modify].
Qed.

Lemma endsCaught_fileBody fuel k f r :
  tractable fuel r = true -> endsCaught (fileBody fuel k f r).
Proof.
  unfold tractable. intros H. apply andb_prop in H as [H Hi]. apply andb_prop in H as [Hu Hc].
  unfold fileBody. apply endsCaught_await_then.
  destruct (upload r) as [u|e]; [|exact Hu]. unfold afterUpload.
  destruct (remoteMimeType u) as [mime|]; [|now apply endsCaught_throw].
  destruct (startsWith mime "image/"); unfold acceptImage, importDocument.
  - apply endsCaught_bind; [apply endsCaught_modify | intros _; apply endsCaught_modify].
  - apply endsCaught_bind; [now apply endsCaught_ensureStore|]. intros _.
    apply endsCaught_bind; [apply endsCaught_modify|]. intros _.
    apply endsCaught_bind; [apply endsCaught_read|]. intros current.
    apply endsCaught_await_then. destruct (importFile r) as [operation|e]; [|exact Hi].
    apply endsCaught_bind; [now apply endsCaught_poll|]. intros _.
    apply endsCaught_bind; [apply endsCaught_modify | intros _; apply endsCaught_modify].
Qed.

Lemma processFile_completes fuel k f r st :
  tractable fuel r = true -> fst (processFile fuel k f r st) = Some (Returned tt).
Proof.
  intros H. pose proof (endsCaught_fileBody fuel k f r H st) as E.
  unfold processFile, tryCatch.
  destruct (fileBody fuel k f r st) as [[[[]|e]|] st1]; simpl in *;
    [reflexivity | | contradiction].
  destruct (catchable_message e E) as (message & Em).
  now destruct (UploadFacts.fileCatch_gets_through f e st1 message Em).
Qed.

Lemma processFiles_completes fuel fs : forall k st,
  Forall (fun fr => tractable fuel (snd fr) = true) fs ->
  fst (processFiles fuel k fs st) = Some (Returned tt).
Proof.
  induction fs as [|[f r] fs IH]; intros k st H; [reflexivity|].
  apply Forall_cons in H as [Hr H]. simpl in *. unfold bind.
  pose proof (processFile_completes fuel k f r st Hr) as E.
  destruct (processFile fuel k f r st) as [[[[]|e]|] st1]; try discriminate E.
  now apply IH.
Qed.

(** *** Observing for longer *)

Lemma prolongs_refl {A} (m : M A) : prolongs m m.
Proof. now intros st o st1 E. Qed.

Lemma prolongs_bind {A B} (m m' : M A) (g g' : A -> M B) :
  prolongs m m' -> (forall a, prolongs (g a) (g' a)) -> prolongs (bind m g) (bind m' g').
Proof.
  intros Hm Hg st o st2 E. unfold bind in *.
  destruct (m st) as [[[a|e]|] st1] eqn:Em; [| |discriminate E];
    rewrite (Hm _ _ _ Em); [now apply Hg | exact E].
Qed.

Lemma prolongs_tryCatch {A} (m m' : M A) (h : Thrown -> M A) :
  prolongs m m' -> prolongs (tryCatch m h) (tryCatch m' h).
Proof.
  intros Hm st o st2 E. unfold tryCatch in *.
  destruct (m st) as [[[a|e]|] st1] eqn:Em; [| |discriminate E];
    now rewrite (Hm _ _ _ Em).
Qed.

Lemma poll_done fuel k operation round : poll fuel k operation round true = ret tt.
Proof. now destruct fuel. Qed.

Lemma prolongs_poll extra k operation fuel : forall round isDone,
  prolongs (poll fuel k operation round isDone) (poll (fuel + extra) k operation round isDone).
Proof.
  induction fuel as [|fuel IH]; intros round [|]; rewrite ?poll_done;
    try apply prolongs_refl.
  - intros st o st1 E. discriminate E.
  - simpl. apply prolongs_bind; [apply prolongs_refl|]. intros _.
    apply prolongs_bind; [apply prolongs_refl|]. intros next. apply IH.
Qed.

Lemma prolongs_processFile extra fuel k f r :
  prolongs (processFile fuel k f r) (processFile (fuel + extra) k f r).
Proof.
  unfold processFile, fileBody. apply prolongs_tryCatch.
  apply prolongs_bind; [apply prolongs_refl|]. intros u. unfold afterUpload.
  destruct (remoteMimeType u) as [mime|]; [|apply prolongs_refl].
  destruct (startsWith mime "image/"); [apply prolongs_refl|]. unfold importDocument.
  do 4 (apply prolongs_bind; [apply prolongs_refl|]; intros ?).
  apply prolongs_bind; [apply prolongs_poll | intros _; apply prolongs_refl].
Qed.

Lemma prolongs_processFiles extra fuel fs : forall k,
  prolongs (processFiles fuel k fs) (processFiles (fuel + extra) k fs).
Proof.
  induction fs as [|[f r] fs IH]; intros k; simpl; [apply prolongs_refl|].
  apply prolongs_bind; [apply prolongs_processFile | intros _; apply IH].
Qed.

(** *** An import that never reports [done] *)



End UploadMore.
(** X18.  After a batch whose loop has run to its end, no file of it
    is left in progress: the entry under the name of each file exists
    and is [ready] or [failed]. *)
Theorem batch_leaves_no_file_in_progress
    (fuel : nat) (b : Upload.Batch) (app : Upload.App)
    (msgs : list Message) (tr : list Upload.Event) (store : option Upload.FileSearchStore)
    (f : Upload.File) (r : Upload.Remote) :
  Upload.start b app = (msgs, tr, Upload.Returned store) ->
  fst (Upload.loop fuel b app store tr) = Some (Upload.Returned tt) ->
  In (f, r) (Upload.files b) ->
  exists e,
    Upload.appUploadedFiles (fst (Upload.handleFileSelect fuel b app)) !! Upload.fileName f
    = Some e /\
    (Upload.status e = Upload.ready \/ Upload.status e = Upload.failed).
Proof.
  intros Hs Hl Hin. unfold Upload.handleFileSelect.
  destruct (Upload.files b) as [|x fs] eqn:F; [destruct Hin|]. rewrite <- F in *.
  rewrite Hs. pose proof (UploadMore.processFiles_settles fuel (Upload.files b) 0
                            (Upload.enterLoop store store
                               (Upload.markUploading (map fst (Upload.files b))
                                  (Upload.appUploadedFiles app)) tr)) as S.
  unfold Upload.loop in *.
  destruct (Upload.processFiles fuel 0 (Upload.files b) _) as [o st]. simpl in Hl. subst o.
  simpl. rewrite (proj1 (UploadMore.finish_map b app msgs st)).
  now apply (S eq_refl f r).
Qed.

Lemma batch_leaves_no_file_in_progress_witness :
  exists e,
    Upload.appUploadedFiles
      (fst (Upload.handleFileSelect 1
              (Upload.sampleBatch [Upload.sampleDocument; Upload.sampleRefused] true)
              Upload.sampleApp))
    !! "plan.txt"
    = Some e /\
    (Upload.status e = Upload.ready \/ Upload.status e = Upload.failed).
Proof.
  refine (batch_leaves_no_file_in_progress 1
            (Upload.sampleBatch [Upload.sampleDocument; Upload.sampleRefused] true)
            Upload.sampleApp _ _ _ (fst Upload.sampleRefused) (snd Upload.sampleRefused)
            _ _ _).
  - reflexivity.
  - vm_compute. reflexivity.
  - simpl. right. left. reflexivity.
Defined.

(** X19.  A batch touches the entries of its own files only: an entry
    under a name that no file of the batch has is left exactly as it
    was, whatever way the handler takes and however long it is
    observed. *)
Theorem batch_leaves_other_entries
    (fuel : nat) (b : Upload.Batch) (app : Upload.App) (key : string) :
  ~ In key (map Upload.fileName (map fst (Upload.files b))) ->
  Upload.appUploadedFiles (fst (Upload.handleFileSelect fuel b app)) !! key
  = Upload.appUploadedFiles app !! key.
Proof.
  intros Hout. destruct (Upload.files b) as [|x fs] eqn:F.
  - unfold Upload.handleFileSelect. now rewrite F.
  - rewrite <- F in *.
    assert (Hne : Upload.files b <> []) by (rewrite F; discriminate).
    destruct (UploadMore.handled_map fuel b app Hne) as (m & O & _ & [-> | ->]).
    + rewrite O by exact Hout. now apply UploadMore.markUploading_out.
    + rewrite UploadMore.failStillUploading_out, O by exact Hout.
      now apply UploadMore.markUploading_out.
Qed.

Lemma batch_leaves_other_entries_witness :
  Upload.appUploadedFiles
    (fst (Upload.handleFileSelect 1
            (Upload.sampleBatch [Upload.sampleDocument; Upload.sampleRefused] true)
            UploadSpec.appWithImage))
  !! "cat.png"
  = Upload.appUploadedFiles UploadSpec.appWithImage !! "cat.png".
Proof.
  apply (batch_leaves_other_entries 1
           (Upload.sampleBatch [Upload.sampleDocument; Upload.sampleRefused] true)
           UploadSpec.appWithImage "cat.png").
  simpl. intros [H|[H|[]]]; discriminate H.
Defined.

(** X20.  The handler keeps the map keyed by name: if every entry was
    stored under its own name before a batch, every entry is after it,
    whatever way the handler takes and however long it is observed. *)
Theorem batch_keeps_map_keyed (fuel : nat) (b : Upload.Batch) (app : Upload.App) :
  UploadSpec.keyed (Upload.appUploadedFiles app) ->
  UploadSpec.keyed (Upload.appUploadedFiles (fst (Upload.handleFileSelect fuel b app))).
Proof.
  intros K. destruct (Upload.files b) as [|x fs] eqn:F.
  - unfold Upload.handleFileSelect. now rewrite F.
  - assert (Hne : Upload.files b <> []) by (rewrite F; discriminate).
    destruct (UploadMore.handled_map fuel b app Hne) as (m & _ & Km & [-> | ->]).
    + now apply Km, UploadMore.keyed_markUploading.
    + now apply UploadMore.keyed_failStillUploading, Km, UploadMore.keyed_markUploading.
Qed.

Lemma batch_keeps_map_keyed_witness :
  UploadSpec.keyed
    (Upload.appUploadedFiles
       (fst (Upload.handleFileSelect 1
               (Upload.sampleBatch [Upload.sampleDocument; Upload.sampleRefused] true)
               UploadSpec.appWithImage))).
Proof.
  apply (batch_keeps_map_keyed 1
           (Upload.sampleBatch [Upload.sampleDocument; Upload.sampleRefused] true)
           UploadSpec.appWithImage).
  intros k e H. simpl in H. apply lookup_singleton_Some in H as [<- <-]. reflexivity.
Defined.

(** X21.  When the component already holds a store with a name, a
    batch issues no store creation at all, keeps that store, and leaves
    the chat session as it was. *)
Theorem named_store_is_reused
    (fuel : nat) (b : Upload.Batch) (app : Upload.App) (s : Upload.FileSearchStore) :
  Upload.appFileSearchStore app = Some s ->
  Upload.hasName (Some s) = true ->
  Forall (fun e => ~ UploadSpec.isCreateStore e) (snd (Upload.handleFileSelect fuel b app)) /\
  Upload.appFileSearchStore (fst (Upload.handleFileSelect fuel b app)) = Some s /\
  Upload.chat (fst (Upload.handleFileSelect fuel b app)) = Upload.chat app.
Proof.
  intros Hs Hn. unfold Upload.handleFileSelect.
  destruct (Upload.files b) as [|x fs] eqn:F; [now repeat split|].
  rewrite <- F. rewrite (UploadMore.start_stored b app s Hs).
  set (msgs0 := Upload.say _ _). cbv zeta. unfold Upload.loop.
  set (init := Upload.enterLoop (Some s) (Some s) _ []).
  destruct (UploadMore.reusesStore_processFiles fuel (Upload.files b) 0 init Hn)
    as (C & S & seg & T & N).
  simpl in T, S.
  destruct (Upload.processFiles fuel 0 (Upload.files b) init) as [[[[]|e]|] st];
    simpl in *.
  - split; [now rewrite T|].
    destruct (UploadMore.finish_map b app msgs0 st) as (_ & FS & _).
    split; [now rewrite FS, S|].
    unfold Upload.finish, Upload.reportSuccesses. rewrite Hs.
    destruct (0 <? _)%nat; destruct (Upload.reportFailures _ _ _ _ _) as [[m2 e2] s2];
      reflexivity.
  - split; [now rewrite T|]. now rewrite S.
  - split; [now rewrite T|]. now rewrite S.
Qed.

Lemma named_store_is_reused_witness :
  Forall (fun e => ~ UploadSpec.isCreateStore e)
    (snd (Upload.handleFileSelect 1
            (Upload.sampleBatch [Upload.sampleDocument; Upload.sampleImage] true)
            UploadSpec.storedApp)).
Proof.
  apply (named_store_is_reused 1
           (Upload.sampleBatch [Upload.sampleDocument; Upload.sampleImage] true)
           UploadSpec.storedApp {| Upload.storeName := Some "fileSearchStores/s0" |});
    reflexivity.
Defined.

(** X22.  When the store creation of the set-up throws, the batch is
    aborted before any upload: the trace holds that one request only,
    every file of the batch is marked [failed], no store is recorded,
    the key stays selected whatever the error says, and one "process
    failed" message follows the two progress messages; it shows the
    thrown value as [String] converts it: for an [Error] its name, a
    colon and its message, or the name alone when the message is
    empty. *)
Theorem failed_setup_aborts_batch
    (fuel : nat) (b : Upload.Batch) (app : Upload.App)
    (d : Upload.File) (rd : Upload.Remote) (e : Upload.Thrown) :
  Upload.appFileSearchStore app = None ->
  In (d, rd) (Upload.files b) -> Upload.isDocument d = true ->
  Upload.setupStore b = Upload.Threw e ->
  let app' := fst (Upload.handleFileSelect fuel b app) in
  snd (Upload.handleFileSelect fuel b app)
  = [Upload.Issued None Upload.CreateStore; Upload.Settled None Upload.CreateStore] /\
  (forall f r, In (f, r) (Upload.files b) ->
               Upload.appUploadedFiles app' !! Upload.fileName f
               = Some (Upload.entry (Upload.fileName f) Upload.failed)) /\
  Upload.appFileSearchStore app' = None /\
  Upload.isApiKeySelected app' = Upload.isApiKeySelected app /\
  Upload.isUploading app' = false /\
  map text (Upload.messages app')
  = (map text (Upload.messages app)
     ++ [("uploading " ++ Upload.count (length (Upload.files b)) ++ " file(s)...")%string;
         "creating a new file collection...";
         ("process failed: "
          ++ match e with
             | Upload.ErrorObject name message =>
                 if truthy name
                 then if truthy message then name ++ ": " ++ message else name
                 else message
             | Upload.OtherValue _ shown => shown
             end)%string])%list.
Proof.
  intros Hs Hin Hd He app'.
  assert (Hstart : Upload.start b app
                   = (Upload.say "creating a new file collection..."
                        (Upload.say ("uploading "
                                       ++ Upload.count (length (map fst (Upload.files b)))
                                       ++ " file(s)...")%string (Upload.messages app)),
                      [Upload.Issued None Upload.CreateStore;
                       Upload.Settled None Upload.CreateStore],
                      Upload.Threw e)).
  { unfold Upload.start. rewrite Hs, He.
    destruct (filter Upload.isDocument (map fst (Upload.files b))) as [|y ys] eqn:Ef;
      [|reflexivity].
    exfalso. assert (Hm : d ∈ filter Upload.isDocument (map fst (Upload.files b))).
    { apply list_elem_of_filter. split; [now rewrite Hd|].
      apply list_elem_of_In. now apply (in_map fst) in Hin. }
    rewrite Ef in Hm. now apply not_elem_of_nil in Hm. }
  subst app'. unfold Upload.handleFileSelect.
  destruct (Upload.files b) as [|x fs] eqn:F; [destruct Hin|].
  rewrite <- F in *. rewrite Hstart. simpl.
  split; [reflexivity|]. split; [|split; [exact Hs|]].
  - intros f r Hf.
    assert (Hname : In (Upload.fileName f) (map Upload.fileName (map fst (Upload.files b))))
      by (apply in_map; now apply (in_map fst) in Hf).
    now rewrite UploadMore.failStillUploading_in, UploadMore.markUploading_in by exact Hname.
  - split; [reflexivity|]. split; [reflexivity|].
    unfold Upload.say. rewrite !map_app, <- !app_assoc, length_map.
    now destruct e.
Qed.

Lemma failed_setup_aborts_batch_witness :
  map text
    (Upload.messages (fst (Upload.handleFileSelect 0 UploadSpec.refusedSetup Upload.sampleApp)))
  = (map text (Upload.messages Upload.sampleApp)
     ++ ["uploading 2 file(s)..."; "creating a new file collection...";
         "process failed: ApiError: 404: Requested entity was not found."])%list.
Proof.
  apply (failed_setup_aborts_batch 0 UploadSpec.refusedSetup Upload.sampleApp
           (fst Upload.sampleDocument) (snd Upload.sampleDocument)
           Upload.refused);
    try reflexivity.
  simpl. right. left. reflexivity.
Defined.

(** X27.  A failure the [catch] block of an iteration gets through
    on is isolated: when the [try] block throws an [Error], or a value
    that [JSON.stringify] renders as a string, the iteration ends
    normally with the entry of the file [failed], one failure more and
    the successes as they were; a loop that runs to its end has counted
    each file once, as a success or as a failure; and when there were
    failures the closing report adds exactly one system message for
    them. *)
Theorem caught_failures_are_isolated :
  (forall fuel k f r st e st1,
      Upload.fileBody fuel k f r st = (Some (Upload.Threw e), st1) ->
      UploadSpec.catchable e = true ->
      fst (Upload.processFile fuel k f r st) = Some (Upload.Returned tt) /\
      Upload.uploadedFiles (snd (Upload.processFile fuel k f r st)) !! Upload.fileName f
      = Some (Upload.entry (Upload.fileName f) Upload.failed) /\
      Upload.failures (snd (Upload.processFile fuel k f r st)) = S (Upload.failures st) /\
      Upload.successes (snd (Upload.processFile fuel k f r st)) = Upload.successes st) /\
  (forall fuel k fs st,
      fst (Upload.processFiles fuel k fs st) = Some (Upload.Returned tt) ->
      (Upload.successes (snd (Upload.processFiles fuel k fs st))
       + Upload.failures (snd (Upload.processFiles fuel k fs st))
       = Upload.successes st + Upload.failures st + length fs)%nat) /\
  (forall b app msgs st,
      (0 < Upload.failures st)%nat ->
      exists t,
        Upload.messages (Upload.finish b app msgs st)
        = (fst (Upload.reportSuccesses (Upload.appFileSearchStore app) st msgs
                  (Upload.chat app))
           ++ [systemMessage t])%list).
Proof.
  split; [|split].
  - intros fuel k f r st e st1 E C.
    destruct (UploadMore.catchable_message e C) as (message & Em).
    destruct (UploadFacts.processFile_threw fuel k f r st e st1 message E Em)
      as (H1 & H2 & H3 & H4 & _). auto.
  - intros fuel k fs st. apply UploadFacts.processFiles_counts.
  - intros b app msgs st H. unfold Upload.finish.
    destruct (Upload.reportSuccesses _ st msgs _) as [msgs1 chat1]. simpl.
    destruct (UploadFacts.reportFailures_one (Upload.aistudio b) st msgs1
                (Upload.welcomeError app) (Upload.isApiKeySelected app) H) as [t Ht].
    exists t. destruct (Upload.reportFailures _ _ _ _ _) as [[m2 e2] s2]. exact Ht.
Qed.

Lemma caught_failures_are_isolated_witness :
  Upload.failures
    (snd (Upload.processFile 0 0 (fst Upload.sampleRefused) (snd Upload.sampleRefused)
            (Upload.enterLoop None None ∅ [])))
  = 1%nat.
Proof.
  apply (proj1 caught_failures_are_isolated 0%nat 0%nat (fst Upload.sampleRefused)
           (snd Upload.sampleRefused) (Upload.enterLoop None None ∅ [])
           Upload.refused
           (snd (Upload.fileBody 0 0 (fst Upload.sampleRefused)
                   (snd Upload.sampleRefused) (Upload.enterLoop None None ∅ [])))).
  - vm_compute. reflexivity.
  - reflexivity.
Defined.

(** X28.  A batch completes when the backend lets it: if, for every
    file, what the backend throws is an [Error] or has a JSON rendering,
    and the polling loop of its import sees [done] or such a throw
    within [fuel] rounds, then the loop runs to its end and the handler
    returns with [isUploading] false. *)
Theorem tractable_batch_completes
    (fuel : nat) (b : Upload.Batch) (app : Upload.App)
    (msgs : list Message) (tr : list Upload.Event) (store : option Upload.FileSearchStore) :
  Upload.files b <> [] ->
  Forall (fun fr => UploadSpec.tractable fuel (snd fr) = true) (Upload.files b) ->
  Upload.start b app = (msgs, tr, Upload.Returned store) ->
  fst (Upload.loop fuel b app store tr) = Some (Upload.Returned tt) /\
  Upload.isUploading (fst (Upload.handleFileSelect fuel b app)) = false.
Proof.
  intros Hne Ht Hs.
  pose proof (UploadMore.processFiles_completes fuel (Upload.files b) 0
                (Upload.enterLoop store store
                   (Upload.markUploading (map fst (Upload.files b))
                      (Upload.appUploadedFiles app)) tr) Ht) as C.
  split; [exact C|]. unfold Upload.handleFileSelect.
  destruct (Upload.files b) as [|x fs] eqn:F; [contradiction|]. rewrite <- F in *.
  rewrite Hs. unfold Upload.loop.
  destruct (Upload.processFiles fuel 0 (Upload.files b) _) as [o st]. simpl in C. subst o.
  simpl. apply UploadMore.finish_map.
Qed.

Lemma tractable_batch_completes_witness :
  Upload.isUploading
    (fst (Upload.handleFileSelect 1
            (Upload.sampleBatch [Upload.sampleDocument; Upload.sampleRefused] true)
            Upload.sampleApp))
  = false.
Proof.
  refine (proj2 (tractable_batch_completes 1
                   (Upload.sampleBatch [Upload.sampleDocument; Upload.sampleRefused] true)
                   Upload.sampleApp _ _ _ _ _ _)).
  - discriminate.
  - repeat constructor.
  - reflexivity.
Defined.

(** X29.  Once the handler has returned, observing it for longer
    changes nothing: if [isUploading] is false after [fuel] rounds of
    each polling loop, the state and the trace are the same after any
    larger number of rounds. *)
Theorem longer_observation_changes_nothing
    (fuel extra : nat) (b : Upload.Batch) (app : Upload.App) :
  Upload.isUploading (fst (Upload.handleFileSelect fuel b app)) = false ->
  Upload.handleFileSelect (fuel + extra) b app = Upload.handleFileSelect fuel b app.
Proof.
  unfold Upload.handleFileSelect.
  destruct (Upload.files b) as [|x fs] eqn:F; [reflexivity|]. rewrite <- F.
  destruct (Upload.start b app) as [[msgs tr] [store|e]]; [|reflexivity].
  unfold Upload.loop.
  pose proof (UploadMore.prolongs_processFiles extra fuel (Upload.files b) 0
                (Upload.enterLoop store store
                   (Upload.markUploading (map fst (Upload.files b))
                      (Upload.appUploadedFiles app)) tr)) as P.
  destruct (Upload.processFiles fuel 0 (Upload.files b) _) as [[o|] st].
  - intros _. now rewrite (P o st eq_refl).
  - simpl. discriminate.
Qed.

Lemma longer_observation_changes_nothing_witness :
  Upload.handleFileSelect (1 + 99)
    (Upload.sampleBatch [Upload.sampleDocument; Upload.sampleRefused] true) Upload.sampleApp
  = Upload.handleFileSelect 1
      (Upload.sampleBatch [Upload.sampleDocument; Upload.sampleRefused] true) Upload.sampleApp.
Proof.
  apply (longer_observation_changes_nothing 1 99
           (Upload.sampleBatch [Upload.sampleDocument; Upload.sampleRefused] true)
           Upload.sampleApp).
  vm_compute. reflexivity.
Defined.



(** ** Credentials *)

Module CredentialsMore.
Import Credentials.

Lemma verifyApiKey_consistent listing st : consistent (snd (verifyApiKey listing st)).
Proof.
  unfold verifyApiKey. destruct listing; simpl; intros H; [eauto | discriminate].
Qed.

Lemma act_consistent st a : consistent st -> consistent (act st a).
Proof.
  intros C. destruct a as [host listing|hasHost listing]; simpl.
  - unfold checkAndInit. destruct host.
    + pose proof (verifyApiKey_consistent listing st) as V.
      destruct (verifyApiKey listing st) as [[|e] st1] eqn:E; [exact V|].
      unfold verifyApiKey in E. destruct listing; [discriminate|].
      injection E as _ <-. intros H. discriminate H.
    + pose proof (verifyApiKey_consistent listing st) as V.
      destruct (verifyApiKey listing st) as [[|e] st1] eqn:E; [exact V|].
      unfold verifyApiKey in E. destruct listing; [discriminate|].
      injection E as _ <-. intros H. discriminate H.
    + exact C.
  - unfold handleSelectKey. destruct hasHost; [|exact C].
    pose proof (verifyApiKey_consistent listing st) as V.
    destruct (verifyApiKey listing st) as [[|e] st1] eqn:E; [exact V|].
    unfold verifyApiKey in E. destruct listing; [discriminate|].
    injection E as _ <-. intros H. discriminate H.
Qed.

End CredentialsMore.

(** X23.  At start-up the verification always ends; the key counts as
    selected exactly when the host did not report a missing key and the
    listing call succeeded, and then a web-search chat session exists and
    no welcome error is shown; when the listing call failed, a welcome
    error is shown. *)
Theorem startup_outcome (host : Credentials.Host) (listing : Upload.Outcome unit) :
  let st := Credentials.checkAndInit host listing Credentials.initial in
  Credentials.isVerifyingKey st = false /\
  (Credentials.isApiKeySelected st = true <->
   host <> Credentials.HostWithoutKey /\ exists u, listing = Upload.Returned u) /\
  (Credentials.isApiKeySelected st = true ->
   Credentials.chat st = Some {| Upload.fileSearchStoreName := None |} /\
   Credentials.welcomeError st = None) /\
  (host <> Credentials.HostWithoutKey -> (exists e, listing = Upload.Threw e) ->
   exists t, Credentials.welcomeError st = Some t).
Proof.
  destruct host, listing as [u|e]; simpl; repeat split;
    try discriminate; try reflexivity; try tauto; try (intros; eauto; fail);
    try (intros [? [? ?]]; congruence); try (intros ? [? ?]; congruence).
Qed.

Lemma startup_outcome_witness :
  Credentials.chat
    (Credentials.checkAndInit Credentials.NoHost (Upload.Returned tt) Credentials.initial)
  = Some {| Upload.fileSearchStoreName := None |} /\
  Credentials.welcomeError
    (Credentials.checkAndInit Credentials.NoHost (Upload.Returned tt) Credentials.initial)
  = None.
Proof.
  apply (proj1 (proj2 (proj2 (startup_outcome Credentials.NoHost (Upload.Returned tt))))).
  reflexivity.
Defined.

(** X24.  Whatever the start-up and the key selections do, in any
    order, the key is selected only while a chat session exists and no
    welcome error is set. *)
Theorem key_selected_only_with_chat (actions : list Credentials.Action) :
  let st := fold_left Credentials.act actions Credentials.initial in
  Credentials.isApiKeySelected st = true ->
  (exists c, Credentials.chat st = Some c) /\ Credentials.welcomeError st = None.
Proof.
  cbv zeta. change (Credentials.consistent (fold_left Credentials.act actions Credentials.initial)).
  assert (H : Credentials.consistent Credentials.initial) by (intros H; discriminate H).
  revert H. generalize Credentials.initial.
  induction actions as [|a actions IH]; intros st H; [exact H|].
  simpl. apply IH. now apply CredentialsMore.act_consistent.
Qed.

Lemma key_selected_only_with_chat_witness :
  let st := fold_left Credentials.act
              [Credentials.Startup Credentials.HostWithoutKey (Upload.Returned tt);
               Credentials.SelectKey true (Upload.Returned tt)]
              Credentials.initial in
  (exists c, Credentials.chat st = Some c) /\ Credentials.welcomeError st = None.
Proof.
  apply (key_selected_only_with_chat
           [Credentials.Startup Credentials.HostWithoutKey (Upload.Returned tt);
            Credentials.SelectKey true (Upload.Returned tt)]).
  reflexivity.
Defined.

(** ** Witnesses for the send handler *)

Lemma send_always_settles_witness :
  Send.isLoading (fst (Send.handleSendMessage Send.brokenReply Send.sampleApp)) = false.
Proof.
  apply (send_always_settles Send.brokenReply Send.sampleApp). reflexivity.
Defined.

Lemma answer_text_or_error_witness :
  exists before answer,
    Send.messages (fst (Send.handleSendMessage Send.brokenReply Send.sampleApp))
    = (before ++ [answer])%list /\
    text answer = "error lol: network down".
Proof.
  apply (answer_text_or_error Send.brokenReply Send.sampleApp). reflexivity.
Defined.

Lemma answer_token_count_witness :
  exists before answer,
    Send.messages (fst (Send.handleSendMessage Send.countedReply Send.sampleApp))
    = (before ++ [answer])%list /\
    tokenCount answer = Some 7%Z.
Proof.
  apply (answer_token_count Send.countedReply Send.sampleApp). reflexivity.
Defined.

Lemma sent_images_are_forgotten_witness :
  Send.uploadedFiles (fst (Send.handleSendMessage Send.sampleReply Send.sampleApp))
  = [("notes.pdf", Upload.entry "notes.pdf" Upload.ready)].
Proof.
  apply (sent_images_are_forgotten Send.sampleReply Send.sampleApp); [reflexivity|].
  split.
  - repeat constructor.
  - simpl. repeat constructor; simpl; intros H.
    + apply list_elem_of_In in H. destruct H as [H|[]]. discriminate H.
    + apply list_elem_of_In in H. destruct H.
Defined.

Lemma payload_attaches_ready_images_witness :
  exists files,
    snd (Send.handleSendMessage Send.sampleReply Send.sampleApp)
    = Some (Send.Parts (Send.TextPart "what is this?" :: files)) /\
    Forall2 (fun img part =>
               exists u mime, Upload.uri img = Some u /\ Upload.mimeType img = Some mime /\
                              part = Send.FileDataPart u mime)
      [Send.readyImage] files.
Proof.
  apply (payload_attaches_ready_images Send.sampleReply Send.sampleApp). reflexivity.
Defined.

(** ** The requests of a batch *)

Module UploadRequests.
Import Upload UploadSpec.
Local Open Scope list_scope.

Lemma uploadsOf_app a b : uploadsOf (a ++ b) = uploadsOf a ++ uploadsOf b.
Proof. unfold uploadsOf. apply flat_map_app. Qed.

Lemma uploadsOf_tail k seg : tailOf k seg -> uploadsOf seg = [].
Proof.
  intros (_ & N & _). induction seg as [|e seg IH]; [reflexivity|].
  apply Forall_cons in N as [Ne N]. simpl. rewrite (IH N), app_nil_r.
  destruct e as [[j|] [| | |]|?|?]; try reflexivity. now destruct Ne.
Qed.

(** An iteration issues the upload request of its file and no other,
    however it ends. *)
Lemma processFile_uploads fuel k f r st :
  uploadsOf (trace (snd (processFile fuel k f r st)))
  = uploadsOf (trace st) ++ [(k, fileName f)].
Proof.
  destruct (UploadFacts.processFile_trace fuel k f r st) as (seg & -> & T).
  rewrite uploadsOf_app. simpl. now rewrite (uploadsOf_tail k seg T).
Qed.

(** The loop has issued the upload requests of the first [n] files,
    and of all of them when it ran to its end. *)
Lemma processFiles_uploadsOf fuel fs : forall k st,
  exists n,
    uploadsOf (trace (snd (processFiles fuel k fs st)))
    = uploadsOf (trace st)
      ++ firstn n (combine (seq k (length fs)) (map (fun fr => fileName (fst fr)) fs)) /\
    (fst (processFiles fuel k fs st) = Some (Returned tt) -> n = length fs).
Proof.
  induction fs as [|[f r] fs IH]; intros k st; simpl.
  - exists 0%nat. now rewrite app_nil_r.
  - unfold bind. pose proof (processFile_uploads fuel k f r st) as U.
    destruct (processFile fuel k f r st) as [[[[]|e]|] st1]; simpl in *.
    + destruct (IH (S k) st1) as (n & E & L). exists (S n). split.
      * rewrite E, U, <- app_assoc. reflexivity.
      * intros H. now rewrite (L H).
    + exists 1%nat. split; [|discriminate]. rewrite U. simpl. now rewrite firstn_0.
    + exists 1%nat. split; [|discriminate]. rewrite U. simpl. now rewrite firstn_0.
Qed.

Lemma start_trace b app :
  uploadsOf (snd (fst (start b app))) = [] /\ quiescent (snd (fst (start b app))).
Proof.
  unfold start. destruct (appFileSearchStore app); [now split|].
  destruct (filter isDocument (map fst (files b))); simpl; auto.
Qed.

(** The trace of an invocation on a batch that is not empty. *)
Lemma handled_trace fuel b app msgs tr o :
  start b app = (msgs, tr, o) -> files b <> [] ->
  snd (handleFileSelect fuel b app)
  = match o with
    | Returned store => trace (snd (loop fuel b app store tr))
    | Threw _ => tr
    end.
Proof.
  intros S H. unfold handleFileSelect. destruct (files b) as [|x fs] eqn:F; [contradiction|].
  rewrite <- F. rewrite S. destruct o as [store|e]; [|reflexivity].
  now destruct (loop fuel b app store tr) as [[[[]|e]|] st].
Qed.

End UploadRequests.

(** X25.  The whole trace of an invocation is quiescent, at whatever
    point it is observed: the store creations, the imports and the polls
    too are issued one at a time, each settled before anything else
    happens, and nothing is in flight when the handler returns. *)
Theorem batch_trace_is_quiescent (fuel : nat) (b : Upload.Batch) (app : Upload.App) :
  Upload.quiescent (snd (Upload.handleFileSelect fuel b app)).
Proof. apply UploadFacts.handled_sequential. Qed.

(** X26.  The upload requests of a batch follow the selection: at
    whatever point the invocation is observed, those issued so far are
    the requests of the first files of the batch, one for each, in
    order; and when the loop has run to its end every file has got its
    request. *)
Theorem uploads_follow_selection (fuel : nat) (b : Upload.Batch) (app : Upload.App) :
  let all :=
    combine (seq 0 (length (Upload.files b)))
      (map (fun fr => Upload.fileName (fst fr)) (Upload.files b)) in
  (exists n, UploadSpec.uploadsOf (snd (Upload.handleFileSelect fuel b app)) = firstn n all) /\
  (forall msgs tr store,
      Upload.start b app = (msgs, tr, Upload.Returned store) ->
      fst (Upload.loop fuel b app store tr) = Some (Upload.Returned tt) ->
      UploadSpec.uploadsOf (snd (Upload.handleFileSelect fuel b app)) = all).
Proof.
  intros all.
  assert (D : Upload.files b = [] \/ Upload.files b <> [])
    by (destruct (Upload.files b); [now left | now right]).
  destruct D as [D|D].
  - unfold Upload.handleFileSelect. rewrite D.
    split; [now exists 0%nat|]. intros msgs tr store _ _. subst all. now rewrite D.
  - destruct (UploadRequests.start_trace b app) as (U0 & _).
    destruct (Upload.start b app) as [[msgs tr] [store|e]] eqn:S; simpl in U0;
      rewrite (UploadRequests.handled_trace fuel b app _ _ _ S D).
    + unfold Upload.loop.
      destruct (UploadRequests.processFiles_uploadsOf fuel (Upload.files b) 0
                  (Upload.enterLoop store store
                     (Upload.markUploading (map fst (Upload.files b))
                        (Upload.appUploadedFiles app)) tr)) as (n & E & L).
      simpl in E. rewrite U0 in E. simpl in E. fold all in E.
      split; [now exists n|].
      intros msgs' tr' store' [= <- <- <-] Hl. rewrite E, (L Hl).
      unfold all. apply firstn_all2.
      now rewrite length_combine, length_seq, length_map, Nat.min_id.
    + split; [exists 0%nat; now rewrite U0|]. intros msgs' tr' store' H. discriminate H.
Qed.

Lemma uploads_follow_selection_witness :
  UploadSpec.uploadsOf
    (snd (Upload.handleFileSelect 1
            (Upload.sampleBatch [Upload.sampleDocument; Upload.sampleRefused] true)
            Upload.sampleApp))
  = [(0%nat, "notes.pdf"); (1%nat, "plan.txt")].
Proof.
  refine (proj2 (uploads_follow_selection 1
                   (Upload.sampleBatch [Upload.sampleDocument; Upload.sampleRefused] true)
                   Upload.sampleApp) _ _ _ _ _).
  - reflexivity.
  - vm_compute. reflexivity.
Defined.
